(** * dirmon: the analysis functions of [main.go]

    A shallow embedding of [provideCleanupAdvice], [findDuplicateFiles] and
    [analyzeDiskUsage] together with the helpers [isTempFile], [isLogFile]
    and [calculateMD5], and of the parts of the Go standard library they
    call ([filepath.Walk], [os.ReadDir], [os.Remove], [sort.Slice], ranging
    over a map, [strings.*]); of [listDirectory], [deleteFile],
    [truncateString] and the choice of unit of [formatSize]; of the list of
    monitored directories ([addDirectory], [viewMonitoredDirectories],
    [removeDirectory]); and of the label the two monitoring loops give an
    event.

    Conventions.
    - Go's [int] and [int64] are 64-bit two's complement integers, modelled
      as [Z] with the wrap-around written out ([wrap64]).
    - A [time.Time] is the number of nanoseconds since the epoch, a
      [time.Duration] a number of nanoseconds.
    - A path is the list of its components below the root of the
      filesystem, so [filepath.Join p name] is [p ++ [name]],
      [filepath.Dir] drops the last component and [filepath.Abs] is the
      identity.
    - Whether [os.Remove] succeeds on an entry that exists is decided by
      the system (the permissions of the directory, a read-only
      filesystem), not by the tree: the functions that call it take the
      refusals of the system as a parameter, [protected].
    - What the functions print is returned as data; the formatting of
      numbers (the quotient [formatSize] prints, the day count of a stale
      file), which goes through floating point, is left out.

    The file has three parts: the embedding of the code, the vocabulary in
    which its properties are stated together with the trees of the
    examples, and the properties with their proofs. *)

From Stdlib Require Import ZArith Ascii String Strings.Byte.
From stdpp Require Import gmap strings list fin_maps sorting.

Local Open Scope Z_scope.

(* ===================================================================== *)
(** * Machine integers, time *)
(* ===================================================================== *)

Module Int64.

Definition modulus : Z := 2 ^ 64.
Definition half : Z := 2 ^ 63.
Definition maxInt64 : Z := half - 1.
Definition minInt64 : Z := - half.

(** Two's complement wrap-around of a mathematical integer. *)
Definition wrap64 (z : Z) : Z := (z + half) mod modulus - half.

Definition add64 (a b : Z) : Z := wrap64 (a + b).
Definition mul64 (a b : Z) : Z := wrap64 (a * b).

Definition inRange (z : Z) : Prop := minInt64 <= z <= maxInt64.

End Int64.
Export Int64.

Module Time.

(** [time.Hour], in nanoseconds. *)
Definition Hour : Z := 3600000000000.

(** [t.Sub(u)]: the difference, saturated to the range of a Duration. *)
Definition Sub (t u : Z) : Z :=
  let d := t - u in
  if d <? minInt64 then minInt64
  else if maxInt64 <? d then maxInt64
  else d.

End Time.

(* ===================================================================== *)
(** * The [strings] functions used by the helpers *)
(* ===================================================================== *)

Module Strings.

Local Open Scope string_scope.

(** [strings.ToLower], on the ASCII letters: a byte between 'A' and 'Z'
    is moved to the lower-case range, every other byte is kept. *)
Definition lowerAscii (c : ascii) : ascii :=
  let n := nat_of_ascii c in
  if ((65 <=? n) && (n <=? 90))%nat then ascii_of_nat (n + 32) else c.

Fixpoint ToLower (s : string) : string :=
  match s with
  | EmptyString => EmptyString
  | String c s' => String (lowerAscii c) (ToLower s')
  end.

(** [strings.HasPrefix s prefix]. *)
Definition HasPrefix (s pre : string) : bool := String.prefix pre s.

(** [strings.HasSuffix]:
    [len(s) >= len(suffix) && s[len(s)-len(suffix):] == suffix]. *)
Definition HasSuffix (s suf : string) : bool :=
  let n := String.length s in
  let k := String.length suf in
  (k <=? n)%nat && String.eqb (String.substring (n - k) k s) suf.

(** [strings.Contains]: [substr] starts at some index of [s]. *)
Fixpoint Contains (s substr : string) : bool :=
  String.prefix substr s ||
  match s with
  | EmptyString => false
  | String _ s' => Contains s' substr
  end.

End Strings.

(* ===================================================================== *)
(** * Helper functions of [main.go] *)
(* ===================================================================== *)

Section Helpers.

Import Strings.
Local Open Scope string_scope.

Definition isTempFile (filename : string) : bool :=
  let lowerName := ToLower filename in
  HasSuffix lowerName ".tmp" ||
  HasSuffix lowerName ".temp" ||
  HasPrefix lowerName "~" ||
  HasPrefix lowerName "temp_" ||
  Contains lowerName "cache" ||
  HasSuffix lowerName ".bak".

Definition isLogFile (filename : string) : bool :=
  let lowerName := ToLower filename in
  HasSuffix lowerName ".log" ||
  HasSuffix lowerName ".log.gz" ||
  HasSuffix lowerName ".logs" ||
  Contains lowerName "debug".

End Helpers.

(* ===================================================================== *)
(** * The filesystem *)
(* ===================================================================== *)

(** Errors of the [os] and [filepath] packages.  [SkipDir] and [SkipAll]
    are the two sentinel values a [WalkFunc] may return. *)
Inductive error : Set :=
| ErrNotExist
| ErrPermission
| ErrNotDir
| ErrDirNotEmpty
| SkipDir
| SkipAll.

Global Instance error_eq_dec : EqDecision error.
Proof. solve_decision. Defined.

(** The pair [(value, error)] a Go function returns, with exactly one side
    meaningful. *)
Inductive result (A : Type) : Type :=
| Ok (a : A)
| Err (e : error).
Arguments Ok {A} a.
Arguments Err {A} e.

Definition isErr {A} (r : result A) : bool :=
  match r with Ok _ => false | Err _ => true end.

Definition path := list string.

Definition Join (p : path) (name : string) : path := p ++ [name].

(** [filepath.Dir]: the path without its last component. *)
Definition Dir_of (p : path) : path := removelast p.

(** What [os.FileInfo] gives the three functions. *)
Record FileInfo : Set := mkInfo { Size : Z; ModTime : Z; IsDir : bool }.

Global Instance FileInfo_eq_dec : EqDecision FileInfo.
Proof. solve_decision. Defined.

(** A filesystem tree.
    - [File size mtime data]: an entry that is not a directory; [size] and
      [mtime] are what [Lstat] reports, [data] is what opening and reading
      it yields ([None]: the open or the read fails).
    - [Dir size mtime readable entries]: a directory; [readable] says
      whether its entries can be listed; [entries] are in the order
      [readDirNames] and [os.ReadDir] return them (sorted by name).
    - [Locked isdir]: an entry that is listed in its parent but on which
      [Lstat] fails; [isdir] is the type recorded in the directory
      entry. *)
#[local] Unset Elimination Schemes.
Inductive node : Type :=
| File (size mtime : Z) (data : option (list Byte.byte))
| Dir (size mtime : Z) (readable : bool) (entries : list (string * node))
| Locked (isdir : bool).
#[local] Set Elimination Schemes.

(** Induction over trees, with the hypothesis on every entry of a
    directory. *)
Definition node_ind' (P : node -> Prop)
  (HF : forall sz mt d, P (File sz mt d))
  (HD : forall sz mt r es,
      Forall (fun e => P (snd e)) es -> P (Dir sz mt r es))
  (HL : forall b, P (Locked b)) : forall n, P n :=
  fix IH (n : node) : P n :=
    match n with
    | File sz mt d => HF sz mt d
    | Dir sz mt r es =>
        HD sz mt r es
          ((fix entries (l : list (string * node)) :
              Forall (fun e => P (snd e)) l :=
              match l return Forall (fun e => P (snd e)) l with
              | [] => List.Forall_nil _
              | (name, c) :: l' =>
                  @List.Forall_cons _ (fun e => P (snd e)) (name, c) l' (IH c) (entries l')
              end) es)
    | Locked b => HL b
    end.

(** The [FileInfo] of a node, as [Lstat] returns it once the node has been
    reached. *)
Definition infoOf (n : node) : result FileInfo :=
  match n with
  | File sz mt _ => Ok (mkInfo sz mt false)
  | Dir sz mt _ _ => Ok (mkInfo sz mt true)
  | Locked _ => Err ErrPermission
  end.

Fixpoint lookupEntry (name : string) (es : list (string * node)) : option node :=
  match es with
  | [] => None
  | (n, c) :: es' => if decide (n = name) then Some c else lookupEntry name es'
  end.

Fixpoint removeEntry (name : string) (es : list (string * node))
  : list (string * node) :=
  match es with
  | [] => []
  | (n, c) :: es' =>
      if decide (n = name) then es' else (n, c) :: removeEntry name es'
  end.

Fixpoint replaceEntry (name : string) (c' : node) (es : list (string * node))
  : list (string * node) :=
  match es with
  | [] => []
  | (n, c) :: es' =>
      if decide (n = name) then (n, c') :: es'
      else (n, c) :: replaceEntry name c' es'
  end.

(** Path resolution from the root of the tree. *)
Fixpoint resolve (fs : node) (p : path) {struct p} : result node :=
  match p with
  | [] => Ok fs
  | name :: q =>
      match fs with
      | Dir _ _ _ es =>
          match lookupEntry name es with
          | Some c => resolve c q
          | None => Err ErrNotExist
          end
      | File _ _ _ => Err ErrNotDir
      | Locked _ => Err ErrPermission
      end
  end.

(** [os.Lstat]; the trees have no symbolic links, so [os.Stat] is the
    same function. *)
Definition Lstat (fs : node) (p : path) : result FileInfo :=
  match resolve fs p with
  | Ok n => infoOf n
  | Err e => Err e
  end.

Definition Stat := Lstat.

(** An [os.DirEntry]: the name, the type recorded in the directory, and
    the result of calling [Info()]. *)
Record DirEntry : Type := mkEntry {
  Name : string;
  entryIsDir : bool;
  Info : result FileInfo
}.

Definition dirEntry (e : string * node) : DirEntry :=
  let '(name, c) := e in
  mkEntry name
    (match c with
     | File _ _ _ => false
     | Dir _ _ _ _ => true
     | Locked b => b
     end)
    (infoOf c).

(** [os.ReadDir]: the entries of one directory, not of its
    subdirectories. *)
Definition ReadDir (fs : node) (p : path) : result (list DirEntry) :=
  match resolve fs p with
  | Ok (Dir _ _ true es) => Ok (map dirEntry es)
  | Ok (Dir _ _ false _) => Err ErrPermission
  | Ok (File _ _ _) => Err ErrNotDir
  | Ok (Locked _) => Err ErrPermission
  | Err e => Err e
  end.

(** What [os.Remove] does to the tree when the system lets it: it removes
    an entry that is not a directory, or an empty directory, and leaves
    everything else in place. *)
Fixpoint unlink (fs : node) (p : path) {struct p} : result node :=
  match p with
  | [] => Err ErrPermission
  | name :: q =>
      match fs with
      | Dir sz mt r es =>
          match lookupEntry name es with
          | None => Err ErrNotExist
          | Some c =>
              match q with
              | [] =>
                  match c with
                  | File _ _ _ | Dir _ _ _ [] =>
                      Ok (Dir sz mt r (removeEntry name es))
                  | Dir _ _ _ (_ :: _) => Err ErrDirNotEmpty
                  | Locked _ => Err ErrPermission
                  end
              | _ :: _ =>
                  match unlink c q with
                  | Ok c' => Ok (Dir sz mt r (replaceEntry name c' es))
                  | Err e => Err e
                  end
              end
          end
      | File _ _ _ => Err ErrNotDir
      | Locked _ => Err ErrPermission
      end
  end.

(** [os.Remove].  Whether an entry that exists can be removed is not
    decided by the entry: the call fails on a file in a directory that may
    not be written, on a read-only filesystem, on an immutable file.
    [protected p] is the error with which the system refuses to remove
    [p], if it does; it is not part of the tree and removing entries does
    not change it. *)
Definition Remove (protected : path -> option error) (fs : node) (p : path)
  : result node :=
  match protected p with
  | Some e => Err e
  | None => unlink fs p
  end.

(** A system that refuses nothing. *)
Definition unprotected : path -> option error := fun _ => None.

(** A system that refuses to remove one path. *)
Definition protecting (p : path) : path -> option error :=
  fun q => if decide (q = p) then Some ErrPermission else None.

(** [os.Open] followed by reading to the end of the file. *)
Definition ReadFile (fs : node) (p : path) : result (list Byte.byte) :=
  match resolve fs p with
  | Ok (File _ _ (Some d)) => Ok d
  | Ok (File _ _ None) => Err ErrPermission
  | Ok (Dir _ _ _ _) => Err ErrNotDir
  | Ok (Locked _) => Err ErrPermission
  | Err e => Err e
  end.

(* ===================================================================== *)
(** * [filepath.Walk] *)
(* ===================================================================== *)

Section Walk.

Context {St : Type}.

(** A [WalkFunc] is a closure over the variables of the caller; the
    captured variables are the state [St] it reads and updates. *)
Definition WalkFunc : Type :=
  path -> option FileInfo -> option error -> St -> St * option error.

Variable walkFn : WalkFunc.

(** The loop of [walk] over the names of a directory: [Lstat] on each
    entry, the callback alone when that fails, [walk] otherwise.  An
    error stops the loop, except [SkipDir] (from the callback on a failed
    [Lstat], or from the walk of a directory). *)
Definition walkEntries (walk : path -> node -> St -> St * option error)
  (p : path) : list (string * node) -> St -> St * option error :=
  fix entries (l : list (string * node)) (s : St) {struct l} :=
    match l with
    | [] => (s, None)
    | (name, c) :: l' =>
        let filename := Join p name in
        match infoOf c with
        | Err e =>
            let '(s', r) := walkFn filename None (Some e) s in
            match r with
            | Some e' =>
                if decide (e' = SkipDir) then entries l' s'
                else (s', Some e')
            | None => entries l' s'
            end
        | Ok fileInfo =>
            let '(s', r) := walk filename c s in
            match r with
            | Some e' =>
                if negb (IsDir fileInfo) || bool_decide (e' <> SkipDir)
                then (s', Some e')
                else entries l' s'
            | None => entries l' s'
            end
        end
    end.

(** [walk]: the callback on the entry itself, then, for a directory that
    could be listed and was not refused by the callback, its entries in
    order. *)
Fixpoint walk (p : path) (n : node) (s : St) {struct n} : St * option error :=
  match n with
  | File sz mt _ => walkFn p (Some (mkInfo sz mt false)) None s
  | Locked _ => walkFn p None (Some ErrPermission) s
  | Dir sz mt readable es =>
      let err := if readable then None else Some ErrPermission in
      let '(s1, err1) := walkFn p (Some (mkInfo sz mt true)) err s in
      if negb readable || bool_decide (err1 <> None) then (s1, err1)
      else walkEntries walk p es s1
  end.

(** [filepath.Walk root fn]: [Lstat] on the root first; [SkipDir] and
    [SkipAll] coming out of the walk are not errors. *)
Definition Walk (fs : node) (root : path) (s : St) : St * option error :=
  let '(s', err) :=
    match resolve fs root with
    | Err e => walkFn root None (Some e) s
    | Ok n =>
        match infoOf n with
        | Err e => walkFn root None (Some e) s
        | Ok _ => walk root n s
        end
    end in
  match err with
  | Some SkipDir | Some SkipAll => (s', None)
  | _ => (s', err)
  end.

End Walk.

(* ===================================================================== *)
(** * Ranging over a map, sorting a slice *)
(* ===================================================================== *)

(** Go leaves the order in which [range] visits a map unspecified, and
    the runtime changes it from one loop to the next.  One execution of a
    [range] loop is an enumeration of the entries of the map in some
    order. *)
Record MapOrder (K : Type) `{Countable K} (V : Type) : Type := mkOrder {
  range : gmap K V -> list (K * V);
  range_perm : forall m, range m ≡ₚ map_to_list m
}.
Arguments range {K _ _ V} _ _.
Arguments range_perm {K _ _ V} _ _.

(** Two enumerations: the one of [map_to_list], and its reverse. *)
Definition forwardOrder {K} `{Countable K} {V} : MapOrder K V :=
  mkOrder K _ _ V map_to_list (fun m => reflexivity (map_to_list m)).

Definition backwardOrder {K} `{Countable K} {V} : MapOrder K V :=
  mkOrder K _ _ V (fun m => reverse (map_to_list m))
    (fun m => reverse_Permutation (map_to_list m)).

Section Sort.

Context {A : Type}.
Variable less : A -> A -> bool.

(** The inner loop of insertion sort: [x] moves towards the front past
    the elements it is [less] than. *)
Fixpoint insertLess (x : A) (l : list A) : list A :=
  match l with
  | [] => [x]
  | y :: l' => if less x y then x :: y :: l' else y :: insertLess x l'
  end.

(** [sort.Slice], as the insertion sort the [sort] package runs on
    short slices.  The theorems below use only that the result is a
    permutation of the slice in which no element is [less] than one
    before it, which is all [sort.Slice] promises. *)
Definition sortSlice (l : list A) : list A :=
  fold_left (fun acc x => insertLess x acc) l [].

End Sort.

(* ===================================================================== *)
(** * [provideCleanupAdvice] *)
(* ===================================================================== *)

(** The four reason strings; the empty string (no rule
    matched) is [None] in [option Reason].  [Stale] keeps the age and
    [Large] the size from which the text is formatted. *)
Inductive Reason : Set :=
| Temporary
| LogFile
| Stale (fileAge : Z)
| Large (size : Z).

Global Instance Reason_eq_dec : EqDecision Reason.
Proof. solve_decision. Defined.

(** One printed row of the advice table, with the path recorded in
    [recommendedFiles] for it. *)
Record Candidate : Set := mkCandidate {
  cName : string;
  cPath : path;
  cSize : Z;
  cModTime : Z;
  cReason : Reason
}.

(** The variables of the loop. *)
Record AdviceState : Set := mkAdvice {
  rows : list Candidate;
  totalPotentialSavings : Z;
  recommendedFiles : list path
}.

Section Cleanup.

Variable protected : path -> option error.
Variable now : Z.
Variables ageThreshold sizeThreshold : Z.

Definition ageThresholdDuration : Z := mul64 (mul64 ageThreshold 24) Time.Hour.
Definition sizeThresholdBytes : Z := mul64 (mul64 sizeThreshold 1024) 1024.

(** The [if / else if] chain of the loop body. *)
Definition cleanupReason (name : string) (info : FileInfo) : option Reason :=
  let fileAge := Time.Sub now (ModTime info) in
  if isTempFile name then Some Temporary
  else if isLogFile name then Some LogFile
  else if (ageThresholdDuration <? fileAge) && (0 <? Size info)
    then Some (Stale fileAge)
  else if sizeThresholdBytes <? Size info then Some (Large (Size info))
  else None.

(** One iteration of [for _, file := range files]. *)
Definition adviseEntry (p : path) (st : AdviceState) (file : DirEntry)
  : AdviceState :=
  if entryIsDir file then st
  else
    match Info file with
    | Err _ => st
    | Ok info =>
        let filePath := Join p (Name file) in
        match cleanupReason (Name file) info with
        | None => st
        | Some reason =>
            mkAdvice
              (rows st ++
                 [mkCandidate (Name file) filePath (Size info) (ModTime info) reason])
              (add64 (totalPotentialSavings st) (Size info))
              (recommendedFiles st ++ [filePath])
        end
    end.

(** The loop that runs when the answer to the prompt is yes: every
    recommended file is removed; a failed removal is reported and the
    loop goes on. *)
Definition removeAll (fs : node) (files : list path) : node :=
  fold_left
    (fun fs filePath =>
       match Remove protected fs filePath with
       | Ok fs' => fs'
       | Err _ => fs
       end)
    files fs.

Definition confirmed (response : string) : bool :=
  bool_decide (Strings.ToLower response = "y"%string) ||
  bool_decide (Strings.ToLower response = "yes"%string).

(** [provideCleanupAdvice path ageThreshold sizeThreshold], run on the
    filesystem [fs] with [response] the word read from standard input at
    the prompt.  Returns the filesystem it leaves behind and either the
    error or what was printed. *)
Definition provideCleanupAdvice (fs : node) (response : string) (p : path)
  : node * result AdviceState :=
  match ReadDir fs p with
  | Err e => (fs, Err e)
  | Ok files =>
      let st := fold_left (adviseEntry p) files (mkAdvice [] 0 []) in
      if bool_decide (length (recommendedFiles st) = 0%nat) then (fs, Ok st)
      else if confirmed response
        then (removeAll fs (recommendedFiles st), Ok st)
        else (fs, Ok st)
  end.

End Cleanup.

(* ===================================================================== *)
(** * [findDuplicateFiles] *)
(* ===================================================================== *)

(** What the second pass leaves behind: the map [duplicateGroups], the
    files on which [calculateMD5] was called, in order, and the files for
    which the error line was printed. *)
Record HashState : Type := mkHash {
  duplicateGroups : gmap string (list path);
  hashed : list path;
  hashErrors : list path
}.

(** One printed duplicate group. *)
Record DuplicateGroup : Type := mkGroup {
  groupHash : string;
  groupFiles : list path;
  wastedSpace : Z
}.

(** The variables of the display loop and what it printed. *)
Record DuplicateReport : Type := mkReport {
  groups : list DuplicateGroup;
  duplicateCount : Z;
  totalWasted : Z
}.

Section Duplicates.

(** The digest function of [crypto/md5], hex encoded. *)
Variable md5 : list Byte.byte -> string.

Variable sizeOrder : MapOrder Z (list path).
Variable groupOrder : MapOrder string (list path).

Definition calculateMD5 (fs : node) (filePath : path) : result string :=
  match ReadFile fs filePath with
  | Ok d => Ok (md5 d)
  | Err e => Err e
  end.

(** The callback of the first pass. *)
Definition collectBySize : @WalkFunc (gmap Z (list path)) :=
  fun filePath info err filesBySize =>
    match err with
    | Some e => (filesBySize, Some e)
    | None =>
        match info with
        | Some info =>
            if negb (IsDir info)
            then (<[Size info := default [] (filesBySize !! Size info) ++ [filePath]]>
                    filesBySize, None)
            else (filesBySize, None)
        | None => (filesBySize, None)
        end
    end.

Definition firstPass (fs : node) (p : path) : result (gmap Z (list path)) :=
  match Walk collectBySize fs p ∅ with
  | (_, Some e) => Err e
  | (filesBySize, None) => Ok filesBySize
  end.

(** The inner loop of the second pass. *)
Definition hashFile (fs : node) (st : HashState) (file : path) : HashState :=
  match calculateMD5 fs file with
  | Err _ =>
      mkHash (duplicateGroups st) (hashed st ++ [file]) (hashErrors st ++ [file])
  | Ok hash =>
      mkHash
        (<[hash := default [] (duplicateGroups st !! hash) ++ [file]]>
           (duplicateGroups st))
        (hashed st ++ [file])
        (hashErrors st)
  end.

(** One iteration of [for size, files := range filesBySize]. *)
Definition hashBucket (fs : node) (st : HashState) (b : Z * list path)
  : HashState :=
  let '(size, files) := b in
  if bool_decide (1 < length files)%nat && (0 <? size)
  then fold_left (hashFile fs) files st
  else st.

Definition secondPass (fs : node) (filesBySize : gmap Z (list path))
  : HashState :=
  fold_left (hashBucket fs) (range sizeOrder filesBySize) (mkHash ∅ [] []).

(** One iteration of [for hash, files := range duplicateGroups]. *)
Definition displayGroup (fs : node) (r : DuplicateReport)
  (g : string * list path) : DuplicateReport :=
  let '(hash, files) := g in
  if bool_decide (1 < length files)%nat then
    let count := add64 (duplicateCount r) 1 in
    match files with
    | [] => mkReport (groups r) count (totalWasted r)
    | file0 :: _ =>
        match Stat fs file0 with
        | Err _ => mkReport (groups r) count (totalWasted r)
        | Ok info =>
            let wasted := mul64 (Size info) (wrap64 (Z.of_nat (length files) - 1)) in
            mkReport (groups r ++ [mkGroup hash files wasted])
              count (add64 (totalWasted r) wasted)
        end
    end
  else r.

Definition display (fs : node) (duplicateGroups : gmap string (list path))
  : DuplicateReport :=
  fold_left (displayGroup fs) (range groupOrder duplicateGroups)
    (mkReport [] 0 0).

Definition findDuplicateFiles (fs : node) (p : path) : result DuplicateReport :=
  match firstPass fs p with
  | Err e => Err e
  | Ok filesBySize =>
      Ok (display fs (duplicateGroups (secondPass fs filesBySize)))
  end.

End Duplicates.

(* ===================================================================== *)
(** * [analyzeDiskUsage] *)
(* ===================================================================== *)

(** [filepath.Ext], on the last component of a path: the suffix that
    starts at the last dot, empty when there is no dot. *)
Fixpoint Ext (name : string) : string :=
  match name with
  | EmptyString => EmptyString
  | String c rest =>
      match Ext rest with
      | EmptyString => if Ascii.eqb c "."%char then name else EmptyString
      | e => e
      end
  end.

(** The variables captured by the callback. *)
Record UsageState : Type := mkUsage {
  typeStats : gmap string Z;
  dirStats : gmap path Z;
  totalSize : Z
}.

(** What is printed: both tables and the total.  [shownDirs] is the part
    of [dirStatsList] the display loop prints before its [break]. *)
Record UsageReport : Type := mkUsageReport {
  typeStatsList : list (string * Z);
  dirStatsList : list (path * Z);
  shownDirs : list (path * Z);
  reportTotal : Z
}.

Section Usage.

Variable typeOrder : MapOrder string Z.
Variable dirOrder : MapOrder path Z.

Definition collectUsage (absPath : path) : @WalkFunc UsageState :=
  fun filePath info err st =>
    match err with
    | Some _ => (st, None)
    | None =>
        if bool_decide (filePath = absPath) then (st, None)
        else
          match info with
          | Some info =>
              if negb (IsDir info) then
                let ext := Strings.ToLower (Ext (List.last filePath EmptyString)) in
                let ext := if bool_decide (ext = EmptyString)
                           then "[no extension]"%string else ext in
                let parentDir := Dir_of filePath in
                (mkUsage
                   (<[ext := add64 (default 0 (typeStats st !! ext)) (Size info)]>
                      (typeStats st))
                   (<[parentDir :=
                        add64 (default 0 (dirStats st !! parentDir)) (Size info)]>
                      (dirStats st))
                   (add64 (totalSize st) (Size info)),
                 None)
              else (st, None)
          | None => (st, None)
          end
    end.

(** The comparison handed to both calls of [sort.Slice]. *)
Definition bySizeDesc {K} (a b : K * Z) : bool := snd b <? snd a.

Definition analyzeDiskUsage (fs : node) (p : path) : result UsageReport :=
  let absPath := p in
  match Walk (collectUsage absPath) fs absPath (mkUsage ∅ ∅ 0) with
  | (_, Some e) => Err e
  | (st, None) =>
      let typeStatsList := sortSlice bySizeDesc (range typeOrder (typeStats st)) in
      let dirStatsList := sortSlice bySizeDesc (range dirOrder (dirStats st)) in
      Ok (mkUsageReport typeStatsList dirStatsList (take 10 dirStatsList)
            (totalSize st))
  end.

End Usage.

(* ===================================================================== *)
(** * [truncateString] and [formatSize] *)
(* ===================================================================== *)

(** [truncateString s maxLen]; [None] is the run-time panic of the slice
    expression [s[:maxLen-3]] when its bound is negative or past the end
    of [s].  Lengths are counted in bytes, as [len] does. *)
Definition truncateString (s : string) (maxLen : Z) : option string :=
  let len := Z.of_nat (String.length s) in
  if len <=? maxLen then Some s
  else
    let k := wrap64 (maxLen - 3) in
    if (0 <=? k) && (k <=? len)
    then Some (String.append (String.substring 0 (Z.to_nat k) s) "...")
    else None.

(** What [formatSize] hands to [fmt.Sprintf]: the number of bytes for the
    format [%d B], or the size, the divisor and the unit letter for the
    format [%.1f %cB] (the quotient is computed and rounded in floating
    point by the formatting). *)
Inductive FormattedSize : Set :=
| InBytes (size : Z)
| InUnits (size div : Z) (letter : ascii).

(** The loop [for n := size / unit; n >= unit; n /= unit], with the number
    of iterations bounded by [fuel]. *)
Fixpoint unitLoop (fuel : nat) (n div exp : Z) : option (Z * Z) :=
  if 1024 <=? n then
    match fuel with
    | O => None
    | S fuel' => unitLoop fuel' (Z.quot n 1024) (mul64 div 1024) (add64 exp 1)
    end
  else Some (div, exp).

(** [formatSize size]; [None] stands for a loop that needs more than 64
    iterations and for an index outside the string of unit letters. *)
Definition formatSize (size : Z) : option FormattedSize :=
  if size <? 1024 then Some (InBytes size)
  else
    match unitLoop 64 (Z.quot size 1024) 1024 0 with
    | None => None
    | Some (div, exp) =>
        if exp <? 0 then None
        else
          match String.get (Z.to_nat exp) "KMGTPE" with
          | Some letter => Some (InUnits size div letter)
          | None => None
          end
    end.

(* ===================================================================== *)
(** * [listDirectory] and [deleteFile] *)
(* ===================================================================== *)

(** The errors the commands return: one of the [os] package, or one made
    with [fmt.Errorf]. *)
Inductive appError : Set :=
| OsError (e : error)
| IsADirectory (p : path)
| NotADirectory (p : path)
| NoDirectories.

Inductive EntryType : Set := FILE | DIR.

(** One printed row of the listing. *)
Record ListRow : Set := mkRow {
  rowType : EntryType;
  rowName : string;
  rowSize : Z;
  rowModTime : Z
}.

(** The loop of [listDirectory]: a row per entry, until [Info] fails on
    one. *)
Fixpoint listRows (files : list DirEntry) : list ListRow * option error :=
  match files with
  | [] => ([], None)
  | file :: rest =>
      match Info file with
      | Err e => ([], Some e)
      | Ok info =>
          let fileType := if entryIsDir file then DIR else FILE in
          let '(rows, err) := listRows rest in
          (mkRow fileType (Name file) (Size info) (ModTime info) :: rows, err)
      end
  end.

(** [listDirectory path]: the rows printed and the error returned. *)
Definition listDirectory (fs : node) (p : path) : list ListRow * option error :=
  match ReadDir fs p with
  | Err e => ([], Some e)
  | Ok files => listRows files
  end.

(** [deleteFile path], with [response] the word read at the prompt: the
    filesystem it leaves and the error it returns. *)
Definition deleteFile (protected : path -> option error)
  (fs : node) (response : string) (p : path)
  : node * option appError :=
  match Stat fs p with
  | Err e => (fs, Some (OsError e))
  | Ok info =>
      if IsDir info then (fs, Some (IsADirectory p))
      else if negb (bool_decide (Strings.ToLower response = "y"%string))
              && negb (bool_decide (Strings.ToLower response = "yes"%string))
      then (fs, None)
      else
        match Remove protected fs p with
        | Err e => (fs, Some (OsError e))
        | Ok fs' => (fs', None)
        end
  end.

(* ===================================================================== *)
(** * The list of monitored directories *)
(* ===================================================================== *)

Section Config.

(** [saveConfig], by the error it returns for the configuration it is
    asked to write; what it writes to the disk is not modelled. *)
Variable saveConfig : list path -> option error.

(** [addDirectory path] on [appConfig.MonitoredDirs]: the list it leaves
    and the error it returns. *)
Definition addDirectory (fs : node) (MonitoredDirs : list path) (p : path)
  : list path * option appError :=
  let absPath := p in
  match Stat fs absPath with
  | Err e => (MonitoredDirs, Some (OsError e))
  | Ok info =>
      if negb (IsDir info) then (MonitoredDirs, Some (NotADirectory absPath))
      else if bool_decide (absPath ∈ MonitoredDirs) then (MonitoredDirs, None)
      else
        let MonitoredDirs' := MonitoredDirs ++ [absPath] in
        match saveConfig MonitoredDirs' with
        | Some e => (MonitoredDirs', Some (OsError e))
        | None => (MonitoredDirs', None)
        end
  end.

(** The numbered lines [viewMonitoredDirectories] prints. *)
Definition viewMonitoredDirectories (MonitoredDirs : list path) : list (Z * path) :=
  imap (fun i dir => (Z.of_nat i + 1, dir)) MonitoredDirs.

(** [removeDirectory], with [choice] the number read at the prompt: the
    list it leaves, the directory it reports as removed, the error. *)
Definition removeDirectory (MonitoredDirs : list path) (choice : Z)
  : list path * option path * option appError :=
  if bool_decide (length MonitoredDirs = 0%nat) then (MonitoredDirs, None, None)
  else if (choice <=? 0) || (Z.of_nat (length MonitoredDirs) <? choice)
  then (MonitoredDirs, None, None)
  else
    let i := Z.to_nat (choice - 1) in
    match MonitoredDirs !! i with
    | None => (MonitoredDirs, None, None)
    | Some removedDir =>
        let MonitoredDirs' := take i MonitoredDirs ++ drop (Z.to_nat choice) MonitoredDirs in
        match saveConfig MonitoredDirs' with
        | Some e => (MonitoredDirs', None, Some (OsError e))
        | None => (MonitoredDirs', Some removedDir, None)
        end
    end.

End Config.

(* --------------------------------------------------------------------- *)
(** ** The label of an event in [monitorDirectory] and
       [monitorAllDirectories] *)
(* --------------------------------------------------------------------- *)

(** The operation flags of [fsnotify]: an [Op] is an unsigned bit mask, and
    the five constants are values of the library. *)
Module Fsnotify.
Record Ops : Type := mkOps {
  Create : Z;
  Write : Z;
  Remove : Z;
  Rename : Z;
  Chmod : Z
}.
End Fsnotify.

(** The [switch] of the two event loops, which is the same in both:
    [event.Op&fsnotify.Create == fsnotify.Create] and so on, first case
    that holds, and the empty string when none does. *)
Definition eventType (f : Fsnotify.Ops) (Op : Z) : string :=
  if Z.land Op (Fsnotify.Create f) =? Fsnotify.Create f then "CREATED"
  else if Z.land Op (Fsnotify.Write f) =? Fsnotify.Write f then "MODIFIED"
  else if Z.land Op (Fsnotify.Remove f) =? Fsnotify.Remove f then "DELETED"
  else if Z.land Op (Fsnotify.Rename f) =? Fsnotify.Rename f then "RENAMED"
  else if Z.land Op (Fsnotify.Chmod f) =? Fsnotify.Chmod f then "CHMOD"
  else EmptyString.

(** The flags of fsnotify 1.x: [Create Op = 1 << iota] and the four after
    it. *)
Definition fsnotify1 : Fsnotify.Ops := Fsnotify.mkOps 1 2 4 8 16.

(* ===================================================================== *)
(** * Vocabulary of the properties *)
(* ===================================================================== *)

(** The mathematical sum of a list of sizes. *)
Definition sumZ (l : list Z) : Z := foldr Z.add 0 l.

(** The rule list of the classifier, in the words of the design: four
    rules in a fixed order, the first one that matches gives the
    reason. *)
Inductive Rule : Set := RuleTemporary | RuleLog | RuleStale | RuleOversize.

Definition ruleOrder : list Rule :=
  [RuleTemporary; RuleLog; RuleStale; RuleOversize].

Section RuleDefs.

Variable now : Z.
Variables ageThreshold sizeThreshold : Z.

Definition ruleMatches (name : string) (info : FileInfo) (r : Rule) : bool :=
  match r with
  | RuleTemporary => isTempFile name
  | RuleLog => isLogFile name
  | RuleStale =>
      (ageThresholdDuration ageThreshold <? Time.Sub now (ModTime info))
      && (0 <? Size info)
  | RuleOversize => sizeThresholdBytes sizeThreshold <? Size info
  end.

Definition ruleReason (info : FileInfo) (r : Rule) : Reason :=
  match r with
  | RuleTemporary => Temporary
  | RuleLog => LogFile
  | RuleStale => Stale (Time.Sub now (ModTime info))
  | RuleOversize => Large (Size info)
  end.

Definition firstMatch (name : string) (info : FileInfo) : option Reason :=
  ruleReason info <$> head (filter (fun r => ruleMatches name info r = true) ruleOrder).

(** The row and path the loop body adds for one directory entry. *)
Definition candidateOf (p : path) (file : DirEntry) : option Candidate :=
  if entryIsDir file then None
  else
    match Info file with
    | Err _ => None
    | Ok info =>
        mkCandidate (Name file) (Join p (Name file)) (Size info) (ModTime info)
          <$> cleanupReason now ageThreshold sizeThreshold (Name file) info
    end.

(** What each reason says about the file it was given to: the rules
    before it did not match, its own rule did. *)
Definition reasonJustified (name : string) (info : FileInfo) (r : Reason) : Prop :=
  let stale :=
    (ageThresholdDuration ageThreshold <? Time.Sub now (ModTime info))
    && (0 <? Size info) in
  match r with
  | Temporary => isTempFile name = true
  | LogFile => isTempFile name = false /\ isLogFile name = true
  | Stale a =>
      isTempFile name = false /\ isLogFile name = false /\ stale = true
      /\ a = Time.Sub now (ModTime info)
  | Large s =>
      isTempFile name = false /\ isLogFile name = false /\ stale = false
      /\ (sizeThresholdBytes sizeThreshold <? Size info) = true
      /\ s = Size info
  end.

End RuleDefs.

(** An entry with what lies inside it forgotten: a subdirectory becomes an
    empty directory with the same attributes. *)
Definition shallowEntry (e : string * node) : string * node :=
  let '(name, c) := e in
  (name, match c with Dir sz mt r _ => Dir sz mt r [] | _ => c end).

(** [located n0 q n]: the node [n] sits at the relative path [q] below
    [n0]. *)
Inductive located : node -> path -> node -> Prop :=
| located_here n : located n [] n
| located_child sz mt r es name c q n :
    In (name, c) es -> located c q n -> located (Dir sz mt r es) (name :: q) n.

(** The arguments with which the walk calls its callback on a node. *)
Definition callOf (c : node) : option FileInfo * option error :=
  match c with
  | File sz mt _ => (Some (mkInfo sz mt false), None)
  | Dir sz mt r _ => (Some (mkInfo sz mt true), if r then None else Some ErrPermission)
  | Locked _ => (None, Some ErrPermission)
  end.

(** The entries that are not directories and that a walk which is never
    stopped reaches, with the path and the [FileInfo] the callback gets
    for each, in the order of the walk.  Nothing below a directory that
    cannot be listed is reached, and no entry on which [Lstat] fails. *)
Definition reachableEntries (reach : path -> node -> list (path * FileInfo))
  (p : path) : list (string * node) -> list (path * FileInfo) :=
  fix entries (l : list (string * node)) :=
    match l with
    | [] => []
    | (name, c) :: l' => reach (Join p name) c ++ entries l'
    end.

Fixpoint reachable (p : path) (n : node) {struct n} : list (path * FileInfo) :=
  match n with
  | File sz mt _ => [(p, mkInfo sz mt false)]
  | Locked _ => []
  | Dir _ _ r es => if r then reachableEntries reachable p es else []
  end.

Definition walkedFiles (fs : node) (root : path) : list (path * FileInfo) :=
  match resolve fs root with
  | Ok n => reachable root n
  | Err _ => []
  end.

(** What a callback does to its state for one file. *)
Definition onFile {St : Type} (walkFn : @WalkFunc St) (s : St) (f : path * FileInfo)
  : St :=
  fst (walkFn (fst f) (Some (snd f)) None s).

(** Descending by byte total: no entry is larger than one before it. *)
Definition descending {K} (l : list (K * Z)) : Prop :=
  StronglySorted (fun a b => snd b <= snd a) l.

(** The sum of the values of a map. *)
Definition sumMap `{Countable K} (m : gmap K Z) : Z :=
  sumZ (map snd (map_to_list m)).

(** The files that count towards the totals: the files the walk reaches,
    the root itself left out. *)
Definition countedFiles (fs : node) (p : path) : list (path * FileInfo) :=
  filter (fun f => fst f <> p) (walkedFiles fs p).

Definition countedSizes (fs : node) (p : path) : list Z :=
  map (fun f => Size (snd f)) (countedFiles fs p).

(** What the callback does to its variables for one counted file. *)
Definition addFile (st : UsageState) (f : path * FileInfo) : UsageState :=
  let ext := Strings.ToLower (Ext (List.last (fst f) EmptyString)) in
  let ext := if bool_decide (ext = EmptyString) then "[no extension]"%string else ext in
  let parentDir := Dir_of (fst f) in
  mkUsage
    (<[ext := add64 (default 0 (typeStats st !! ext)) (Size (snd f))]> (typeStats st))
    (<[parentDir := add64 (default 0 (dirStats st !! parentDir)) (Size (snd f))]>
       (dirStats st))
    (add64 (totalSize st) (Size (snd f))).

(** The state the walk of [analyzeDiskUsage] ends in. *)
Definition usageState (fs : node) (p : path) : UsageState :=
  fold_left addFile (countedFiles fs p) (mkUsage ∅ ∅ 0).

(** Every path in the bucket of a size is a file of the tree with that
    size, as the walk saw it. *)
Definition bucketsSound (fs : node) (filesBySize : gmap Z (list path)) : Prop :=
  forall size files f,
    filesBySize !! size = Some files -> f ∈ files ->
    exists mt d, located fs f (File size mt d).

Section HashDefs.

Variable md5 : list Byte.byte -> string.
Variable fs : node.
Variable filesBySize : gmap Z (list path).

(** A file of a bucket that goes on to hashing. *)
Definition promoted (f : path) : Prop :=
  exists size files,
    filesBySize !! size = Some files /\ f ∈ files
    /\ (1 < length files)%nat /\ 0 < size.

Definition hashSound (st : HashState) : Prop :=
  (forall f, f ∈ hashed st -> promoted f)
  /\ (forall hash files f,
        duplicateGroups st !! hash = Some files -> f ∈ files ->
        calculateMD5 md5 fs f = Ok hash /\ promoted f).

End HashDefs.

(** [blocked n]: the walk of [n] meets an entry on which [Lstat] fails or a
    directory it cannot list. *)
Inductive blocked : node -> Prop :=
| blocked_locked b : blocked (Locked b)
| blocked_dir sz mt es : blocked (Dir sz mt false es)
| blocked_child sz mt es name c :
    In (name, c) es -> blocked c -> blocked (Dir sz mt true es).

(** What the callback of the first pass does for one file. *)
Definition collectFile (filesBySize : gmap Z (list path)) (f : path * FileInfo)
  : gmap Z (list path) :=
  <[Size (snd f) := default [] (filesBySize !! Size (snd f)) ++ [fst f]]> filesBySize.

(** The group the display loop prints for one entry of the digest map, if
    it prints one. *)
Definition groupOf (fs : node) (e : string * list path) : option DuplicateGroup :=
  if bool_decide (1 < length (snd e))%nat then
    match snd e with
    | [] => None
    | file0 :: _ =>
        match Stat fs file0 with
        | Err _ => None
        | Ok info =>
            Some (mkGroup (fst e) (snd e)
                    (mul64 (Size info) (wrap64 (Z.of_nat (length (snd e)) - 1))))
        end
    end
  else None.

(** The entries of a digest map with more than one file. *)
Definition sharedDigests (groupsByHash : gmap string (list path))
  : list (string * list path) :=
  filter (fun e => (1 < length (snd e))%nat) (map_to_list groupsByHash).

(** The key under which [analyzeDiskUsage] counts a file by type. *)
Definition typeKey (f : path * FileInfo) : string :=
  let ext := Strings.ToLower (Ext (List.last (fst f) EmptyString)) in
  if bool_decide (ext = EmptyString) then "[no extension]"%string else ext.

(* ===================================================================== *)
(** * Trees to run the functions on *)
(* ===================================================================== *)

Definition day : Z := 24 * Time.Hour.

(** A content of [n] zero bytes. *)
Definition blank (n : nat) : option (list Byte.byte) := Some (repeat x00 n).

(** Four files and two subdirectories, one of which cannot be listed.
    The clock of the examples stands at day 100. *)
Definition exampleTree : node :=
  Dir 4096 0 true
    [("a.txt"%string, File 5 0 (blank 5));
     ("b.csv"%string, File 5 (95 * day) (blank 5));
     ("old.tmp"%string, File 7 0 (blank 7));
     ("empty.dat"%string, File 0 0 (blank 0));
     ("sub"%string, Dir 4096 0 true [("x.log"%string, File 9 0 (blank 9))]);
     ("private"%string, Dir 4096 0 false [])].

Definition exampleNow : Z := 100 * day.

Definition exampleAdvice : AdviceState :=
  mkAdvice
    [mkCandidate "a.txt" ["a.txt"%string] 5 0 (Stale (100 * day));
     mkCandidate "old.tmp" ["old.tmp"%string] 7 0 Temporary]
    12
    [["a.txt"%string]; ["old.tmp"%string]].

(** The example tree with the file in its subdirectory replaced by two
    others. *)
Definition exampleTree' : node :=
  Dir 4096 0 true
    [("a.txt"%string, File 5 0 (blank 5));
     ("b.csv"%string, File 5 (95 * day) (blank 5));
     ("old.tmp"%string, File 7 0 (blank 7));
     ("empty.dat"%string, File 0 0 (blank 0));
     ("sub"%string,
       Dir 4096 0 true
         [("huge.tmp"%string, File 4000 0 (blank 4000));
          ("y.log"%string, File 1 0 (blank 1))]);
     ("private"%string, Dir 4096 0 false [])].

(** A directory with duplicates: [a.txt] and [b.txt] have the same three
    bytes, [c.txt] has three other bytes, [d.bin] is alone with its
    size. *)
Definition duplicatesTree : node :=
  Dir 4096 0 true
    [("a.txt"%string, File 3 0 (Some ["x"; "y"; "z"]%byte));
     ("b.txt"%string, File 3 0 (Some ["x"; "y"; "z"]%byte));
     ("c.txt"%string, File 3 0 (Some ["x"; "y"; "w"]%byte));
     ("d.bin"%string, File 5 0 (Some ["1"; "2"; "3"; "4"; "5"]%byte))].

(** In the examples the digest of a content is the content itself, read as
    a string: a digest without collisions. *)
Definition contentDigest (d : list Byte.byte) : string := string_of_list_byte d.

Definition duplicatesBuckets : gmap Z (list path) :=
  <[3 := [["a.txt"]; ["b.txt"]; ["c.txt"]]%string]> {[5 := [["d.bin"%string]]]}.

(** Two files with the same six bytes, and two entries [l1] and [l2] that
    are not directories, for which [Lstat] reports the size 5 and from
    which the same six bytes are read.  The size [Lstat] reports is not
    always the number of bytes read: for the files of a pseudo filesystem
    it is a constant, and the two passes of [findDuplicateFiles] see a
    symbolic link to a file in the same way ([Lstat] reports the length of
    the name the link holds, 5 for links to [a.txt] and [b.txt], and
    opening the link opens the file it points to). *)
Definition mixedSizes : node :=
  Dir 4096 0 true
    [("a.txt"%string, File 6 0 (Some ["d"; "i"; "r"; "m"; "o"; "n"]%byte));
     ("b.txt"%string, File 6 0 (Some ["d"; "i"; "r"; "m"; "o"; "n"]%byte));
     ("l1"%string, File 5 0 (Some ["d"; "i"; "r"; "m"; "o"; "n"]%byte));
     ("l2"%string, File 5 0 (Some ["d"; "i"; "r"; "m"; "o"; "n"]%byte))].


(** Eleven directories with one file of one byte each. *)
Definition elevenDirs : node :=
  Dir 4096 0 true
    (map (fun name => (name, Dir 4096 0 true [("f"%string, File 1 0 (blank 1))]))
       ["d00"; "d01"; "d02"; "d03"; "d04"; "d05"; "d06"; "d07"; "d08"; "d09";
        "d10"]%string).

(* ===================================================================== *)
(** * The helpers on some names *)
(* ===================================================================== *)

Example isTempFile_upper : isTempFile "Report.TMP" = true.
Proof. reflexivity. Qed.
Example isTempFile_cache : isTempFile "MyCacheDir.dat" = true.
Proof. reflexivity. Qed.
Example isTempFile_plain : isTempFile "data.csv" = false.
Proof. reflexivity. Qed.
Example isLogFile_gz : isLogFile "app.LOG.gz" = true.
Proof. reflexivity. Qed.
Example isLogFile_plain : isLogFile "data.csv" = false.
Proof. reflexivity. Qed.
Example Ext_last_dot : Ext "archive.tar.GZ" = ".GZ"%string.
Proof. reflexivity. Qed.
Example Ext_none : Ext "Makefile" = EmptyString.
Proof. reflexivity. Qed.

(* ===================================================================== *)
(** * Properties of the arithmetic *)
(* ===================================================================== *)

Section Int64Facts.

Lemma wrap64_range z : inRange (wrap64 z).
Proof.
  unfold inRange, wrap64, minInt64, maxInt64.
  pose proof (Z.mod_pos_bound (z + half) modulus eq_refl) as Hb.
  change modulus with (2 * half) in *. lia.
Qed.

Lemma wrap64_small z : inRange z -> wrap64 z = z.
Proof.
  unfold inRange, wrap64, minInt64, maxInt64. intros Hz.
  rewrite Z.mod_small; [lia |]. change modulus with (2 * half). lia.
Qed.

Lemma wrap64_add_l a b : wrap64 (wrap64 a + b) = wrap64 (a + b).
Proof.
  unfold wrap64. f_equal.
  replace ((a + half) mod modulus - half + b + half)
    with ((a + half) mod modulus + b) by lia.
  rewrite Zplus_mod_idemp_l. f_equal. lia.
Qed.

Lemma wrap64_add_r a b : wrap64 (a + wrap64 b) = wrap64 (a + b).
Proof. rewrite (Z.add_comm a), wrap64_add_l. f_equal. lia. Qed.

Lemma wrap64_idem a : wrap64 (wrap64 a) = wrap64 a.
Proof. apply wrap64_small, wrap64_range. Qed.

Lemma add64_wrap_l a b : add64 (wrap64 a) b = wrap64 (a + b).
Proof. apply wrap64_add_l. Qed.

End Int64Facts.

Lemma sumZ_app l1 l2 : sumZ (l1 ++ l2) = sumZ l1 + sumZ l2.
Proof. unfold sumZ. induction l1 as [| x l1 IH]; simpl; lia. Qed.

Lemma sumZ_perm l1 l2 : l1 ≡ₚ l2 -> sumZ l1 = sumZ l2.
Proof. unfold sumZ. induction 1; simpl; lia. Qed.

Lemma sumZ_nonneg l : Forall (fun x => 0 <= x) l -> 0 <= sumZ l.
Proof. unfold sumZ. induction 1; simpl; lia. Qed.

(* ===================================================================== *)
(** * Properties of [provideCleanupAdvice] *)
(* ===================================================================== *)

Section Rules.

Variable now : Z.
Variables ageThreshold sizeThreshold : Z.

Lemma cleanupReason_firstMatch name info :
  cleanupReason now ageThreshold sizeThreshold name info
    = firstMatch now ageThreshold sizeThreshold name info.
Proof.
  unfold cleanupReason, firstMatch, ruleOrder.
  rewrite !filter_cons, filter_nil. cbn [ruleMatches].
  destruct (isTempFile name), (isLogFile name),
    ((ageThresholdDuration ageThreshold <? Time.Sub now (ModTime info))
     && (0 <? Size info)),
    (sizeThresholdBytes sizeThreshold <? Size info);
    repeat case_decide; try congruence; reflexivity.
Qed.

Lemma adviseEntry_candidateOf p st file :
  adviseEntry now ageThreshold sizeThreshold p st file =
    match candidateOf now ageThreshold sizeThreshold p file with
    | None => st
    | Some c =>
        mkAdvice (rows st ++ [c]) (add64 (totalPotentialSavings st) (cSize c))
          (recommendedFiles st ++ [cPath c])
    end.
Proof.
  unfold adviseEntry, candidateOf.
  destruct (entryIsDir file); [reflexivity |].
  destruct (Info file) as [info | e]; [| reflexivity].
  destruct (cleanupReason _ _ _ _ _); reflexivity.
Qed.

Lemma adviseLoop_spec p files st :
  let st' := fold_left (adviseEntry now ageThreshold sizeThreshold p) files st in
  let cs := omap (candidateOf now ageThreshold sizeThreshold p) files in
  rows st' = rows st ++ cs
  /\ recommendedFiles st' = recommendedFiles st ++ map cPath cs
  /\ wrap64 (totalPotentialSavings st') =
       wrap64 (totalPotentialSavings st + sumZ (map cSize cs)).
Proof.
  revert st. induction files as [| file files IH]; intros st; simpl.
  - rewrite !app_nil_r, Z.add_0_r. auto.
  - specialize (IH (adviseEntry now ageThreshold sizeThreshold p st file)).
    simpl in IH. destruct IH as (Hr & Hf & Ht).
    rewrite Hr, Hf, Ht. rewrite adviseEntry_candidateOf.
    destruct (candidateOf now ageThreshold sizeThreshold p file) as [c |]; simpl; [| auto].
    rewrite <- !app_assoc. simpl. repeat split.
    unfold add64. rewrite wrap64_add_l, Z.add_assoc. reflexivity.
Qed.

End Rules.

Section CleanupFacts.

Variable protected : path -> option error.
Variable now : Z.
Variables ageThreshold sizeThreshold : Z.

Local Abbreviation advise := (provideCleanupAdvice protected now ageThreshold sizeThreshold).
Local Abbreviation loop p := (fold_left (adviseEntry now ageThreshold sizeThreshold p)).

(** The report, when there is one, is the state the loop leaves after
    the entries [os.ReadDir] returned. *)
Lemma advise_report fs response p st :
  snd (advise fs response p) = Ok st ->
  exists files, ReadDir fs p = Ok files /\ st = loop p files (mkAdvice [] 0 []).
Proof.
  unfold provideCleanupAdvice. destruct (ReadDir fs p) as [files | e]; [| discriminate].
  intros H. exists files. split; [reflexivity |].
  repeat case_match; simpl in H; congruence.
Qed.

Lemma advise_error fs response p e :
  ReadDir fs p = Err e -> advise fs response p = (fs, Err e).
Proof. unfold provideCleanupAdvice. intros ->. reflexivity. Qed.

Lemma advise_rows fs response p st :
  snd (advise fs response p) = Ok st ->
  exists files, ReadDir fs p = Ok files
    /\ rows st = omap (candidateOf now ageThreshold sizeThreshold p) files
    /\ recommendedFiles st = map cPath (rows st)
    /\ totalPotentialSavings st = wrap64 (sumZ (map cSize (rows st))).
Proof.
  intros H. destruct (advise_report _ _ _ _ H) as (files & Hrd & ->).
  exists files. split; [exact Hrd |].
  destruct (adviseLoop_spec now ageThreshold sizeThreshold p files (mkAdvice [] 0 []))
    as (Hr & Hf & Ht).
  simpl in Hr, Hf, Ht. rewrite Z.add_0_l in Ht. rewrite Hr, Hf. repeat split.
  rewrite <- Ht. symmetry. apply wrap64_small.
  clear.
  assert (Hstep : forall st file,
             inRange (totalPotentialSavings st) ->
             inRange (totalPotentialSavings
                        (adviseEntry now ageThreshold sizeThreshold p st file))).
  { intros st file Hst. rewrite adviseEntry_candidateOf.
    destruct (candidateOf _ _ _ _ _); [apply wrap64_range | exact Hst]. }
  assert (Hloop : forall files st,
             inRange (totalPotentialSavings st) ->
             inRange (totalPotentialSavings (loop p files st))).
  { intros l. induction l as [| f l IH]; intros st Hst; simpl;
      [exact Hst | apply IH, Hstep, Hst]. }
  apply (Hloop files (mkAdvice [] 0 [])). simpl.
  unfold inRange, minInt64, maxInt64, half. lia.
Qed.

(** How a row comes about. *)
Lemma candidateOf_Some p file c :
  candidateOf now ageThreshold sizeThreshold p file = Some c <->
  exists info reason,
    entryIsDir file = false /\ Info file = Ok info
    /\ cleanupReason now ageThreshold sizeThreshold (Name file) info = Some reason
    /\ c = mkCandidate (Name file) (Join p (Name file)) (Size info) (ModTime info) reason.
Proof.
  unfold candidateOf. split.
  - destruct (entryIsDir file); [discriminate |].
    destruct (Info file) as [info | e]; [| discriminate].
    destruct (cleanupReason _ _ _ _ _) as [reason |] eqn:Hr; [| discriminate].
    simpl. intros [= <-]. exists info, reason. auto.
  - intros (info & reason & -> & -> & -> & ->). reflexivity.
Qed.

Lemma cleanupReason_justified name info r :
  cleanupReason now ageThreshold sizeThreshold name info = Some r ->
  reasonJustified now ageThreshold sizeThreshold name info r.
Proof.
  unfold cleanupReason, reasonJustified.
  destruct (isTempFile name), (isLogFile name),
    ((ageThresholdDuration ageThreshold <? Time.Sub now (ModTime info))
     && (0 <? Size info)),
    (sizeThresholdBytes sizeThreshold <? Size info);
    intros [= <-]; auto 6.
Qed.

Lemma cleanupReason_None name info :
  cleanupReason now ageThreshold sizeThreshold name info = None <->
  forall r, ruleMatches now ageThreshold sizeThreshold name info r = false.
Proof.
  unfold cleanupReason. split.
  - intros H r.
    destruct (isTempFile name) eqn:Ht; [discriminate |].
    destruct (isLogFile name) eqn:Hl; [discriminate |].
    destruct ((ageThresholdDuration ageThreshold <? Time.Sub now (ModTime info))
              && (0 <? Size info)) eqn:Hs; [discriminate |].
    destruct (sizeThresholdBytes sizeThreshold <? Size info) eqn:Ho; [discriminate |].
    destruct r; simpl; assumption.
  - intros H.
    pose proof (H RuleTemporary) as Ht. pose proof (H RuleLog) as Hl.
    pose proof (H RuleStale) as Hs. pose proof (H RuleOversize) as Ho.
    simpl in Ht, Hl, Hs, Ho. rewrite Ht, Hl, Hs, Ho. reflexivity.
Qed.

(** The names enter the rules only through [strings.ToLower]. *)
Lemma cleanupReason_case name1 name2 info :
  Strings.ToLower name1 = Strings.ToLower name2 ->
  cleanupReason now ageThreshold sizeThreshold name1 info =
  cleanupReason now ageThreshold sizeThreshold name2 info.
Proof.
  intros H. unfold cleanupReason, isTempFile, isLogFile. rewrite H. reflexivity.
Qed.

End CleanupFacts.

(* --------------------------------------------------------------------- *)
(** ** Removal touches only the removed path *)
(* --------------------------------------------------------------------- *)

Lemma lookupEntry_removeEntry_ne name name' es :
  name <> name' -> lookupEntry name' (removeEntry name es) = lookupEntry name' es.
Proof.
  intros Hne. induction es as [| [n c] es IH]; simpl; [reflexivity |].
  destruct (decide (n = name)) as [-> | Hn]; simpl.
  - destruct (decide (name = name')); [contradiction | reflexivity].
  - destruct (decide (n = name')); [reflexivity | exact IH].
Qed.

Lemma lookupEntry_replaceEntry_ne name name' c' es :
  name <> name' -> lookupEntry name' (replaceEntry name c' es) = lookupEntry name' es.
Proof.
  intros Hne. induction es as [| [n c] es IH]; simpl; [reflexivity |].
  destruct (decide (n = name)) as [-> | Hn]; simpl.
  - destruct (decide (name = name')); [contradiction | reflexivity].
  - destruct (decide (n = name')); [reflexivity | exact IH].
Qed.

Lemma lookupEntry_replaceEntry_eq name c c' es :
  lookupEntry name es = Some c -> lookupEntry name (replaceEntry name c' es) = Some c'.
Proof.
  induction es as [| [n c0] es IH]; simpl; [discriminate |].
  destruct (decide (n = name)) as [-> | Hn]; simpl.
  - intros _. destruct (decide (name = name)); [reflexivity | contradiction].
  - intros H. destruct (decide (n = name)); [contradiction | auto].
Qed.

Lemma lookupEntry_In name c es : lookupEntry name es = Some c -> In (name, c) es.
Proof.
  induction es as [| [n c0] es IH]; simpl; [discriminate |].
  destruct (decide (n = name)) as [-> | Hn].
  - intros [= ->]. auto.
  - auto.
Qed.

(** A path that is neither above nor below the removed one resolves as
    before. *)
Lemma unlink_resolve_other f : forall fs fs' q,
  unlink fs f = Ok fs' ->
  ~ f `prefix_of` q -> ~ q `prefix_of` f ->
  resolve fs' q = resolve fs q.
Proof.
  induction f as [| name f' IH]; intros fs fs' q Hrm Hfq Hqf; [discriminate |].
  destruct q as [| name' q'].
  { exfalso. apply Hqf. apply prefix_nil. }
  simpl in Hrm. destruct fs as [| sz mt r es |]; try discriminate.
  destruct (lookupEntry name es) as [c |] eqn:Hc; [| discriminate].
  destruct (decide (name = name')) as [<- | Hne].
  - destruct f' as [| x f''].
    + exfalso. apply Hfq. exists q'. reflexivity.
    + destruct (unlink c (x :: f'')) as [c' |] eqn:Hrc; [| discriminate].
      injection Hrm as <-. simpl.
      rewrite (lookupEntry_replaceEntry_eq _ _ c' _ Hc), Hc.
      apply IH; [exact Hrc | |].
      * intros [k Hk]. apply Hfq. exists k. rewrite Hk. reflexivity.
      * intros [k Hk]. apply Hqf. exists k. rewrite Hk. reflexivity.
  - assert (Hfs' : exists es', fs' = Dir sz mt r es'
                     /\ lookupEntry name' es' = lookupEntry name' es).
    { destruct f' as [| x f''].
      - exists (removeEntry name es). split.
        + destruct c as [| ? ? ? [| ? ?] |]; congruence.
        + apply lookupEntry_removeEntry_ne, Hne.
      - destruct (unlink c (x :: f'')) as [c' |]; [| discriminate].
        exists (replaceEntry name c' es). split; [congruence |].
        apply lookupEntry_replaceEntry_ne, Hne. }
    destruct Hfs' as (es' & -> & Hl). simpl. rewrite Hl. reflexivity.
Qed.

Lemma Remove_resolve_other protected f fs fs' q :
  Remove protected fs f = Ok fs' ->
  ~ f `prefix_of` q -> ~ q `prefix_of` f ->
  resolve fs' q = resolve fs q.
Proof.
  unfold Remove. destruct (protected f); [discriminate |].
  apply unlink_resolve_other.
Qed.

Lemma removeAll_resolve_other protected files : forall fs q,
  (forall f, f ∈ files -> ~ f `prefix_of` q /\ ~ q `prefix_of` f) ->
  resolve (removeAll protected fs files) q = resolve fs q.
Proof.
  induction files as [| f files IH]; intros fs q Hq; simpl; [reflexivity |].
  unfold removeAll in *. simpl.
  rewrite IH by (intros f' Hf'; apply Hq; right; exact Hf').
  destruct (Remove protected fs f) as [fs' |] eqn:Hrm; [| reflexivity].
  destruct (Hq f) as [H1 H2]; [left |].
  eapply Remove_resolve_other; eauto.
Qed.

(** For files that are direct children of one directory, what remains of
    that directory is what was there, less the removed names. *)
Lemma ReadDir_children fs p files :
  ReadDir fs p = Ok files ->
  exists sz mt es, resolve fs p = Ok (Dir sz mt true es) /\ files = map dirEntry es.
Proof.
  unfold ReadDir. destruct (resolve fs p) as [[| sz mt [|] es |] |]; try discriminate.
  intros [= <-]. eauto.
Qed.

Lemma dirEntry_file name c info :
  entryIsDir (dirEntry (name, c)) = false -> Info (dirEntry (name, c)) = Ok info ->
  exists d, c = File (Size info) (ModTime info) d.
Proof.
  destruct c as [sz mt d | sz mt r es | b]; simpl; try discriminate.
  intros _ [= <-]. simpl. eauto.
Qed.

(* --------------------------------------------------------------------- *)
(** ** The advice on the example tree *)
(* --------------------------------------------------------------------- *)

Example exampleAdvice_run :
  provideCleanupAdvice unprotected exampleNow 90 100 exampleTree "n" [] =
    (exampleTree, Ok exampleAdvice).
Proof. vm_compute. reflexivity. Qed.

Lemma dirEntry_shallow e : dirEntry (shallowEntry e) = dirEntry e.
Proof. destruct e as [name [| |]]; reflexivity. Qed.

Lemma ReadDir_shallow fs fs' p sz mt es sz' mt' es' :
  resolve fs p = Ok (Dir sz mt true es) ->
  resolve fs' p = Ok (Dir sz' mt' true es') ->
  map shallowEntry es' = map shallowEntry es ->
  ReadDir fs' p = ReadDir fs p.
Proof.
  intros H H' Hs. unfold ReadDir. rewrite H, H'. f_equal.
  transitivity (map dirEntry (map shallowEntry es')).
  - rewrite map_map. apply map_ext. intros e. symmetry. apply dirEntry_shallow.
  - rewrite Hs, map_map. apply map_ext, dirEntry_shallow.
Qed.

Lemma advise_depends_on_ReadDir protected protected' now age size fs fs' response response' p :
  ReadDir fs' p = ReadDir fs p ->
  snd (provideCleanupAdvice protected' now age size fs' response' p) =
  snd (provideCleanupAdvice protected now age size fs response p).
Proof.
  intros H. unfold provideCleanupAdvice. rewrite H.
  destruct (ReadDir fs p); [| reflexivity].
  repeat case_match; reflexivity.
Qed.

Lemma reasonJustified_matches now age size name info info' r :
  Size info' = Size info -> ModTime info' = ModTime info ->
  reasonJustified now age size name info' r ->
  exists rule, ruleMatches now age size name info rule = true.
Proof.
  unfold reasonJustified. intros Hs Hm. rewrite Hs, Hm.
  destruct r.
  - intros H. exists RuleTemporary. exact H.
  - intros [_ H]. exists RuleLog. exact H.
  - intros (_ & _ & H & _). exists RuleStale. exact H.
  - intros (_ & _ & _ & H & _). exists RuleOversize. exact H.
Qed.

(** C4. The classifier of the cleanup advice evaluates its rules on the
    lower-cased name in the fixed order Temporary, Log, Stale, Oversize and
    reports the reason of the first rule that matches: the rows printed are
    exactly the entries of the directory that are not directories, whose
    [Info] succeeded and for which some rule matches, each with the reason
    of its first matching rule; a row whose name matches the Temporary rule
    has reason Temporary whatever its age; an entry that matches no rule has
    no row; two names with the same lower-case form are classified alike. *)
Theorem cleanup_first_matching_rule_wins protected now age size fs response p st :
  snd (provideCleanupAdvice protected now age size fs response p) = Ok st ->
  exists files, ReadDir fs p = Ok files
    /\ (forall c, c ∈ rows st <->
          exists file info reason,
            file ∈ files /\ entryIsDir file = false /\ Info file = Ok info
            /\ firstMatch now age size (Name file) info = Some reason
            /\ c = mkCandidate (Name file) (Join p (Name file))
                     (Size info) (ModTime info) reason)
    /\ (forall c, c ∈ rows st ->
          reasonJustified now age size (cName c)
            (mkInfo (cSize c) (cModTime c) false) (cReason c))
    /\ (forall c, c ∈ rows st -> isTempFile (cName c) = true -> cReason c = Temporary)
    /\ (forall file info, file ∈ files -> Info file = Ok info ->
          (forall rule, ruleMatches now age size (Name file) info rule = false) ->
          forall c, c ∈ rows st ->
            ~ (cName c = Name file /\ cSize c = Size info /\ cModTime c = ModTime info))
    /\ (forall name1 name2 info,
          Strings.ToLower name1 = Strings.ToLower name2 ->
          firstMatch now age size name1 info = firstMatch now age size name2 info).
Proof.
  intros H. destruct (advise_rows _ _ _ _ _ _ _ _ H) as (files & Hrd & Hrows & _ & _).
  exists files. split; [exact Hrd |].
  assert (Hrow : forall c, c ∈ rows st <->
            exists file info reason,
              file ∈ files /\ entryIsDir file = false /\ Info file = Ok info
              /\ firstMatch now age size (Name file) info = Some reason
              /\ c = mkCandidate (Name file) (Join p (Name file))
                       (Size info) (ModTime info) reason).
  { intros c. rewrite Hrows, list_elem_of_omap. split.
    - intros (file & Hin & Hc). apply candidateOf_Some in Hc.
      destruct Hc as (info & reason & Hd & Hi & Hr & ->).
      exists file, info, reason. rewrite <- cleanupReason_firstMatch. auto.
    - intros (file & info & reason & Hin & Hd & Hi & Hr & ->).
      exists file. split; [exact Hin |]. apply candidateOf_Some.
      exists info, reason. rewrite cleanupReason_firstMatch. auto. }
  assert (Hjust : forall c, c ∈ rows st ->
            reasonJustified now age size (cName c)
              (mkInfo (cSize c) (cModTime c) false) (cReason c)).
  { intros c Hc. apply Hrow in Hc.
    destruct Hc as (file & info & reason & _ & _ & _ & Hr & ->). simpl.
    rewrite <- cleanupReason_firstMatch in Hr.
    apply cleanupReason_justified in Hr. destruct info. exact Hr. }
  repeat split.
  - apply Hrow.
  - apply Hrow.
  - exact Hjust.
  - intros c Hc Ht. specialize (Hjust c Hc). unfold reasonJustified in Hjust.
    destruct (cReason c); [reflexivity | | |];
      destruct Hjust as [Hf _]; congruence.
  - intros file info _ _ Hnone c Hc (Hn & Hs & Hm).
    specialize (Hjust c Hc).
    destruct (reasonJustified_matches now age size (cName c) info
                (mkInfo (cSize c) (cModTime c) false) _ Hs Hm Hjust)
      as [rule Hrule].
    rewrite Hn, Hnone in Hrule. discriminate.
  - intros name1 name2 info Hl.
    rewrite <- !cleanupReason_firstMatch. apply cleanupReason_case, Hl.
Qed.

Lemma cleanup_first_matching_rule_wins_witness :
  snd (provideCleanupAdvice unprotected exampleNow 90 100 exampleTree "n" []) = Ok exampleAdvice
  /\ forall c, c ∈ rows exampleAdvice -> isTempFile (cName c) = true ->
       cReason c = Temporary.
Proof.
  assert (H : snd (provideCleanupAdvice unprotected exampleNow 90 100 exampleTree "n" [])
              = Ok exampleAdvice) by (vm_compute; reflexivity).
  split; [exact H |].
  destruct (cleanup_first_matching_rule_wins unprotected exampleNow 90 100 exampleTree "n" []
              exampleAdvice H) as (files & _ & _ & _ & Htemp & _).
  exact Htemp.
Defined.

Lemma thresholds_default :
  ageThresholdDuration 90 = 90 * day /\ sizeThresholdBytes 100 = 100 * 1024 * 1024.
Proof. split; vm_compute; reflexivity. Qed.

(** A file that is at most 90 days old and at most 100 MB large matches
    neither the Stale nor the Oversize rule at the default thresholds. *)
Lemma cleanupReason_default_none now name info :
  isTempFile name = false -> isLogFile name = false ->
  now - ModTime info <= 90 * day -> minInt64 <= now - ModTime info ->
  Size info <= 100 * 1024 * 1024 ->
  cleanupReason now 90 100 name info = None.
Proof.
  intros Ht Hl Hage Hlo Hsize. unfold cleanupReason. rewrite Ht, Hl.
  destruct thresholds_default as [-> ->].
  assert (Hsub : Time.Sub now (ModTime info) = now - ModTime info).
  { unfold Time.Sub. destruct (Z.ltb_spec (now - ModTime info) minInt64); [lia |].
    destruct (Z.ltb_spec maxInt64 (now - ModTime info)); [| reflexivity].
    unfold maxInt64, half, day, Time.Hour in *. lia. }
  rewrite Hsub.
  destruct (Z.ltb_spec (90 * day) (now - ModTime info)); [lia |]. simpl.
  destruct (Z.ltb_spec (100 * 1024 * 1024) (Size info)); [lia | reflexivity].
Qed.

(** C5. A row for a file of size 0 never carries the reason Stale, however
    old the file is; in particular a file of size 0 whose name matches
    neither the Temporary nor the Log rule is never classified Stale.  With
    the thresholds 90 days and 100 MB, a file of 50 MB modified 10 days ago
    whose name matches neither name rule gets no reason, and no row of the
    advice is such a file. *)
Theorem cleanup_size_guard_and_thresholds protected now fs response p :
  (forall age size st,
      snd (provideCleanupAdvice protected now age size fs response p) = Ok st ->
      forall c, c ∈ rows st -> cSize c = 0 -> forall a, cReason c <> Stale a)
  /\ (forall age size name info,
        isTempFile name = false -> isLogFile name = false -> Size info = 0 ->
        forall a, cleanupReason now age size name info <> Some (Stale a))
  /\ (forall name info,
        isTempFile name = false -> isLogFile name = false ->
        Size info = 50 * 1024 * 1024 -> now - ModTime info = 10 * day ->
        cleanupReason now 90 100 name info = None)
  /\ (forall st,
        snd (provideCleanupAdvice protected now 90 100 fs response p) = Ok st ->
        forall c, c ∈ rows st ->
          isTempFile (cName c) = false -> isLogFile (cName c) = false ->
          ~ (cSize c = 50 * 1024 * 1024 /\ now - cModTime c = 10 * day)).
Proof.
  assert (Hzero : forall age size name info a,
             Size info = 0 ->
             cleanupReason now age size name info <> Some (Stale a)).
  { intros age size name info a Hs Hr.
    apply cleanupReason_justified in Hr. unfold reasonJustified in Hr.
    destruct Hr as (_ & _ & Hst & _). rewrite Hs in Hst.
    rewrite andb_false_r in Hst. discriminate. }
  assert (Hsmall : forall name info,
             isTempFile name = false -> isLogFile name = false ->
             Size info = 50 * 1024 * 1024 -> now - ModTime info = 10 * day ->
             cleanupReason now 90 100 name info = None).
  { intros name info Ht Hl Hs Hm.
    apply cleanupReason_default_none; try assumption;
      unfold minInt64, half, day, Time.Hour in *; lia. }
  repeat split.
  - intros age size st H c Hc Hs a Hr.
    destruct (advise_rows _ _ _ _ _ _ _ _ H) as (files & _ & Hrows & _).
    rewrite Hrows, list_elem_of_omap in Hc. destruct Hc as (file & _ & Hc).
    apply candidateOf_Some in Hc. destruct Hc as (info & reason & _ & _ & Hcr & ->).
    simpl in Hs, Hr. subst reason. exact (Hzero _ _ _ _ _ Hs Hcr).
  - intros age size name info _ _ Hs a. apply Hzero, Hs.
  - exact Hsmall.
  - intros st H c Hc Ht Hl [Hs Hm].
    destruct (advise_rows _ _ _ _ _ _ _ _ H) as (files & _ & Hrows & _).
    rewrite Hrows, list_elem_of_omap in Hc. destruct Hc as (file & _ & Hc).
    apply candidateOf_Some in Hc. destruct Hc as (info & reason & _ & _ & Hcr & ->).
    simpl in *. rewrite (Hsmall _ _ Ht Hl Hs Hm) in Hcr. discriminate.
Qed.

Lemma cleanup_size_guard_and_thresholds_witness :
  (forall c, c ∈ rows exampleAdvice -> cSize c = 0 -> forall a, cReason c <> Stale a)
  /\ cleanupReason exampleNow 90 100 "empty.dat" (mkInfo 0 0 false) = None
  /\ cleanupReason exampleNow 90 100 "data.bin"
       (mkInfo (50 * 1024 * 1024) (90 * day) false) = None.
Proof.
  destruct (cleanup_size_guard_and_thresholds unprotected exampleNow exampleTree "n" [])
    as (Hrows & _ & Hsmall & _).
  split; [| split].
  - apply (Hrows 90 100 exampleAdvice). vm_compute. reflexivity.
  - vm_compute. reflexivity.
  - apply Hsmall; vm_compute; reflexivity.
Defined.

(** C10. The cleanup advice reads one directory and nothing below it:
    every row is a non-directory entry of the root directory itself, the
    recommended paths are the root joined with one name (so no path that
    lies inside a subdirectory is ever recommended), the savings are the
    sum of the sizes of these rows, and two trees that differ only inside
    the subdirectories of the root get the same advice. *)
Theorem cleanup_reads_only_immediate_children protected now age size fs response p st :
  snd (provideCleanupAdvice protected now age size fs response p) = Ok st ->
  exists sz mt es,
    resolve fs p = Ok (Dir sz mt true es)
    /\ (forall c, c ∈ rows st ->
          exists name d,
            In (name, File (cSize c) (cModTime c) d) es
            /\ cName c = name /\ cPath c = p ++ [name])
    /\ recommendedFiles st = map cPath (rows st)
    /\ totalPotentialSavings st = wrap64 (sumZ (map cSize (rows st)))
    /\ (forall name q, q <> [] -> p ++ name :: q ∉ recommendedFiles st)
    /\ (forall protected' fs' response' sz' mt' es',
          resolve fs' p = Ok (Dir sz' mt' true es') ->
          map shallowEntry es' = map shallowEntry es ->
          snd (provideCleanupAdvice protected' now age size fs' response' p) = Ok st).
Proof.
  intros H. destruct (advise_rows _ _ _ _ _ _ _ _ H) as (files & Hrd & Hrows & Hrec & Htot).
  destruct (ReadDir_children _ _ _ Hrd) as (sz & mt & es & Hres & ->).
  exists sz, mt, es. split; [exact Hres |].
  assert (Hrow : forall c, c ∈ rows st ->
            exists name d,
              In (name, File (cSize c) (cModTime c) d) es
              /\ cName c = name /\ cPath c = p ++ [name]).
  { intros c Hc. rewrite Hrows, list_elem_of_omap in Hc.
    destruct Hc as (file & Hin & Hc). apply candidateOf_Some in Hc.
    destruct Hc as (info & reason & Hd & Hi & _ & ->).
    apply list_elem_of_fmap in Hin. destruct Hin as ([name c] & -> & Hin).
    destruct (dirEntry_file _ _ _ Hd Hi) as [d ->].
    exists name, d. simpl. repeat split. apply list_elem_of_In, Hin. }
  repeat split; try assumption.
  - intros name q Hq Hin. rewrite Hrec in Hin.
    apply list_elem_of_fmap in Hin. destruct Hin as (c & Hpath & Hc).
    destruct (Hrow c Hc) as (name' & d & _ & _ & Hp). rewrite Hp in Hpath.
    apply app_inv_head in Hpath. destruct q; [contradiction | discriminate].
  - intros protected' fs' response' sz' mt' es' Hres' Hsh.
    rewrite <- H. apply advise_depends_on_ReadDir.
    eapply ReadDir_shallow; eauto.
Qed.

Lemma cleanup_reads_only_immediate_children_witness :
  (["sub"; "x.log"]%string ∉ recommendedFiles exampleAdvice)
  /\ snd (provideCleanupAdvice unprotected exampleNow 90 100 exampleTree' "n" []) = Ok exampleAdvice.
Proof.
  destruct (cleanup_reads_only_immediate_children unprotected exampleNow 90 100 exampleTree "n" []
              exampleAdvice eq_refl)
    as (sz & mt & es & Hres & _ & _ & _ & Hdeep & Hframe).
  split.
  - apply (Hdeep "sub"%string ["x.log"%string]). discriminate.
  - injection Hres as <- <- <-.
    eapply Hframe; reflexivity.
Defined.

(** C1, as stated, fails: on a directory holding one temporary file, with
    the answer [y] at the prompt, the function removes the file. *)
Lemma cleanup_deletes_after_confirmation :
  let fs := Dir 4096 0 true [("old.tmp"%string, File 7 0 (blank 7))] in
  fst (provideCleanupAdvice unprotected exampleNow 90 100 fs "y" []) = Dir 4096 0 true []
  /\ fst (provideCleanupAdvice unprotected exampleNow 90 100 fs "y" []) <> fs
  /\ ~ (forall protected now age size fs response p,
          fst (provideCleanupAdvice protected now age size fs response p) = fs).
Proof.
  split; [vm_compute; reflexivity |].
  split; [vm_compute; discriminate |].
  intros H.
  specialize (H unprotected exampleNow 90 100
                (Dir 4096 0 true [("old.tmp"%string, File 7 0 (blank 7))])
                "y"%string []).
  vm_compute in H. discriminate.
Qed.

(** C1, amended.  The filesystem is left as it was when the directory
    cannot be read, when nothing is recommended, and when the word typed at
    the prompt is not [y] or [yes] in some capitalisation.  When it is, the
    recommended paths are removed one by one ([os.Remove] is called on
    each, and a removal that fails is skipped), and every path that is
    neither one of them nor above or below one of them still resolves to
    what it did. *)
Theorem cleanup_changes_only_on_confirmation protected now age size fs response p :
  (confirmed response = false ->
     fst (provideCleanupAdvice protected now age size fs response p) = fs)
  /\ (isErr (snd (provideCleanupAdvice protected now age size fs response p)) = true ->
        fst (provideCleanupAdvice protected now age size fs response p) = fs)
  /\ (forall st,
        snd (provideCleanupAdvice protected now age size fs response p) = Ok st ->
        recommendedFiles st = [] ->
        fst (provideCleanupAdvice protected now age size fs response p) = fs)
  /\ (forall st,
        snd (provideCleanupAdvice protected now age size fs response p) = Ok st ->
        recommendedFiles st <> [] -> confirmed response = true ->
        fst (provideCleanupAdvice protected now age size fs response p)
          = removeAll protected fs (recommendedFiles st))
  /\ (forall st q,
        snd (provideCleanupAdvice protected now age size fs response p) = Ok st ->
        (forall f, f ∈ recommendedFiles st -> ~ f `prefix_of` q /\ ~ q `prefix_of` f) ->
        resolve (fst (provideCleanupAdvice protected now age size fs response p)) q
          = resolve fs q).
Proof.
  unfold provideCleanupAdvice.
  destruct (ReadDir fs p) as [files | e]; simpl.
  2: { repeat split; intros; try reflexivity; discriminate. }
  set (st0 := fold_left (adviseEntry now age size p) files (mkAdvice [] 0 [])).
  case_bool_decide as Hlen; simpl.
  - apply length_zero_iff_nil in Hlen.
    repeat split; intros; try reflexivity; try discriminate.
    match goal with H : Ok _ = Ok _ |- _ => injection H as <- end. contradiction.
  - destruct (confirmed response) eqn:Hc; simpl.
    + repeat split; intros; try discriminate.
      * match goal with H : Ok _ = Ok _ |- _ => injection H as <- end.
        match goal with H : recommendedFiles st0 = [] |- _ => rewrite H in Hlen end.
        contradiction Hlen. reflexivity.
      * match goal with H : Ok _ = Ok _ |- _ => injection H as <- end. reflexivity.
      * match goal with H : Ok _ = Ok _ |- _ => injection H as <- end.
        apply removeAll_resolve_other. assumption.
    + repeat split; intros; try reflexivity; discriminate.
Qed.

Lemma cleanup_changes_only_on_confirmation_witness :
  fst (provideCleanupAdvice unprotected exampleNow 90 100 exampleTree "no" []) = exampleTree
  /\ resolve (fst (provideCleanupAdvice unprotected exampleNow 90 100 exampleTree "YES" []))
       ["sub"; "x.log"]%string
     = Ok (File 9 0 (blank 9)).
Proof.
  destruct (cleanup_changes_only_on_confirmation unprotected exampleNow 90 100 exampleTree
              "no" []) as (Hno & _).
  destruct (cleanup_changes_only_on_confirmation unprotected exampleNow 90 100 exampleTree
              "YES" []) as (_ & _ & _ & _ & Hkeep).
  split.
  - apply Hno. reflexivity.
  - rewrite (Hkeep exampleAdvice); [reflexivity | reflexivity |].
    intros f Hf. split; intros [k Hk];
      vm_compute in Hf; repeat (apply elem_of_cons in Hf as [-> | Hf]);
      try discriminate; try (apply elem_of_nil in Hf; contradiction).
Defined.

(* ===================================================================== *)
(** * Properties of [filepath.Walk] *)
(* ===================================================================== *)

Lemma located_snoc n0 q sz mt r es name c :
  located n0 q (Dir sz mt r es) -> In (name, c) es -> located n0 (q ++ [name]) c.
Proof.
  intros H Hin. remember (Dir sz mt r es) as d eqn:Hd.
  induction H as [n | sz' mt' r' es' name' c' q n Hin' H IH]; subst.
  - simpl. econstructor; [exact Hin | constructor].
  - simpl. econstructor; [exact Hin' | apply IH; reflexivity].
Qed.

Lemma located_app n0 q1 n1 q2 n2 :
  located n0 q1 n1 -> located n1 q2 n2 -> located n0 (q1 ++ q2) n2.
Proof.
  induction 1 as [n | sz mt r es name c q n Hin H IH]; intros H2; simpl.
  - exact H2.
  - econstructor; [exact Hin | apply IH, H2].
Qed.

Lemma resolve_located p : forall fs n, resolve fs p = Ok n -> located fs p n.
Proof.
  induction p as [| name q IH]; intros fs n; simpl.
  - intros [= ->]. constructor.
  - destruct fs as [| sz mt r es |]; try discriminate.
    destruct (lookupEntry name es) as [c |] eqn:Hc; [| discriminate].
    intros H. econstructor; [apply lookupEntry_In, Hc | apply IH, H].
Qed.

Section WalkInvariant.

Context {St : Type}.
Variable walkFn : @WalkFunc St.
Variable Inv : St -> Prop.
Variable n0 : node.
Variable root : path.

(** Every call of the callback is about a node of the tree, with the
    arguments of that node. *)
Hypothesis callback_keeps :
  forall q c s, located n0 q c -> Inv s ->
    Inv (fst (walkFn (root ++ q) (fst (callOf c)) (snd (callOf c)) s)).

Lemma walk_invariant n : forall q s,
  located n0 q n -> Inv s -> Inv (fst (walk walkFn (root ++ q) n s)).
Proof.
  induction n as [sz mt d | sz mt r es IH | b] using node_ind'; intros q s Hloc Hs.
  - exact (callback_keeps q _ s Hloc Hs).
  - simpl. pose proof (callback_keeps q _ s Hloc Hs) as H1. simpl in H1.
    destruct (walkFn (root ++ q) (Some (mkInfo sz mt true))
                (if r then None else Some ErrPermission) s) as [s1 err1].
    simpl in H1. destruct (negb r || bool_decide (err1 <> None)); [exact H1 |].
    assert (Hes : forall l, (forall e, In e l -> In e es) -> forall s,
               Inv s -> Inv (fst (walkEntries walkFn (walk walkFn) (root ++ q) l s))).
    { clear s Hs s1 err1 H1. intros l. induction l as [| [name c] l IHl]; intros Hsub s Hs.
      - exact Hs.
      - assert (Hin : In (name, c) es) by (apply Hsub; left; reflexivity).
        assert (Hloc' : located n0 (q ++ [name]) c) by (eapply located_snoc; eauto).
        assert (Hsub' : forall e, In e l -> In e es) by (intros e He; apply Hsub; right; exact He).
        simpl. unfold Join. rewrite <- app_assoc.
        destruct (infoOf c) as [fileInfo | e] eqn:Hinfo.
        + rewrite Forall_forall in IH.
          pose proof (IH (name, c) ltac:(apply list_elem_of_In; exact Hin)
                        (q ++ [name]) s Hloc' Hs) as Hw.
          simpl in Hw.
          destruct (walk walkFn (root ++ q ++ [name]) c s) as [s' r'].
          simpl in Hw. destruct r' as [e' |]; [| apply IHl; assumption].
          destruct (negb (IsDir fileInfo) || bool_decide (e' <> SkipDir));
            [exact Hw | apply IHl; assumption].
        + pose proof (callback_keeps (q ++ [name]) c s Hloc' Hs) as Hc.
          destruct c as [| |]; try discriminate. simpl in Hc, Hinfo.
          injection Hinfo as <-.
          destruct (walkFn (root ++ q ++ [name]) None (Some ErrPermission) s)
            as [s' r'].
          simpl in Hc. destruct r' as [e' |]; [| apply IHl; assumption].
          destruct (decide (e' = SkipDir)); [apply IHl; assumption | exact Hc]. }
    apply Hes; auto.
  - exact (callback_keeps q _ s Hloc Hs).
Qed.

End WalkInvariant.

(** The invariant through [filepath.Walk]: the callback is also called
    once, with the error of [Lstat], when the root cannot be reached. *)
Lemma Walk_invariant {St} (walkFn : @WalkFunc St) (Inv : St -> Prop) fs root s :
  (forall n0 q c s, resolve fs root = Ok n0 -> located n0 q c -> Inv s ->
      Inv (fst (walkFn (root ++ q) (fst (callOf c)) (snd (callOf c)) s))) ->
  (forall e s, Inv s -> Inv (fst (walkFn root None (Some e) s))) ->
  Inv s -> Inv (fst (Walk walkFn fs root s)).
Proof.
  intros Hcall Herr Hs. unfold Walk.
  assert (H : Inv (fst match resolve fs root with
                       | Err e => walkFn root None (Some e) s
                       | Ok n =>
                           match infoOf n with
                           | Err e => walkFn root None (Some e) s
                           | Ok _ => walk walkFn root n s
                           end
                       end)).
  { destruct (resolve fs root) as [n |] eqn:Hres; [| apply Herr, Hs].
    destruct (infoOf n); [| apply Herr, Hs].
    rewrite <- (app_nil_r root).
    apply (walk_invariant walkFn Inv n root); [| constructor | exact Hs].
    intros q c s' Hloc Hs'. apply (Hcall n); first [assumption | reflexivity]. }
  destruct (match resolve fs root with Err e => _ | Ok n => _ end) as [s' err].
  simpl in H. destruct err as [[| | | | |] |]; exact H.
Qed.

Section WalkQuiet.

Context {St : Type}.
Variable walkFn : @WalkFunc St.

(** A callback that never returns an error and does nothing when it is
    handed an error or a directory. *)
Hypothesis quiet_err : forall p i e s, walkFn p i (Some e) s = (s, None).
Hypothesis quiet_dir :
  forall p i s, IsDir i = true -> walkFn p (Some i) None s = (s, None).
Hypothesis quiet_file : forall p i s, snd (walkFn p (Some i) None s) = None.

Lemma walk_quiet n : forall p s,
  walk walkFn p n s = (fold_left (onFile walkFn) (reachable p n) s, None).
Proof.
  induction n as [sz mt d | sz mt r es IH | b] using node_ind'; intros p s.
  - simpl. unfold onFile. simpl.
    rewrite (surjective_pairing (walkFn p _ None s)) at 1.
    rewrite quiet_file. reflexivity.
  - simpl. destruct r; simpl.
    + rewrite quiet_dir by reflexivity. simpl.
      revert s. induction es as [| [name c] l IHl]; intros s; [reflexivity |].
      apply Forall_cons in IH as [Hc Hl]. simpl in Hc.
      simpl. rewrite fold_left_app.
      destruct (infoOf c) as [fileInfo | e] eqn:Hinfo.
      * rewrite Hc. apply IHl, Hl.
      * rewrite quiet_err. destruct c; try discriminate. simpl. apply IHl, Hl.
    + rewrite quiet_err. reflexivity.
  - simpl. apply quiet_err.
Qed.

Lemma Walk_quiet fs root s :
  Walk walkFn fs root s = (fold_left (onFile walkFn) (walkedFiles fs root) s, None).
Proof.
  unfold Walk, walkedFiles.
  destruct (resolve fs root) as [n |]; [| rewrite quiet_err; reflexivity].
  destruct (infoOf n) eqn:Hinfo.
  - rewrite walk_quiet. reflexivity.
  - rewrite quiet_err. destruct n; try discriminate. reflexivity.
Qed.

End WalkQuiet.

(* ===================================================================== *)
(** * Properties of [sort.Slice] and of map sums *)
(* ===================================================================== *)

Section SortFacts.

Context {A : Type}.
Variable less : A -> A -> bool.

Lemma insertLess_perm x l : insertLess less x l ≡ₚ x :: l.
Proof.
  induction l as [| y l IH]; simpl; [reflexivity |].
  destruct (less x y); [reflexivity |].
  rewrite IH. apply Permutation_swap.
Qed.

Lemma sortSlice_perm l : sortSlice less l ≡ₚ l.
Proof.
  unfold sortSlice.
  assert (H : forall acc, fold_left (fun acc x => insertLess less x acc) l acc ≡ₚ acc ++ l).
  { induction l as [| x l IH]; intros acc; simpl.
    - rewrite app_nil_r. reflexivity.
    - rewrite IH, insertLess_perm. simpl. apply Permutation_middle. }
  apply (H []).
Qed.

End SortFacts.

Lemma insertLess_descending {K} (x : K * Z) l :
  descending l -> descending (insertLess bySizeDesc x l).
Proof.
  unfold descending. induction 1 as [| y l Hl IH Hy]; simpl.
  - repeat constructor.
  - unfold bySizeDesc at 1. destruct (Z.ltb_spec (snd y) (snd x)) as [Hlt | Hge].
    + constructor; [constructor; assumption |].
      constructor; [lia |].
      eapply Forall_impl; [exact Hy |]. simpl. intros z Hz. lia.
    + constructor; [exact IH |].
      rewrite (insertLess_perm bySizeDesc x l). constructor; [exact Hge | exact Hy].
Qed.

Lemma sortSlice_descending {K} (l : list (K * Z)) :
  descending (sortSlice bySizeDesc l).
Proof.
  unfold sortSlice.
  assert (H : forall acc, descending acc ->
                descending (fold_left (fun acc x => insertLess bySizeDesc x acc) l acc)).
  { induction l as [| x l IH]; intros acc Hacc; simpl; [exact Hacc |].
    apply IH, insertLess_descending, Hacc. }
  apply H. constructor.
Qed.


Section SumMap.

Context `{Countable K}.

Lemma sumMap_empty : @sumMap K _ _ ∅ = 0.
Proof. unfold sumMap. rewrite map_to_list_empty. reflexivity. Qed.

Lemma sumMap_insert_fresh (m : gmap K Z) k v :
  m !! k = None -> sumMap (<[k := v]> m) = v + sumMap m.
Proof.
  intros Hk. unfold sumMap.
  rewrite (sumZ_perm _ (map snd ((k, v) :: map_to_list m))).
  - reflexivity.
  - apply Permutation_map, map_to_list_insert, Hk.
Qed.

Lemma sumMap_insert (m : gmap K Z) k v :
  sumMap (<[k := v]> m) = sumMap m - default 0 (m !! k) + v.
Proof.
  destruct (m !! k) as [d |] eqn:Hk; simpl.
  - rewrite <- (insert_delete_eq m k v).
    rewrite <- (insert_id m k d Hk) at 2.
    rewrite <- (insert_delete_eq m k d).
    rewrite !sumMap_insert_fresh by apply lookup_delete_eq. lia.
  - rewrite sumMap_insert_fresh by exact Hk. lia.
Qed.

Lemma sumMap_lookup_le (m : gmap K Z) k :
  map_Forall (fun _ v => 0 <= v) m -> 0 <= default 0 (m !! k) <= sumMap m.
Proof.
  intros Hm.
  assert (Hnn : forall m' : gmap K Z, map_Forall (fun _ v => 0 <= v) m' -> 0 <= sumMap m').
  { intros m' Hm'. unfold sumMap. apply sumZ_nonneg.
    apply Forall_forall. intros v Hv. apply list_elem_of_fmap in Hv.
    destruct Hv as ([k' v'] & -> & Hin). apply elem_of_map_to_list in Hin.
    exact (Hm' k' v' Hin). }
  destruct (m !! k) as [d |] eqn:Hk; simpl.
  - split; [exact (Hm k d Hk) |].
    rewrite <- (insert_id m k d Hk) at 1.
    rewrite <- (insert_delete_eq m k d).
    rewrite sumMap_insert_fresh by apply lookup_delete_eq.
    assert (0 <= sumMap (delete k m)); [| lia].
    apply Hnn. intros k' v' Hk'. apply lookup_delete_Some in Hk' as [_ Hk'].
    exact (Hm k' v' Hk').
  - split; [lia | apply Hnn, Hm].
Qed.

Lemma sumMap_range (o : MapOrder K Z) (m : gmap K Z) :
  sumZ (map snd (range o m)) = sumMap m.
Proof. unfold sumMap. apply sumZ_perm, Permutation_map, range_perm. Qed.

End SumMap.

(* ===================================================================== *)
(** * Properties of [analyzeDiskUsage] *)
(* ===================================================================== *)

Lemma reachable_IsDir n : forall p f, f ∈ reachable p n -> IsDir (snd f) = false.
Proof.
  induction n as [sz mt d | sz mt r es IH | b] using node_ind'; intros p f; simpl.
  - intros Hf. apply list_elem_of_singleton in Hf. subst f. reflexivity.
  - destruct r; [| intros Hf; inversion Hf].
    induction es as [| [name c] l IHl]; simpl; [intros Hf; inversion Hf |].
    apply Forall_cons in IH as [Hc Hl]. rewrite elem_of_app. intros [Hf | Hf].
    + exact (Hc _ _ Hf).
    + exact (IHl Hl Hf).
  - intros Hf. inversion Hf.
Qed.

Lemma walkedFiles_IsDir fs p : Forall (fun f => IsDir (snd f) = false) (walkedFiles fs p).
Proof.
  apply Forall_forall. intros f. unfold walkedFiles.
  destruct (resolve fs p); [apply reachable_IsDir | intros Hf; inversion Hf].
Qed.

Lemma collectUsage_quiet_err absPath p i e s :
  collectUsage absPath p i (Some e) s = (s, None).
Proof. reflexivity. Qed.

Lemma collectUsage_quiet_dir absPath p i s :
  IsDir i = true -> collectUsage absPath p (Some i) None s = (s, None).
Proof. intros Hd. unfold collectUsage. rewrite Hd. case_bool_decide; reflexivity. Qed.

Lemma collectUsage_quiet_file absPath p i s :
  snd (collectUsage absPath p (Some i) None s) = None.
Proof. unfold collectUsage. case_bool_decide; [| destruct (IsDir i)]; reflexivity. Qed.

Lemma usage_fold_counted absPath l : forall st,
  Forall (fun f => IsDir (snd f) = false) l ->
  fold_left (onFile (collectUsage absPath)) l st
    = fold_left addFile (filter (fun f => fst f <> absPath) l) st.
Proof.
  induction l as [| f l IH]; intros st Hl; [reflexivity |].
  apply Forall_cons in Hl as [Hf Hl]. simpl. rewrite IH by exact Hl.
  rewrite filter_cons. unfold onFile at 1, collectUsage.
  destruct (decide (fst f <> absPath)) as [Hne | Heq].
  - rewrite bool_decide_false by exact Hne. rewrite Hf. reflexivity.
  - rewrite bool_decide_true by (destruct (decide (fst f = absPath)); tauto).
    reflexivity.
Qed.

Lemma analyzeDiskUsage_eq typeOrder dirOrder fs p :
  analyzeDiskUsage typeOrder dirOrder fs p =
    let st := usageState fs p in
    let dirs := sortSlice bySizeDesc (range dirOrder (dirStats st)) in
    Ok (mkUsageReport (sortSlice bySizeDesc (range typeOrder (typeStats st)))
          dirs (take 10 dirs) (totalSize st)).
Proof.
  unfold analyzeDiskUsage.
  rewrite (Walk_quiet (collectUsage p) (collectUsage_quiet_err p)
             (collectUsage_quiet_dir p) (collectUsage_quiet_file p)).
  rewrite usage_fold_counted by apply walkedFiles_IsDir. reflexivity.
Qed.

(** Sums modulo the word size: the three accumulators agree after any
    sequence of files. *)
Lemma addFile_fold_mod l : forall st,
  let st' := fold_left addFile l st in
  let total := sumZ (map (fun f => Size (snd f)) l) in
  wrap64 (sumMap (typeStats st')) = wrap64 (sumMap (typeStats st) + total)
  /\ wrap64 (sumMap (dirStats st')) = wrap64 (sumMap (dirStats st) + total)
  /\ wrap64 (totalSize st') = wrap64 (totalSize st + total).
Proof.
  induction l as [| f l IH]; intros st; simpl.
  - rewrite !Z.add_0_r. auto.
  - destruct (IH (addFile st f)) as (Ht & Hd & Hs). simpl in Ht, Hd, Hs.
    rewrite Ht, Hd, Hs. unfold addFile; simpl. rewrite !sumMap_insert.
    unfold add64. repeat split.
    + match goal with |- wrap64 (?a - ?d + wrap64 (?d + ?x) + ?t) = _ =>
        replace (a - d + wrap64 (d + x) + t) with ((a - d + t) + wrap64 (d + x)) by lia
      end.
      rewrite wrap64_add_r. f_equal. unfold sumZ. lia.
    + match goal with |- wrap64 (?a - ?d + wrap64 (?d + ?x) + ?t) = _ =>
        replace (a - d + wrap64 (d + x) + t) with ((a - d + t) + wrap64 (d + x)) by lia
      end.
      rewrite wrap64_add_r. f_equal. unfold sumZ. lia.
    + rewrite wrap64_add_l. f_equal. unfold sumZ. lia.
Qed.

Lemma addFile_fold_range l : forall st,
  inRange (totalSize st) -> inRange (totalSize (fold_left addFile l st)).
Proof.
  induction l as [| f l IH]; intros st Hst; simpl; [exact Hst |].
  apply IH. apply wrap64_range.
Qed.

(** Exact sums, when sizes are not negative and their sum fits a word. *)
Lemma addFile_fold_exact l : forall st,
  Forall (fun f => 0 <= Size (snd f)) l ->
  map_Forall (fun _ v => 0 <= v) (typeStats st) ->
  map_Forall (fun _ v => 0 <= v) (dirStats st) ->
  sumMap (typeStats st) = totalSize st ->
  sumMap (dirStats st) = totalSize st ->
  0 <= totalSize st ->
  totalSize st + sumZ (map (fun f => Size (snd f)) l) <= maxInt64 ->
  let st' := fold_left addFile l st in
  sumMap (typeStats st') = totalSize st'
  /\ sumMap (dirStats st') = totalSize st'
  /\ totalSize st' = totalSize st + sumZ (map (fun f => Size (snd f)) l).
Proof.
  induction l as [| f l IH]; intros st Hl Hts Hds Hst Hsd H0 Hmax; simpl.
  - unfold sumZ. simpl. rewrite Z.add_0_r. auto.
  - apply Forall_cons in Hl as [Hf Hl]. simpl in Hf, Hmax.
    assert (Hrest : 0 <= sumZ (map (fun f => Size (snd f)) l)).
    { apply sumZ_nonneg. apply Forall_forall. intros v Hv.
      apply list_elem_of_fmap in Hv. destruct Hv as (g & -> & Hg).
      rewrite Forall_forall in Hl. exact (Hl g Hg). }
    change (sumZ (Size (snd f) :: map (fun f => Size (snd f)) l))
      with (Size (snd f) + sumZ (map (fun f => Size (snd f)) l)) in Hmax.
    assert (Hsmall : forall d, 0 <= d <= totalSize st ->
               add64 d (Size (snd f)) = d + Size (snd f)).
    { intros d Hd. apply wrap64_small.
      unfold inRange, minInt64, maxInt64, half in *. lia. }
    set (ext := let e := Strings.ToLower (Ext (List.last (fst f) EmptyString)) in
                if bool_decide (e = EmptyString) then "[no extension]"%string else e).
    pose proof (sumMap_lookup_le (typeStats st) ext Hts) as Hte.
    pose proof (sumMap_lookup_le (dirStats st) (Dir_of (fst f)) Hds) as Hde.
    rewrite Hst in Hte. rewrite Hsd in Hde.
    assert (Hadd : addFile st f =
              mkUsage
                (<[ext := default 0 (typeStats st !! ext) + Size (snd f)]> (typeStats st))
                (<[Dir_of (fst f) :=
                     default 0 (dirStats st !! Dir_of (fst f)) + Size (snd f)]>
                   (dirStats st))
                (totalSize st + Size (snd f))).
    { unfold addFile. fold ext. rewrite !Hsmall by (try assumption; lia). reflexivity. }
    rewrite Hadd.
    match goal with |- context [fold_left addFile l ?s] => specialize (IH s) end.
    simpl in IH.
    destruct IH as (Ht & Hd & Hs); try assumption.
    + apply map_Forall_insert_2; [lia | exact Hts].
    + apply map_Forall_insert_2; [lia | exact Hds].
    + rewrite sumMap_insert. lia.
    + rewrite sumMap_insert. lia.
    + lia.
    + lia.
    + rewrite Ht, Hd, Hs. unfold sumZ. simpl. repeat split; lia.
Qed.

(** C6. For every tree, every root and every iteration order of the two
    maps, [analyzeDiskUsage] succeeds, and the byte totals of the type
    table, the byte totals of the directory table (before it is cut to ten
    rows for display) and the total size all add up to the same number:
    the sum, in 64-bit arithmetic, of the sizes of the files the walk
    reaches, directories contributing nothing and the root itself left
    out.  When no size is negative and the sizes add up to at most the
    largest [int64], the three sums are equal as integers. *)
Theorem usage_conservation typeOrder dirOrder fs p :
  exists r,
    analyzeDiskUsage typeOrder dirOrder fs p = Ok r
    /\ wrap64 (sumZ (map snd (typeStatsList r))) = reportTotal r
    /\ wrap64 (sumZ (map snd (dirStatsList r))) = reportTotal r
    /\ reportTotal r = wrap64 (sumZ (countedSizes fs p))
    /\ (Forall (fun z => 0 <= z) (countedSizes fs p) ->
        sumZ (countedSizes fs p) <= maxInt64 ->
        sumZ (map snd (typeStatsList r)) = reportTotal r
        /\ sumZ (map snd (dirStatsList r)) = reportTotal r
        /\ reportTotal r = sumZ (countedSizes fs p)).
Proof.
  rewrite analyzeDiskUsage_eq. cbv zeta. eexists. split; [reflexivity |]. simpl.
  rewrite !(sumZ_perm _ _ (Permutation_map snd (sortSlice_perm bySizeDesc _))).
  rewrite !sumMap_range.
  unfold usageState, countedSizes.
  destruct (addFile_fold_mod (countedFiles fs p) (mkUsage ∅ ∅ 0)) as (Ht & Hd & Hs).
  simpl in Ht, Hd, Hs.
  pose proof (sumMap_empty (K:=string)) as E1. pose proof (sumMap_empty (K:=path)) as E2.
  rewrite E1 in Ht. rewrite E2 in Hd. clear E1 E2.
  rewrite Z.add_0_l in Ht, Hd, Hs.
  assert (Hr : inRange (totalSize (fold_left addFile (countedFiles fs p) (mkUsage ∅ ∅ 0)))).
  { apply addFile_fold_range. simpl. unfold inRange, minInt64, maxInt64, half. lia. }
  rewrite (wrap64_small _ Hr) in Hs.
  split; [rewrite Ht, Hs; reflexivity |].
  split; [rewrite Hd, Hs; reflexivity |].
  split; [exact Hs |].
  intros Hnn Hmax.
  destruct (addFile_fold_exact (countedFiles fs p) (mkUsage ∅ ∅ 0))
    as (Ht' & Hd' & Hs'); simpl.
  - apply Forall_forall. intros f Hf. rewrite Forall_forall in Hnn.
    apply Hnn. apply list_elem_of_fmap. eauto.
  - apply map_Forall_empty.
  - apply map_Forall_empty.
  - apply sumMap_empty.
  - apply sumMap_empty.
  - lia.
  - lia.
  - simpl in Ht', Hd', Hs'. rewrite Ht', Hd', Hs'. repeat split; lia.
Qed.

Lemma usage_conservation_witness :
  exists r,
    analyzeDiskUsage forwardOrder backwardOrder exampleTree [] = Ok r
    /\ sumZ (map snd (typeStatsList r)) = 26
    /\ sumZ (map snd (dirStatsList r)) = 26
    /\ reportTotal r = 26.
Proof.
  destruct (usage_conservation forwardOrder backwardOrder exampleTree [])
    as (r & Hr & _ & _ & _ & Hexact).
  exists r. split; [exact Hr |].
  assert (Hsizes : countedSizes exampleTree [] = [5; 5; 7; 0; 9]) by reflexivity.
  rewrite Hsizes in Hexact.
  destruct Hexact as (Ht & Hd & Hs).
  - repeat constructor; lia.
  - vm_compute. discriminate.
  - rewrite Ht, Hd, Hs. repeat split.
Defined.

(** With more than ten directories the rows that are displayed no longer
    add up to the total: the conservation is one of the full table. *)
Example shownDirs_truncated :
  let file := File 1 0 (blank 1) in
  let sub := Dir 4096 0 true [("f"%string, file)] in
  let fs :=
    Dir 4096 0 true
      (map (fun name => (name, sub))
         ["d00"; "d01"; "d02"; "d03"; "d04"; "d05"; "d06"; "d07"; "d08"; "d09";
          "d10"]%string) in
  forall r, analyzeDiskUsage forwardOrder forwardOrder fs [] = Ok r ->
    sumZ (map snd (shownDirs r)) = 10 /\ reportTotal r = 11.
Proof. intros file sub fs r. vm_compute. intros [= <-]. split; reflexivity. Qed.







(** With eleven directories of the same total, which ten are displayed
    depends on the order in which the runtime enumerates the map of
    directory totals: [d00] is displayed in one run and not in the other,
    [d09] the other way round, and the column of totals is the same. *)
Example shown_rows_depend_on_map_iteration :
  exists r1 r2,
    analyzeDiskUsage forwardOrder forwardOrder elevenDirs [] = Ok r1
    /\ analyzeDiskUsage forwardOrder backwardOrder elevenDirs [] = Ok r2
    /\ map fst (shownDirs r1)
       = [["d09"]; ["d08"]; ["d07"]; ["d06"]; ["d05"]; ["d04"]; ["d03"]; ["d02"];
          ["d01"]; ["d10"]]%string
    /\ map fst (shownDirs r2)
       = [["d00"]; ["d10"]; ["d01"]; ["d02"]; ["d03"]; ["d04"]; ["d05"]; ["d06"];
          ["d07"]; ["d08"]]%string
    /\ map snd (shownDirs r1) = map snd (shownDirs r2).
Proof.
  rewrite !analyzeDiskUsage_eq. cbv zeta. do 2 eexists.
  split; [reflexivity |]. split; [reflexivity |].
  split; [vm_compute; reflexivity |]. split; vm_compute; reflexivity.
Qed.

(* ===================================================================== *)
(** * Errors of the root, errors below the root *)
(* ===================================================================== *)

(** [analyzeDiskUsage] never returns an error. *)
Lemma analyzeDiskUsage_never_fails typeOrder dirOrder fs p :
  isErr (analyzeDiskUsage typeOrder dirOrder fs p) = false.
Proof. rewrite analyzeDiskUsage_eq. reflexivity. Qed.

Lemma range_empty `{Countable K} {V} (o : MapOrder K V) : range o ∅ = [].
Proof.
  apply Permutation_nil_r. rewrite range_perm, map_to_list_empty. reflexivity.
Qed.

(** On a root that cannot be reached it reports an empty directory. *)
Lemma analyzeDiskUsage_missing_root typeOrder dirOrder fs p e :
  resolve fs p = Err e ->
  analyzeDiskUsage typeOrder dirOrder fs p = Ok (mkUsageReport [] [] [] 0).
Proof.
  intros H. rewrite analyzeDiskUsage_eq. cbv zeta.
  unfold usageState, countedFiles, walkedFiles. rewrite H. simpl.
  rewrite !range_empty. reflexivity.
Qed.

(** Path resolution fails with an error of the filesystem, never with one
    of the sentinels of the walk. *)
Lemma resolve_error p : forall fs e,
  resolve fs p = Err e -> e = ErrNotExist \/ e = ErrNotDir \/ e = ErrPermission.
Proof.
  induction p as [| name q IH]; intros fs e; simpl; [discriminate |].
  destruct fs as [| sz mt r es |].
  - intros [= <-]. auto.
  - destruct (lookupEntry name es) as [c |]; [apply IH | intros [= <-]; auto].
  - intros [= <-]. auto.
Qed.

Lemma findDuplicateFiles_missing_root md5 sizeOrder groupOrder fs p e :
  resolve fs p = Err e ->
  findDuplicateFiles md5 sizeOrder groupOrder fs p = Err e.
Proof.
  intros H. unfold findDuplicateFiles, firstPass, Walk. rewrite H. simpl.
  destruct (resolve_error _ _ _ H) as [-> | [-> | ->]]; reflexivity.
Qed.

Lemma provideCleanupAdvice_missing_root protected now age size fs response p e :
  resolve fs p = Err e ->
  provideCleanupAdvice protected now age size fs response p = (fs, Err e).
Proof.
  intros H. apply advise_error. unfold ReadDir. rewrite H. reflexivity.
Qed.

(* ===================================================================== *)
(** * Properties of [findDuplicateFiles] *)
(* ===================================================================== *)

Lemma fold_left_invariant {A S : Type} (P : S -> Prop) (Q : A -> Prop)
  (f : S -> A -> S) l : forall s,
  (forall s a, Q a -> P s -> P (f s a)) -> Forall Q l -> P s -> P (fold_left f l s).
Proof.
  induction l as [| a l IH]; intros s Hstep Hl Hs; simpl; [exact Hs |].
  apply Forall_cons in Hl as [Ha Hl]. apply IH; auto.
Qed.

Lemma firstPass_sound fs p filesBySize :
  firstPass fs p = Ok filesBySize -> bucketsSound fs filesBySize.
Proof.
  unfold firstPass. intros H.
  assert (Hinv : bucketsSound fs (fst (Walk collectBySize fs p ∅))).
  { apply Walk_invariant.
    - intros n0 q c m Hres Hloc Hm.
      assert (Hfs : located fs (p ++ q) c).
      { eapply located_app; [apply resolve_located, Hres | exact Hloc]. }
      destruct c as [sz mt d | sz mt r es | b]; simpl.
      + intros size files f Hlook Hf.
        destruct (decide (sz = size)) as [-> | Hne].
        * rewrite lookup_insert_eq in Hlook. injection Hlook as <-.
          apply elem_of_app in Hf as [Hf | Hf].
          -- destruct (m !! size) as [old |] eqn:Hold; simpl in Hf.
             ++ exact (Hm size old f Hold Hf).
             ++ inversion Hf.
          -- apply list_elem_of_singleton in Hf. subst f. eauto.
        * rewrite lookup_insert_ne in Hlook by exact Hne.
          exact (Hm size files f Hlook Hf).
      + destruct r; exact Hm.
      + exact Hm.
    - intros e m Hm. exact Hm.
    - intros size files f Hlook. rewrite lookup_empty in Hlook. discriminate. }
  destruct (Walk collectBySize fs p ∅) as [m [e |]]; [discriminate |].
  injection H as <-. exact Hinv.
Qed.

Section DuplicateFacts.

Variable md5 : list Byte.byte -> string.
Variable sizeOrder : MapOrder Z (list path).
Variable groupOrder : MapOrder string (list path).
Variable fs : node.
Variable filesBySize : gmap Z (list path).

Lemma hashFile_sound st f : promoted filesBySize f -> hashSound md5 fs filesBySize st ->
  hashSound md5 fs filesBySize (hashFile md5 fs st f).
Proof.
  intros Hf [Hh Hg]. unfold hashFile.
  destruct (calculateMD5 md5 fs f) as [hash |] eqn:Hmd5; split; simpl.
  - intros f' Hf'. apply elem_of_app in Hf' as [Hf' | Hf']; [auto |].
    apply list_elem_of_singleton in Hf'. subst f'. exact Hf.
  - intros h files f' Hlook Hf'.
    destruct (decide (hash = h)) as [-> | Hne].
    + rewrite lookup_insert_eq in Hlook. injection Hlook as <-.
      apply elem_of_app in Hf' as [Hf' | Hf'].
      * destruct (duplicateGroups st !! h) as [old |] eqn:Hold; simpl in Hf'.
        -- exact (Hg h old f' Hold Hf').
        -- inversion Hf'.
      * apply list_elem_of_singleton in Hf'. subst f'. auto.
    + rewrite lookup_insert_ne in Hlook by exact Hne.
      exact (Hg h files f' Hlook Hf').
  - intros f' Hf'. apply elem_of_app in Hf' as [Hf' | Hf']; [auto |].
    apply list_elem_of_singleton in Hf'. subst f'. exact Hf.
  - exact Hg.
Qed.

Lemma hashBucket_sound st b :
  filesBySize !! fst b = Some (snd b) -> hashSound md5 fs filesBySize st ->
  hashSound md5 fs filesBySize (hashBucket md5 fs st b).
Proof.
  destruct b as [size files]. simpl. intros Hb Hst.
  case_bool_decide as Hlen; simpl; [| exact Hst].
  destruct (Z.ltb_spec 0 size) as [Hpos | _]; [| exact Hst].
  apply (fold_left_invariant (hashSound md5 fs filesBySize) (promoted filesBySize)); [| | exact Hst].
  - intros s f. apply hashFile_sound.
  - apply Forall_forall. intros f Hf. exists size, files. auto.
Qed.

Lemma secondPass_sound :
  hashSound md5 fs filesBySize (secondPass md5 sizeOrder fs filesBySize).
Proof.
  unfold secondPass.
  apply (fold_left_invariant (hashSound md5 fs filesBySize)
           (fun b => filesBySize !! fst b = Some (snd b))).
  - intros s b. apply hashBucket_sound.
  - apply Forall_forall. intros [size files] Hb.
    rewrite (range_perm sizeOrder filesBySize) in Hb.
    apply elem_of_map_to_list in Hb. exact Hb.
  - split; simpl.
    + intros f Hf. inversion Hf.
    + intros hash files f Hlook. rewrite lookup_empty in Hlook. discriminate.
Qed.

(** Every printed group is an entry of [duplicateGroups] with more than
    one file. *)
Lemma display_groups (groupsByHash : gmap string (list path)) g :
  g ∈ groups (display groupOrder fs groupsByHash) ->
  groupsByHash !! groupHash g = Some (groupFiles g)
  /\ (2 <= length (groupFiles g))%nat.
Proof.
  unfold display. revert g.
  apply (fold_left_invariant
           (fun r => forall g, g ∈ groups r ->
              groupsByHash !! groupHash g = Some (groupFiles g)
              /\ (2 <= length (groupFiles g))%nat)
           (fun b => groupsByHash !! fst b = Some (snd b))).
  - intros r [hash files] Hb Hr g. simpl in Hb. unfold displayGroup.
    case_bool_decide as Hlen; [| apply Hr].
    destruct files as [| file0 rest]; [apply Hr |].
    destruct (Stat fs file0) as [info |]; [| apply Hr].
    simpl. intros Hg. apply elem_of_app in Hg as [Hg | Hg]; [apply Hr, Hg |].
    apply list_elem_of_singleton in Hg. subst g. simpl in *. split; [exact Hb | lia].
  - apply Forall_forall. intros [hash files] Hb.
    rewrite (range_perm groupOrder groupsByHash) in Hb.
    apply elem_of_map_to_list in Hb. exact Hb.
  - simpl. intros g Hg. inversion Hg.
Qed.

End DuplicateFacts.

Lemma findDuplicateFiles_report md5 sizeOrder groupOrder fs p r :
  findDuplicateFiles md5 sizeOrder groupOrder fs p = Ok r ->
  exists filesBySize,
    firstPass fs p = Ok filesBySize
    /\ r = display groupOrder fs
             (duplicateGroups (secondPass md5 sizeOrder fs filesBySize)).
Proof.
  unfold findDuplicateFiles. destruct (firstPass fs p) as [m |]; [| discriminate].
  intros [= <-]. eauto.
Qed.

Example duplicatesTree_firstPass : firstPass duplicatesTree [] = Ok duplicatesBuckets.
Proof. vm_compute. reflexivity. Qed.

Example duplicatesTree_run :
  findDuplicateFiles contentDigest forwardOrder forwardOrder duplicatesTree [] =
    Ok (mkReport [mkGroup "xyz" [["a.txt"]; ["b.txt"]]%string 3] 1 3).
Proof. vm_compute. reflexivity. Qed.

(** C7. Whenever [findDuplicateFiles] returns a report, [calculateMD5] was
    called only on files of a size bucket with more than one member and a
    size greater than 0, and every group it printed is an entry of the
    digest map with at least two files, all of which were hashed. *)
Theorem duplicates_only_from_shared_buckets md5 sizeOrder groupOrder fs p r :
  findDuplicateFiles md5 sizeOrder groupOrder fs p = Ok r ->
  exists filesBySize,
    firstPass fs p = Ok filesBySize
    /\ (forall f, f ∈ hashed (secondPass md5 sizeOrder fs filesBySize) ->
          exists size files,
            filesBySize !! size = Some files /\ f ∈ files
            /\ (2 <= length files)%nat /\ 0 < size)
    /\ (forall g, g ∈ groups r ->
          duplicateGroups (secondPass md5 sizeOrder fs filesBySize) !! groupHash g
            = Some (groupFiles g)
          /\ (2 <= length (groupFiles g))%nat
          /\ forall f, f ∈ groupFiles g ->
               exists size files,
                 filesBySize !! size = Some files /\ f ∈ files
                 /\ (2 <= length files)%nat /\ 0 < size).
Proof.
  intros H. destruct (findDuplicateFiles_report _ _ _ _ _ _ H) as (m & Hm & ->).
  exists m. split; [exact Hm |].
  destruct (secondPass_sound md5 sizeOrder fs m) as [Hh Hg].
  split.
  - intros f Hf. destruct (Hh f Hf) as (size & files & ? & ? & ? & ?).
    exists size, files. repeat split; auto; lia.
  - intros g Hin. apply display_groups in Hin as [Hlook Hlen].
    split; [exact Hlook |]. split; [exact Hlen |].
    intros f Hf. destruct (Hg _ _ f Hlook Hf) as (_ & size & files & ? & ? & ? & ?).
    exists size, files. repeat split; auto; lia.
Qed.

Lemma duplicates_only_from_shared_buckets_witness :
  exists filesBySize,
    firstPass duplicatesTree [] = Ok filesBySize
    /\ forall f,
         f ∈ hashed (secondPass contentDigest forwardOrder duplicatesTree filesBySize) ->
         exists size files,
           filesBySize !! size = Some files /\ f ∈ files
           /\ (2 <= length files)%nat /\ 0 < size.
Proof.
  destruct (duplicates_only_from_shared_buckets contentDigest forwardOrder forwardOrder
              duplicatesTree [] _ duplicatesTree_run) as (m & Hm & Hh & _).
  exists m. split; [exact Hm | exact Hh].
Defined.

(** A digest without collisions on the files of the tree gives no common
    digest to files from buckets of different sizes, when the size of each
    file is the length of its content. *)
Lemma collision_free_digest_separates_sizes md5 fs (filesBySize : gmap Z (list path)) :
  (forall f1 f2 d1 d2,
      ReadFile fs f1 = Ok d1 -> ReadFile fs f2 = Ok d2 -> md5 d1 = md5 d2 -> d1 = d2) ->
  (forall size files f d,
      filesBySize !! size = Some files -> f ∈ files -> ReadFile fs f = Ok d ->
      Z.of_nat (length d) = size) ->
  forall size1 files1 f1 size2 files2 f2 hash,
    filesBySize !! size1 = Some files1 -> f1 ∈ files1 ->
    filesBySize !! size2 = Some files2 -> f2 ∈ files2 ->
    calculateMD5 md5 fs f1 = Ok hash -> calculateMD5 md5 fs f2 = Ok hash ->
    size1 = size2.
Proof.
  intros Hinj Hlen size1 files1 f1 size2 files2 f2 hash Hb1 Hf1 Hb2 Hf2.
  unfold calculateMD5.
  destruct (ReadFile fs f1) as [d1 |] eqn:Hd1; [| discriminate].
  destruct (ReadFile fs f2) as [d2 |] eqn:Hd2; [| discriminate].
  intros [= H1] [= H2].
  assert (d1 = d2) by (eapply Hinj; eauto; congruence). subst d2.
  rewrite <- (Hlen _ _ _ _ Hb1 Hf1 Hd1). exact (Hlen _ _ _ _ Hb2 Hf2 Hd2).
Qed.

(** As long as no two files taken from buckets of different sizes have the
    same digest, every printed group comes from one size bucket, one with
    more than one member and a size greater than 0: all its files are in
    that bucket, and each of them is a file of the tree whose size is the
    key of the bucket. *)
Theorem duplicate_groups_share_bucket_size md5 sizeOrder groupOrder fs p filesBySize r :
  firstPass fs p = Ok filesBySize ->
  findDuplicateFiles md5 sizeOrder groupOrder fs p = Ok r ->
  (forall size1 files1 f1 size2 files2 f2 hash,
      filesBySize !! size1 = Some files1 -> f1 ∈ files1 ->
      filesBySize !! size2 = Some files2 -> f2 ∈ files2 ->
      calculateMD5 md5 fs f1 = Ok hash -> calculateMD5 md5 fs f2 = Ok hash ->
      size1 = size2) ->
  forall g, g ∈ groups r ->
    exists size files,
      filesBySize !! size = Some files
      /\ (2 <= length files)%nat /\ 0 < size
      /\ forall f, f ∈ groupFiles g ->
           f ∈ files /\ exists mt d, located fs f (File size mt d).
Proof.
  intros Hfirst H Hcoll g Hin.
  destruct (findDuplicateFiles_report _ _ _ _ _ _ H) as (m & Hm & ->).
  rewrite Hfirst in Hm. injection Hm as <-.
  pose proof (firstPass_sound _ _ _ Hfirst) as Hsound.
  destruct (secondPass_sound md5 sizeOrder fs filesBySize) as [_ Hg].
  apply display_groups in Hin as [Hlook Hlen].
  destruct (groupFiles g) as [| f0 rest] eqn:Hfiles; [simpl in Hlen; lia |].
  destruct (Hg _ _ f0 Hlook ltac:(left)) as (Hh0 & size & files & Hb & Hf0 & Hl & Hpos).
  exists size, files. split; [exact Hb |]. split; [lia |]. split; [exact Hpos |].
  intros f Hf.
  destruct (Hg _ _ f Hlook Hf) as (Hh & size' & files' & Hb' & Hf' & _ & _).
  assert (size' = size) by (eapply Hcoll; eauto). subst size'.
  rewrite Hb in Hb'. injection Hb' as <-.
  split; [exact Hf' |]. exact (Hsound size files f Hb Hf').
Qed.

Lemma duplicate_groups_share_bucket_size_witness :
  exists size files,
    duplicatesBuckets !! size = Some files
    /\ (2 <= length files)%nat /\ 0 < size
    /\ forall f, f ∈ [["a.txt"]; ["b.txt"]]%string ->
         f ∈ files /\ exists mt d, located duplicatesTree f (File size mt d).
Proof.
  apply (duplicate_groups_share_bucket_size contentDigest forwardOrder forwardOrder
           duplicatesTree [] duplicatesBuckets _
           duplicatesTree_firstPass duplicatesTree_run)
    with (g := mkGroup "xyz" [["a.txt"]; ["b.txt"]]%string 3); [| left].
  intros size1 files1 f1 size2 files2 f2 hash Hb1 Hf1 Hb2 Hf2 Hh1 Hh2.
  unfold duplicatesBuckets in Hb1, Hb2.
  apply lookup_insert_Some in Hb1 as [[<- <-] | [_ Hb1]];
    apply lookup_insert_Some in Hb2 as [[<- <-] | [_ Hb2]];
    try apply lookup_singleton_Some in Hb1 as [<- <-];
    try apply lookup_singleton_Some in Hb2 as [<- <-];
    try reflexivity; exfalso;
    repeat (apply elem_of_cons in Hf1 as [-> | Hf1]);
    repeat (apply elem_of_cons in Hf2 as [-> | Hf2]);
    try (apply elem_of_nil in Hf1; contradiction);
    try (apply elem_of_nil in Hf2; contradiction);
    vm_compute in Hh1, Hh2; congruence.
Defined.

(** The digest matters: with a digest that maps every content to the same
    string (which MD5 does not), files of two buckets end up in one
    group. *)
Example colliding_digest_mixes_sizes :
  let fs :=
    Dir 4096 0 true
      [("a"%string, File 3 0 (blank 3)); ("b"%string, File 3 0 (blank 3));
       ("c"%string, File 5 0 (blank 5)); ("d"%string, File 5 0 (blank 5))] in
  map groupFiles
    (groups (display forwardOrder fs
               (duplicateGroups
                  (secondPass (fun _ => "0"%string) forwardOrder fs
                     (<[3 := [["a"]; ["b"]]%string]> {[5 := [["c"]; ["d"]]%string]})))))
  = [[["c"]; ["d"]; ["a"]; ["b"]]%string].
Proof. vm_compute. reflexivity. Qed.

(* ===================================================================== *)
(** * The two walks and the entries they cannot read *)
(* ===================================================================== *)

(** The callback of the first pass hands back the error it is given. *)
Lemma collectBySize_error p i err m : snd (collectBySize p i err m) = err.
Proof.
  unfold collectBySize. destruct err; [reflexivity |].
  destruct i as [i |]; [destruct (negb (IsDir i)) |]; reflexivity.
Qed.

Lemma walk_collect_error n : forall p m,
  snd (walk collectBySize p n m) = None
  \/ snd (walk collectBySize p n m) = Some ErrPermission.
Proof.
  induction n as [sz mt d | sz mt r es IH | b] using node_ind'; intros p m.
  - left. apply collectBySize_error.
  - simpl.
    pose proof (collectBySize_error p (Some (mkInfo sz mt true))
                  (if r then None else Some ErrPermission) m) as Hcb.
    destruct (collectBySize p _ _ m) as [m1 err1]. simpl in Hcb. subst err1.
    destruct r; simpl; [| right; reflexivity].
    revert m1. induction es as [| [name c] l IHl]; intros m1; [left; reflexivity |].
    apply Forall_cons in IH as [Hc Hl]. simpl in Hc. simpl.
    destruct (infoOf c) as [fileInfo | e] eqn:Hinfo.
    + specialize (Hc (Join p name) m1).
      destruct (walk collectBySize (Join p name) c m1) as [m' [e' |]]; simpl in Hc.
      * destruct Hc as [Hc | Hc]; [discriminate |]. injection Hc as ->.
        rewrite orb_true_r. right. reflexivity.
      * apply IHl, Hl.
    + destruct c; try discriminate. injection Hinfo as <-. right. reflexivity.
  - right. reflexivity.
Qed.

(** The first pass stops with the error as soon as it meets such an
    entry. *)
Lemma walk_collect_blocked n :
  blocked n -> forall p m, snd (walk collectBySize p n m) = Some ErrPermission.
Proof.
  induction 1 as [b | sz mt es | sz mt es name c Hin Hc IH]; intros p m;
    try reflexivity.
  simpl. revert m.
  induction es as [| [name' c'] l IHl]; intros m; [destruct Hin |].
  simpl. destruct (infoOf c') as [fileInfo | e] eqn:Hinfo.
  - pose proof (walk_collect_error c' (Join p name') m) as Hc'.
    destruct (walk collectBySize (Join p name') c' m) as [m' [e' |]] eqn:Hw;
      simpl in Hc'.
    + destruct Hc' as [Hc' | Hc']; [discriminate |]. injection Hc' as ->.
      rewrite orb_true_r. reflexivity.
    + destruct Hin as [Heq | Hin]; [| apply IHl, Hin].
      injection Heq as -> ->. specialize (IH (Join p name) m).
      rewrite Hw in IH. discriminate.
  - destruct c'; try discriminate. injection Hinfo as <-. reflexivity.
Qed.

Lemma findDuplicateFiles_blocked md5 sizeOrder groupOrder fs p n :
  resolve fs p = Ok n -> blocked n ->
  findDuplicateFiles md5 sizeOrder groupOrder fs p = Err ErrPermission.
Proof.
  intros Hres Hb. unfold findDuplicateFiles, firstPass, Walk. rewrite Hres.
  destruct (infoOf n) as [i | e] eqn:Hinfo.
  - pose proof (walk_collect_blocked n Hb p ∅) as Hw.
    destruct (walk collectBySize p n ∅) as [m err]. simpl in Hw. subst err.
    reflexivity.
  - destruct n; try discriminate. injection Hinfo as <-. reflexivity.
Qed.

(** C2.  [findDuplicateFiles] and [provideCleanupAdvice] return the error
    when the root cannot be reached; [analyzeDiskUsage] does not: on every
    such root, and on the root [missing] of the example tree, it returns
    without error and reports an empty tree. *)
Theorem usage_of_missing_root_succeeds md5 sizeOrder groupOrder typeOrder dirOrder :
  (forall fs p e, resolve fs p = Err e ->
     analyzeDiskUsage typeOrder dirOrder fs p = Ok (mkUsageReport [] [] [] 0)
     /\ findDuplicateFiles md5 sizeOrder groupOrder fs p = Err e
     /\ forall protected now age size response,
          provideCleanupAdvice protected now age size fs response p = (fs, Err e))
  /\ analyzeDiskUsage typeOrder dirOrder exampleTree ["missing"%string]
     = Ok (mkUsageReport [] [] [] 0)
  /\ findDuplicateFiles md5 sizeOrder groupOrder exampleTree ["missing"%string]
     = Err ErrNotExist.
Proof.
  split; [| split].
  - intros fs p e H. split; [| split].
    + eapply analyzeDiskUsage_missing_root, H.
    + apply findDuplicateFiles_missing_root, H.
    + intros. apply provideCleanupAdvice_missing_root, H.
  - apply (analyzeDiskUsage_missing_root _ _ _ _ ErrNotExist). reflexivity.
  - apply findDuplicateFiles_missing_root. reflexivity.
Qed.

(** C3.  The walk of [analyzeDiskUsage] skips what it cannot read and
    always returns a report; the walk of [findDuplicateFiles] does not: on
    every tree in which it meets an entry it cannot read, and on the
    example tree with its one directory that cannot be listed, it returns
    the error and no report. *)
Theorem duplicates_abort_on_unreadable_entry md5 sizeOrder groupOrder typeOrder dirOrder :
  (forall fs p n, resolve fs p = Ok n -> blocked n ->
     findDuplicateFiles md5 sizeOrder groupOrder fs p = Err ErrPermission
     /\ isErr (analyzeDiskUsage typeOrder dirOrder fs p) = false)
  /\ findDuplicateFiles md5 sizeOrder groupOrder exampleTree [] = Err ErrPermission
  /\ exists r, analyzeDiskUsage typeOrder dirOrder exampleTree [] = Ok r
               /\ reportTotal r = 26.
Proof.
  split; [| split].
  - intros fs p n Hres Hb. split.
    + eapply findDuplicateFiles_blocked; eauto.
    + apply analyzeDiskUsage_never_fails.
  - apply (findDuplicateFiles_blocked _ _ _ _ _ exampleTree); [reflexivity |].
    apply (blocked_child _ _ _ "private"%string (Dir 4096 0 false [])).
    + simpl. auto 10.
    + constructor.
  - rewrite analyzeDiskUsage_eq. cbv zeta. eexists. split; [reflexivity |].
    vm_compute. reflexivity.
Qed.

(* ===================================================================== *)
(** * Properties of [truncateString] and [formatSize] *)
(* ===================================================================== *)

Lemma string_length_append (s t : string) :
  String.length (String.append s t) = (String.length s + String.length t)%nat.
Proof. induction s as [| c s IH]; simpl; [reflexivity | rewrite IH; reflexivity]. Qed.

Lemma string_length_prefix n : forall s : string,
  (n <= String.length s)%nat -> String.length (String.substring 0 n s) = n.
Proof.
  induction n as [| n IH]; intros [| c s] Hn; simpl in *; try reflexivity; try lia.
  rewrite IH by lia. reflexivity.
Qed.

(** X1. For a bound of at least 3, [truncateString] returns a string of at
    most that many bytes: the string itself when it fits, and otherwise its
    first [maxLen - 3] bytes followed by three dots, exactly [maxLen] bytes
    long.  For a bound that is not negative it panics exactly when the
    bound is below 3 and the string is longer than the bound. *)
Theorem truncateString_bound (s : string) (maxLen : Z) :
  0 <= maxLen <= maxInt64 ->
  (3 <= maxLen ->
     exists t, truncateString s maxLen = Some t
       /\ Z.of_nat (String.length t) = Z.min (Z.of_nat (String.length s)) maxLen
       /\ (Z.of_nat (String.length s) <= maxLen -> t = s)
       /\ (maxLen < Z.of_nat (String.length s) ->
           t = String.append (String.substring 0 (Z.to_nat (maxLen - 3)) s) "..."))
  /\ (truncateString s maxLen = None <->
        maxLen < 3 /\ maxLen < Z.of_nat (String.length s)).
Proof.
  intros Hr. unfold truncateString.
  set (len := Z.of_nat (String.length s)) in *.
  destruct (Z.leb_spec len maxLen) as [Hfit | Hlong].
  - split.
    + intros _. exists s. repeat split; lia.
    + split; [discriminate | lia].
  - assert (Hk : wrap64 (maxLen - 3) = maxLen - 3).
    { apply wrap64_small. unfold inRange, minInt64, maxInt64, half in *. lia. }
    rewrite Hk.
    destruct (Z.leb_spec 0 (maxLen - 3)) as [H3 | H3]; simpl.
    + destruct (Z.leb_spec (maxLen - 3) len); [| lia].
      split; [| split; [discriminate | lia]].
      intros _. eexists. split; [reflexivity |]. split; [| split; [lia | reflexivity]].
      rewrite string_length_append, string_length_prefix by (subst len; lia).
      simpl. lia.
    + split; [lia |]. split; [lia | reflexivity].
Qed.

Lemma truncateString_bound_witness :
  truncateString "a_rather_long_file_name_that_does_not_fit_the_column.txt" 39
    = Some "a_rather_long_file_name_that_does_no..."%string
  /\ exists t, truncateString "short.txt" 39 = Some t /\ t = "short.txt"%string.
Proof.
  split; [reflexivity |].
  destruct (truncateString_bound "short.txt" 39) as [H _].
  - unfold maxInt64, half. lia.
  - destruct (H ltac:(lia)) as (t & Ht & _ & Hfit & _).
    exists t. split; [exact Ht |]. apply Hfit. simpl. lia.
Defined.

Lemma pow1024_pos k : 0 <= k -> 0 < 1024 ^ k.
Proof. intros. apply Z.pow_pos_nonneg; lia. Qed.

Lemma pow1024_succ k : 0 <= k -> 1024 ^ (k + 1) = 1024 * 1024 ^ k.
Proof. intros. rewrite Z.pow_add_r by lia. lia. Qed.

(** A power of 1024 that fits a word has an exponent of at most 6. *)
Lemma pow1024_fits k : 0 <= k -> 1024 ^ k <= maxInt64 -> k <= 6.
Proof.
  intros Hk Hfit. destruct (Z_le_gt_dec k 6) as [| Hbig]; [assumption | exfalso].
  assert (1024 ^ 7 <= 1024 ^ k) by (apply Z.pow_le_mono_r; lia).
  assert (maxInt64 < 1024 ^ 7) by (vm_compute; reflexivity). lia.
Qed.

(** The loop, started after [k] rounds on a size of at least one unit of
    that round: it ends within its fuel on the unit the size falls in. *)
Lemma unitLoop_spec size : 0 <= size <= maxInt64 -> forall fuel k n,
  0 <= k -> n = size / 1024 ^ (k + 1) -> 1 <= n -> n < 1024 ^ Z.of_nat fuel ->
  exists e,
    unitLoop fuel n (1024 ^ (k + 1)) k = Some (1024 ^ (e + 1), e)
    /\ k <= e /\ 1024 ^ (e + 1) <= size < 1024 * 1024 ^ (e + 1).
Proof.
  intros Hsize fuel. induction fuel as [| fuel IH]; intros k n Hk Hn H1 Hfuel.
  { simpl in Hfuel. lia. }
  pose proof (pow1024_pos (k + 1) ltac:(lia)) as Hpos.
  assert (Hlow : 1024 ^ (k + 1) * n <= size).
  { subst n. apply Z.mul_div_le. exact Hpos. }
  assert (Hhigh : size < 1024 ^ (k + 1) * (n + 1)).
  { subst n. rewrite Z.mul_add_distr_l, Z.mul_1_r.
    pose proof (Z.mul_succ_div_gt size (1024 ^ (k + 1)) Hpos). lia. }
  cbn [unitLoop]. destruct (Z.leb_spec 1024 n) as [Hmore | Hdone].
  - assert (Hnext : 1024 ^ (k + 1 + 1) <= size).
    { rewrite (pow1024_succ (k + 1)) by lia. nia. }
    assert (Hk6 : k + 2 <= 6).
    { apply pow1024_fits; [lia |]. replace (k + 2) with (k + 1 + 1) by lia. lia. }
    assert (Hdiv : mul64 (1024 ^ (k + 1)) 1024 = 1024 ^ (k + 1 + 1)).
    { unfold mul64. rewrite (pow1024_succ (k + 1)) by lia.
      rewrite wrap64_small; [lia |].
      unfold inRange, minInt64. rewrite (pow1024_succ (k + 1)) in Hnext by lia.
      unfold maxInt64, half in *. lia. }
    assert (Hexp : add64 k 1 = k + 1).
    { apply wrap64_small. unfold inRange, minInt64, maxInt64, half. lia. }
    rewrite Hdiv, Hexp. rewrite Z.quot_div_nonneg by lia.
    destruct (IH (k + 1) (n / 1024)) as (e & He & Hke & Hb).
    + lia.
    + subst n. rewrite Z.div_div by lia.
      rewrite (pow1024_succ (k + 1)) by lia. f_equal. lia.
    + apply Z.div_le_lower_bound; lia.
    + apply Z.div_lt_upper_bound; [lia |].
      rewrite Nat2Z.inj_succ, Z.pow_succ_r in Hfuel by lia. exact Hfuel.
    + exists e. split; [exact He |]. split; [lia | exact Hb].
  - exists k. split; [reflexivity |]. split; [lia |]. nia.
Qed.

(** X2. [formatSize] always returns: a size below 1024 (a negative one
    too) is printed in bytes, and a size from 1024 up to the largest
    [int64] is printed with the unit it falls in.  The loop ends with the
    divisor [1024 ^ (exp + 1)] for an [exp] of at most 5, that divisor is
    at most the size and more than a 1024th of it, and the letter is the
    one at index [exp] of [KMGTPE], which is never out of range. *)
Theorem formatSize_unit size :
  size <= maxInt64 ->
  (size < 1024 -> formatSize size = Some (InBytes size))
  /\ (1024 <= size ->
      exists exp letter,
        formatSize size = Some (InUnits size (1024 ^ (exp + 1)) letter)
        /\ 0 <= exp <= 5
        /\ String.get (Z.to_nat exp) "KMGTPE" = Some letter
        /\ 1024 ^ (exp + 1) <= size < 1024 * 1024 ^ (exp + 1)).
Proof.
  intros Hmax. unfold formatSize. split.
  - intros Hsmall. destruct (Z.ltb_spec size 1024); [reflexivity | lia].
  - intros Hbig. destruct (Z.ltb_spec size 1024); [lia |].
    destruct (unitLoop_spec size ltac:(lia) 64 0 (size / 1024))
      as (e & He & H0 & Hb).
    + lia.
    + reflexivity.
    + apply Z.div_le_lower_bound; lia.
    + apply Z.div_lt_upper_bound; [lia |].
      assert (maxInt64 < 1024 * 1024 ^ Z.of_nat 64) by (vm_compute; reflexivity). lia.
    + rewrite Z.quot_div_nonneg by lia.
      change 1024 with (1024 ^ (0 + 1)) at 2. rewrite He.
      assert (He5 : e <= 5).
      { assert (e + 1 <= 6); [| lia]. apply pow1024_fits; lia. }
      destruct (Z.ltb_spec e 0); [lia |].
      assert (Hcases : e = 0 \/ e = 1 \/ e = 2 \/ e = 3 \/ e = 4 \/ e = 5) by lia.
      exists e.
      destruct Hcases as [-> | [-> | [-> | [-> | [-> | ->]]]]];
        eexists; (split; [reflexivity |]; split; [lia |]; split; [reflexivity | exact Hb]).
Qed.

Lemma formatSize_unit_witness :
  formatSize 1023 = Some (InBytes 1023)
  /\ exists exp letter,
       formatSize (50 * 1024 * 1024) = Some (InUnits (50 * 1024 * 1024) (1024 ^ (exp + 1)) letter)
       /\ 0 <= exp <= 5.
Proof.
  destruct (formatSize_unit 1023) as [Hs _]; [unfold maxInt64, half; lia |].
  destruct (formatSize_unit (50 * 1024 * 1024)) as [_ Hb]; [unfold maxInt64, half; lia |].
  split; [apply Hs; lia |].
  destruct (Hb ltac:(lia)) as (exp & letter & Hf & He & _).
  exists exp, letter. split; [exact Hf | exact He].
Defined.

Example formatSize_megabytes :
  formatSize (50 * 1024 * 1024) = Some (InUnits 52428800 1048576 "M").
Proof. reflexivity. Qed.

(* ===================================================================== *)
(** * Properties of [listDirectory] and [deleteFile] *)
(* ===================================================================== *)

Lemma listRows_ok files : forall rows,
  listRows files = (rows, None) ->
  Forall2 (fun file row =>
             exists info, Info file = Ok info
               /\ row = mkRow (if entryIsDir file then DIR else FILE) (Name file)
                          (Size info) (ModTime info))
    files rows.
Proof.
  induction files as [| file rest IH]; intros rows; simpl.
  - intros [= <-]. constructor.
  - destruct (Info file) as [info | e] eqn:Hinfo; [| discriminate].
    destruct (listRows rest) as [rows' err]. intros [= <- ->].
    constructor; [eauto | apply IH; reflexivity].
Qed.

Lemma listRows_locked files file e :
  file ∈ files -> Info file = Err e -> exists e', snd (listRows files) = Some e'.
Proof.
  induction files as [| file' rest IH]; intros Hin Herr; [inversion Hin |].
  simpl. destruct (Info file') as [info | e'] eqn:Hinfo; [| simpl; eauto].
  apply elem_of_cons in Hin as [-> | Hin]; [congruence |].
  destruct (IH Hin Herr) as [e' He']. destruct (listRows rest) as [rows err].
  simpl in *. eauto.
Qed.

(** X3. When [listDirectory] returns without error, the path is a
    directory that can be listed and the rows are its entries, one row per
    entry and in their order, each with the name, type, size and
    modification time of its entry.  When [Lstat] fails on one entry of the
    directory, the listing stops with an error, whereas
    [provideCleanupAdvice] on the same directory skips that entry and
    returns its advice. *)
Theorem listDirectory_rows fs p :
  (forall rows, listDirectory fs p = (rows, None) ->
     exists sz mt es,
       resolve fs p = Ok (Dir sz mt true es)
       /\ Forall2 (fun (e : string * node) row =>
                     exists info, infoOf (snd e) = Ok info
                       /\ row = mkRow (if IsDir info then DIR else FILE) (fst e)
                                  (Size info) (ModTime info))
            es rows)
  /\ (forall sz mt es name b,
        resolve fs p = Ok (Dir sz mt true es) -> In (name, Locked b) es ->
        (exists e, snd (listDirectory fs p) = Some e)
        /\ forall protected now age size response,
             isErr (snd (provideCleanupAdvice protected now age size fs response p)) = false).
Proof.
  split.
  - unfold listDirectory. intros rows H.
    destruct (ReadDir fs p) as [files |] eqn:Hrd; [| discriminate].
    destruct (ReadDir_children _ _ _ Hrd) as (sz & mt & es & Hres & ->).
    exists sz, mt, es. split; [exact Hres |].
    apply listRows_ok in H. apply Forall2_fmap_l in H.
    eapply Forall2_impl; [exact H |].
    intros [name c] row (info & Hinfo & ->). simpl in *.
    exists info. split; [exact Hinfo |].
    destruct c; simpl in *; try discriminate; injection Hinfo as <-; reflexivity.
  - intros sz mt es name b Hres Hin. split.
    + unfold listDirectory, ReadDir. rewrite Hres.
      apply (listRows_locked _ (dirEntry (name, Locked b)) ErrPermission);
        [| reflexivity].
      apply list_elem_of_fmap. exists (name, Locked b).
      split; [reflexivity | apply list_elem_of_In, Hin].
    + intros protected now age size response. unfold provideCleanupAdvice, ReadDir.
      rewrite Hres. repeat case_match; reflexivity.
Qed.

Lemma listDirectory_rows_witness :
  exists sz mt es,
    resolve duplicatesTree [] = Ok (Dir sz mt true es)
    /\ Forall2 (fun (e : string * node) row =>
                  exists info, infoOf (snd e) = Ok info
                    /\ row = mkRow (if IsDir info then DIR else FILE) (fst e)
                               (Size info) (ModTime info))
         es
         [mkRow FILE "a.txt" 3 0; mkRow FILE "b.txt" 3 0;
          mkRow FILE "c.txt" 3 0; mkRow FILE "d.bin" 5 0].
Proof.
  destruct (listDirectory_rows duplicatesTree []) as [H _].
  apply H. reflexivity.
Defined.

(** X4. When [listDirectory] lists the directory without error, every
    file [provideCleanupAdvice] recommends in that directory is a row of
    type FILE of the listing, with the same name, size and modification
    time.  (A listing that stops with an error need not show it, see
    [advice_row_after_failed_listing].) *)
Theorem advice_rows_are_listed protected now age size fs response p st listing :
  snd (provideCleanupAdvice protected now age size fs response p) = Ok st ->
  listDirectory fs p = (listing, None) ->
  forall c, c ∈ rows st ->
    mkRow FILE (cName c) (cSize c) (cModTime c) ∈ listing.
Proof.
  intros Hadv Hlist c Hc.
  destruct (advise_rows _ _ _ _ _ _ _ _ Hadv) as (files & Hrd & Hrows & _).
  unfold listDirectory in Hlist. rewrite Hrd in Hlist.
  apply listRows_ok in Hlist.
  rewrite Hrows, list_elem_of_omap in Hc. destruct Hc as (file & Hin & Hc).
  apply candidateOf_Some in Hc. destruct Hc as (info & reason & Hd & Hi & _ & ->).
  simpl. apply list_elem_of_lookup in Hin as [i Hi'].
  destruct (Forall2_lookup_l _ _ _ _ _ Hlist Hi') as (row & Hrow & info' & Hinfo' & ->).
  rewrite Hi in Hinfo'. injection Hinfo' as <-. rewrite Hd in Hrow.
  apply list_elem_of_lookup. eauto.
Qed.

Lemma advice_rows_are_listed_witness :
  mkRow FILE "a.txt" 5 0 ∈ fst (listDirectory exampleTree [])
  /\ mkRow FILE "old.tmp" 7 0 ∈ fst (listDirectory exampleTree []).
Proof.
  assert (H : forall c, c ∈ rows exampleAdvice ->
            mkRow FILE (cName c) (cSize c) (cModTime c) ∈ fst (listDirectory exampleTree [])).
  { apply (advice_rows_are_listed unprotected exampleNow 90 100 exampleTree "n" []);
      reflexivity. }
  split.
  - apply (H (mkCandidate "a.txt" ["a.txt"%string] 5 0 (Stale (100 * day)))). left.
  - apply (H (mkCandidate "old.tmp" ["old.tmp"%string] 7 0 Temporary)). right. left.
Defined.

(** The listing stops at the first entry whose info cannot be read, the
    advice skips that entry: a file recommended after it is not listed. *)
Example advice_row_after_failed_listing :
  let fs :=
    Dir 4096 0 true
      [("a.lock"%string, Locked false); ("old.tmp"%string, File 7 0 (blank 7))] in
  listDirectory fs [] = ([], Some ErrPermission)
  /\ snd (provideCleanupAdvice unprotected exampleNow 90 100 fs "n" [])
     = Ok (mkAdvice [mkCandidate "old.tmp" ["old.tmp"%string] 7 0 Temporary] 7
             [["old.tmp"%string]]).
Proof. split; vm_compute; reflexivity. Qed.

Lemma lookupEntry_None name es :
  name ∉ map fst es -> lookupEntry name es = None.
Proof.
  induction es as [| [n c] es IH]; simpl; [reflexivity |].
  intros Hnot. destruct (decide (n = name)) as [-> | Hne].
  - exfalso. apply Hnot. left.
  - apply IH. intros Hin. apply Hnot. right. exact Hin.
Qed.

Lemma lookupEntry_removeEntry_eq name es :
  NoDup (map fst es) -> lookupEntry name (removeEntry name es) = None.
Proof.
  induction es as [| [n c] es IH]; simpl; [reflexivity |].
  intros Hnd. apply NoDup_cons in Hnd as [Hn Hnd].
  destruct (decide (n = name)) as [-> | Hne].
  - apply lookupEntry_None, Hn.
  - simpl. destruct (decide (n = name)); [contradiction | apply IH, Hnd].
Qed.

Lemma resolve_cons sz mt r es x q :
  resolve (Dir sz mt r es) (x :: q) =
    match lookupEntry x es with
    | Some c => resolve c q
    | None => Err ErrNotExist
    end.
Proof. reflexivity. Qed.

(** After a removal the path is gone, when the names of its directory are
    distinct. *)
Lemma unlink_gone q : forall fs fs' name sz mt r es,
  unlink fs (q ++ [name]) = Ok fs' ->
  resolve fs q = Ok (Dir sz mt r es) -> NoDup (map fst es) ->
  resolve fs' (q ++ [name]) = Err ErrNotExist.
Proof.
  induction q as [| x q IH]; intros fs fs' name sz mt r es Hrm Hres Hnd.
  - simpl in Hres. injection Hres as ->. simpl in *.
    destruct (lookupEntry name es) as [c |]; [| discriminate].
    assert (fs' = Dir sz mt r (removeEntry name es)) as ->.
    { destruct c as [| ? ? ? [| ? ?] |]; congruence. }
    simpl. rewrite lookupEntry_removeEntry_eq by exact Hnd. reflexivity.
  - simpl in Hres. destruct fs as [| sz0 mt0 r0 es0 |]; try discriminate.
    destruct (lookupEntry x es0) as [c |] eqn:Hc; [| discriminate].
    change ((x :: q) ++ [name]) with (x :: (q ++ [name])) in *.
    assert (Hstep : unlink (Dir sz0 mt0 r0 es0) (x :: (q ++ [name])) =
              match unlink c (q ++ [name]) with
              | Ok c' => Ok (Dir sz0 mt0 r0 (replaceEntry x c' es0))
              | Err e => Err e
              end).
    { cbn [unlink]. rewrite Hc. destruct (q ++ [name]) eqn:Hq; [| reflexivity].
      destruct q; discriminate. }
    rewrite Hstep in Hrm.
    destruct (unlink c (q ++ [name])) as [c' |] eqn:Hrc; [| discriminate].
    injection Hrm as <-.
    rewrite (resolve_cons sz0 mt0 r0 _ x (q ++ [name])).
    rewrite (lookupEntry_replaceEntry_eq _ _ c' _ Hc).
    eapply IH; eauto.
Qed.

(** A file that is not the root can be removed. *)
Lemma unlink_file p : forall fs sz mt d,
  p <> [] -> resolve fs p = Ok (File sz mt d) -> exists fs', unlink fs p = Ok fs'.
Proof.
  induction p as [| x q IH]; intros fs sz mt d Hp Hres; [contradiction |].
  simpl in Hres. destruct fs as [| sz0 mt0 r0 es0 |]; try discriminate.
  destruct (lookupEntry x es0) as [c |] eqn:Hc; [| discriminate].
  cbn [unlink]. rewrite Hc. destruct q as [| y rest].
  - simpl in Hres. injection Hres as ->. eauto.
  - destruct (IH c sz mt d ltac:(discriminate) Hres) as [c' ->]. eauto.
Qed.

(** X5. [deleteFile] never removes a directory: on a directory it returns
    an error and leaves the filesystem as it was, as it does on a path
    that does not resolve and after any answer other than [y] or [yes].
    On a file, after the answer [y] or [yes], it calls [os.Remove]: when
    the system refuses the removal, it returns that error and the
    filesystem is as it was; when it does not, [deleteFile] returns without
    error, every path that is neither the file nor above or below it
    resolves as before, and the path of the file no longer exists when the
    names in its directory are distinct. *)
Theorem deleteFile_effect protected fs response p :
  (forall sz mt r es, resolve fs p = Ok (Dir sz mt r es) ->
     deleteFile protected fs response p = (fs, Some (IsADirectory p)))
  /\ (forall e, resolve fs p = Err e ->
        deleteFile protected fs response p = (fs, Some (OsError e)))
  /\ (confirmed response = false -> fst (deleteFile protected fs response p) = fs)
  /\ (forall sz mt d, resolve fs p = Ok (File sz mt d) -> p <> [] ->
        confirmed response = true ->
        (forall e, protected p = Some e ->
           deleteFile protected fs response p = (fs, Some (OsError e)))
        /\ (protected p = None ->
            exists fs',
              deleteFile protected fs response p = (fs', None)
              /\ (forall q, ~ p `prefix_of` q -> ~ q `prefix_of` p ->
                    resolve fs' q = resolve fs q)
              /\ (forall q name dsz dmt r es,
                    p = q ++ [name] -> resolve fs q = Ok (Dir dsz dmt r es) ->
                    NoDup (map fst es) -> resolve fs' p = Err ErrNotExist))).
Proof.
  unfold deleteFile, Stat, Lstat, confirmed. split; [| split; [| split]].
  - intros sz mt r es ->. reflexivity.
  - intros e ->. reflexivity.
  - intros Hc. apply orb_false_iff in Hc as [Hy Hyes]. rewrite Hy, Hyes. simpl.
    destruct (resolve fs p) as [n |]; [| reflexivity].
    destruct (infoOf n) as [info |]; [| reflexivity].
    destruct (IsDir info); reflexivity.
  - intros sz mt d Hres Hp Hc. rewrite Hres. simpl.
    assert (Hno : negb (bool_decide (Strings.ToLower response = "y"%string))
                  && negb (bool_decide (Strings.ToLower response = "yes"%string))
                  = false).
    { apply orb_true_iff in Hc as [-> | ->]; simpl; [reflexivity | apply andb_false_r]. }
    rewrite Hno. unfold Remove. split.
    + intros e ->. reflexivity.
    + intros ->.
      destruct (unlink_file p fs sz mt d Hp Hres) as [fs' Hrm]. rewrite Hrm.
      exists fs'. split; [reflexivity |]. split.
      * intros q H1 H2. eapply unlink_resolve_other; eauto.
      * intros q name dsz dmt r es -> Hq Hnd. eapply unlink_gone; eauto.
Qed.

Lemma deleteFile_effect_witness :
  (exists fs',
     deleteFile unprotected duplicatesTree "Yes" ["b.txt"%string] = (fs', None)
     /\ resolve fs' ["a.txt"%string] = resolve duplicatesTree ["a.txt"%string]
     /\ resolve fs' ["b.txt"%string] = Err ErrNotExist)
  /\ deleteFile (protecting ["b.txt"%string]) duplicatesTree "Yes" ["b.txt"%string]
     = (duplicatesTree, Some (OsError ErrPermission)).
Proof.
  split.
  - destruct (deleteFile_effect unprotected duplicatesTree "Yes" ["b.txt"%string])
      as (_ & _ & _ & H).
    destruct (H 3 0 (Some ["x"; "y"; "z"]%byte)) as [_ Hfree];
      [reflexivity | discriminate | reflexivity |].
    destruct (Hfree eq_refl) as (fs' & Hd & Hother & Hgone).
    exists fs'. split; [exact Hd |]. split.
    + apply Hother; intros [k Hk]; discriminate.
    + apply (Hgone [] "b.txt"%string 4096 0 true
               [("a.txt"%string, File 3 0 (Some ["x"; "y"; "z"]%byte));
                ("b.txt"%string, File 3 0 (Some ["x"; "y"; "z"]%byte));
                ("c.txt"%string, File 3 0 (Some ["x"; "y"; "w"]%byte));
                ("d.bin"%string, File 5 0 (Some ["1"; "2"; "3"; "4"; "5"]%byte))]);
        [reflexivity | reflexivity |].
      apply (bool_decide_unpack _). vm_compute. exact I.
  - destruct (deleteFile_effect (protecting ["b.txt"%string]) duplicatesTree "Yes"
                ["b.txt"%string]) as (_ & _ & _ & H).
    destruct (H 3 0 (Some ["x"; "y"; "z"]%byte)) as [Hrefused _];
      [reflexivity | discriminate | reflexivity |].
    apply Hrefused. reflexivity.
Defined.

(* ===================================================================== *)
(** * Properties of the list of monitored directories *)
(* ===================================================================== *)

(** X6. [addDirectory] keeps the list free of duplicates.  A path that is
    already in the list leaves the list as it is; a path that does not
    resolve or is not a directory gives an error and leaves the list as it
    is; any other path is appended at the end, and stays in the list held
    in memory also when saving it fails.  Adding the path a second time
    changes nothing. *)
Theorem addDirectory_no_duplicates saveConfig fs dirs p :
  NoDup dirs ->
  NoDup (fst (addDirectory saveConfig fs dirs p))
  /\ (p ∈ dirs -> fst (addDirectory saveConfig fs dirs p) = dirs)
  /\ ((forall sz mt r es, resolve fs p <> Ok (Dir sz mt r es)) ->
      fst (addDirectory saveConfig fs dirs p) = dirs
      /\ snd (addDirectory saveConfig fs dirs p) <> None)
  /\ (forall sz mt r es, resolve fs p = Ok (Dir sz mt r es) -> p ∉ dirs ->
      fst (addDirectory saveConfig fs dirs p) = dirs ++ [p]
      /\ snd (addDirectory saveConfig fs dirs p)
         = OsError <$> saveConfig (dirs ++ [p]))
  /\ fst (addDirectory saveConfig fs (fst (addDirectory saveConfig fs dirs p)) p)
     = fst (addDirectory saveConfig fs dirs p).
Proof.
  intros Hnd.
  assert (Hcases :
    (fst (addDirectory saveConfig fs dirs p) = dirs
       /\ (p ∈ dirs \/ forall sz mt r es, resolve fs p <> Ok (Dir sz mt r es)))
    \/ (fst (addDirectory saveConfig fs dirs p) = dirs ++ [p] /\ (p ∉ dirs)
        /\ exists sz mt r es, resolve fs p = Ok (Dir sz mt r es))).
  { unfold addDirectory, Stat, Lstat.
    destruct (resolve fs p) as [[sz mt d | sz mt r es | b] | e] eqn:Hres; simpl;
      try (left; split; [reflexivity | right; congruence]).
    case_bool_decide as Hin; simpl; [left; auto |].
    right. split; [destruct (saveConfig _); reflexivity |]. split; [exact Hin | eauto]. }
  split; [| split; [| split; [| split]]].
  - destruct Hcases as [[-> _] | (-> & Hnot & _)]; [exact Hnd |].
    apply NoDup_app. split; [exact Hnd |]. split; [| apply NoDup_singleton].
    intros x Hx Hx'. apply list_elem_of_singleton in Hx'. subst x. contradiction.
  - intros Hin. destruct Hcases as [[H _] | (_ & Hnot & _)]; [exact H | contradiction].
  - intros Hno. unfold addDirectory, Stat, Lstat.
    destruct (resolve fs p) as [[sz mt d | sz mt r es | b] | e] eqn:Hres; simpl;
      try (split; [reflexivity | discriminate]).
    exfalso. exact (Hno sz mt r es eq_refl).
  - intros sz mt r es Hres Hnot. unfold addDirectory, Stat, Lstat. rewrite Hres.
    simpl. rewrite bool_decide_false by exact Hnot.
    destruct (saveConfig (dirs ++ [p])); split; reflexivity.
  - destruct Hcases as [[H Hwhy] | (H & Hnot & sz & mt & r & es & Hres)]; rewrite H.
    + exact H.
    + unfold addDirectory, Stat, Lstat. rewrite Hres. simpl.
      rewrite bool_decide_true; [reflexivity |].
      apply elem_of_app. right. left.
Qed.

Lemma addDirectory_no_duplicates_witness :
  fst (addDirectory (fun _ => None) exampleTree [[]] ["sub"%string])
    = [[]; ["sub"%string]]
  /\ NoDup (fst (addDirectory (fun _ => None) exampleTree [[]] ["sub"%string])).
Proof.
  destruct (addDirectory_no_duplicates (fun _ => None) exampleTree [[]] ["sub"%string])
    as (Hnd & _ & _ & Hadd & _).
  - apply NoDup_singleton.
  - split; [| exact Hnd].
    apply (Hadd 4096 0 true [("x.log"%string, File 9 0 (blank 9))]); [reflexivity |].
    intros Hin. apply list_elem_of_singleton in Hin. discriminate.
Defined.

Lemma viewMonitoredDirectories_lookup (dirs : list path) n dir :
  (n, dir) ∈ viewMonitoredDirectories dirs <->
  1 <= n /\ dirs !! Z.to_nat (n - 1) = Some dir.
Proof.
  unfold viewMonitoredDirectories. rewrite elem_of_lookup_imap. split.
  - intros (i & d & Heq & Hi). injection Heq as -> ->.
    split; [lia |]. replace (Z.to_nat (Z.of_nat i + 1 - 1)) with i by lia. exact Hi.
  - intros [Hn Hi]. exists (Z.to_nat (n - 1)), dir. split; [| exact Hi].
    f_equal. lia.
Qed.

Lemma removeDirectory_in_range saveConfig (dirs : list path) choice dir :
  1 <= choice -> dirs !! Z.to_nat (choice - 1) = Some dir ->
  removeDirectory saveConfig dirs choice =
    match saveConfig (delete (Z.to_nat (choice - 1)) dirs) with
    | Some e => (delete (Z.to_nat (choice - 1)) dirs, None, Some (OsError e))
    | None => (delete (Z.to_nat (choice - 1)) dirs, Some dir, None)
    end.
Proof.
  intros Hn Hi. pose proof (lookup_lt_Some _ _ _ Hi) as Hlt.
  unfold removeDirectory.
  rewrite bool_decide_false by (destruct dirs; [simpl in Hlt; lia | discriminate]).
  destruct (Z.leb_spec choice 0); [lia |].
  destruct (Z.ltb_spec (Z.of_nat (length dirs)) choice); [lia |]. simpl.
  rewrite Hi, delete_take_drop.
  replace (Z.to_nat choice) with (S (Z.to_nat (choice - 1))) by lia. reflexivity.
Qed.

Lemma addDirectory_new saveConfig fs (dirs : list path) p sz mt r es :
  resolve fs p = Ok (Dir sz mt r es) -> p ∉ dirs ->
  addDirectory saveConfig fs dirs p
    = (dirs ++ [p], OsError <$> saveConfig (dirs ++ [p])).
Proof.
  intros Hres Hnot. unfold addDirectory, Stat, Lstat. rewrite Hres. simpl.
  rewrite bool_decide_false by exact Hnot.
  destruct (saveConfig (dirs ++ [p])); reflexivity.
Qed.

(** X7. [removeDirectory] removes by the number [viewMonitoredDirectories]
    shows: a number that is 0, negative or larger than the list leaves the
    list as it is, and the number printed next to a directory removes that
    entry and no other, the entries before and after it keeping their
    order; the directory is reported as removed when the list could be
    saved. *)
Theorem removeDirectory_by_number saveConfig dirs choice :
  (choice <= 0 \/ Z.of_nat (length dirs) < choice ->
     removeDirectory saveConfig dirs choice = (dirs, None, None))
  /\ (forall dir, (choice, dir) ∈ viewMonitoredDirectories dirs ->
        let dirs' := delete (Z.to_nat (choice - 1)) dirs in
        fst (fst (removeDirectory saveConfig dirs choice)) = dirs'
        /\ S (length dirs') = length dirs
        /\ (forall i, (i < Z.to_nat (choice - 1))%nat -> dirs' !! i = dirs !! i)
        /\ (forall i, (Z.to_nat (choice - 1) <= i)%nat -> dirs' !! i = dirs !! S i)
        /\ (saveConfig dirs' = None ->
            removeDirectory saveConfig dirs choice = (dirs', Some dir, None))).
Proof.
  split.
  - intros Hout. unfold removeDirectory.
    case_bool_decide; [reflexivity |].
    destruct (Z.leb_spec choice 0); [reflexivity |].
    destruct (Z.ltb_spec (Z.of_nat (length dirs)) choice); [reflexivity | lia].
  - intros dir Hview dirs'.
    apply viewMonitoredDirectories_lookup in Hview as [Hn Hi].
    pose proof (lookup_lt_Some _ _ _ Hi) as Hlt.
    pose proof (removeDirectory_in_range saveConfig dirs choice dir Hn Hi) as Hrun.
    fold dirs' in Hrun.
    split; [| split; [| split; [| split]]].
    + rewrite Hrun. destruct (saveConfig dirs'); reflexivity.
    + subst dirs'. rewrite length_delete by eauto. lia.
    + intros i Hi'. subst dirs'. apply list_lookup_delete_lt. exact Hi'.
    + intros i Hi'. subst dirs'. apply list_lookup_delete_ge. exact Hi'.
    + intros Hsave. rewrite Hrun, Hsave. reflexivity.
Qed.

Lemma removeDirectory_by_number_witness :
  removeDirectory (fun _ => None) [["a"]; ["b"]; ["c"]]%string 2
    = ([["a"]; ["c"]]%string, Some ["b"%string], None).
Proof.
  destruct (removeDirectory_by_number (fun _ => None) [["a"]; ["b"]; ["c"]]%string 2)
    as [_ H].
  destruct (H ["b"%string]) as (_ & _ & _ & _ & Hrun).
  - apply viewMonitoredDirectories_lookup. split; [lia | reflexivity].
  - apply Hrun. reflexivity.
Defined.

(** X8. Adding a directory that is not yet in the list and then removing
    the last number gives back the list as it was, and reports the
    directory that was added. *)
Theorem add_then_remove_last saveConfig fs dirs p sz mt r es :
  resolve fs p = Ok (Dir sz mt r es) -> p ∉ dirs ->
  saveConfig dirs = None ->
  removeDirectory saveConfig (fst (addDirectory saveConfig fs dirs p))
    (Z.of_nat (length dirs) + 1)
  = (dirs, Some p, None).
Proof.
  intros Hres Hnot Hsave.
  rewrite (addDirectory_new _ _ _ _ _ _ _ _ Hres Hnot). simpl.
  assert (Hidx : Z.to_nat (Z.of_nat (length dirs) + 1 - 1) = length dirs) by lia.
  assert (Hdel : delete (Z.to_nat (Z.of_nat (length dirs) + 1 - 1)) (dirs ++ [p]) = dirs).
  { rewrite Hidx, delete_take_drop, take_app_length.
    rewrite drop_ge by (rewrite length_app; simpl; lia). apply app_nil_r. }
  rewrite (removeDirectory_in_range saveConfig (dirs ++ [p]) _ p).
  - rewrite Hdel, Hsave. reflexivity.
  - lia.
  - rewrite Hidx. rewrite lookup_app_r by lia.
    replace (length dirs - length dirs)%nat with 0%nat by lia. reflexivity.
Qed.

Lemma add_then_remove_last_witness :
  removeDirectory (fun _ => None)
    (fst (addDirectory (fun _ => None) exampleTree [[]] ["sub"%string])) 2
  = ([[]], Some ["sub"%string], None).
Proof.
  apply (add_then_remove_last (fun _ => None) exampleTree [[]] ["sub"%string]
           4096 0 true [("x.log"%string, File 9 0 (blank 9))]).
  - reflexivity.
  - intros Hin. apply list_elem_of_singleton in Hin. discriminate.
  - reflexivity.
Defined.

(* ===================================================================== *)
(** * More properties of [findDuplicateFiles] *)
(* ===================================================================== *)

(** When the walk of the first pass is not stopped, it has collected the
    files it reached, in order. *)
Lemma walk_collect_ok n : forall p m,
  snd (walk collectBySize p n m) = None ->
  fst (walk collectBySize p n m) = fold_left collectFile (reachable p n) m.
Proof.
  induction n as [sz mt d | sz mt r es IH | b] using node_ind'; intros p m.
  - reflexivity.
  - simpl. destruct r; simpl; [| discriminate].
    revert m. induction es as [| [name c] l IHl]; intros m; [reflexivity |].
    apply Forall_cons in IH as [Hc Hl]. simpl in Hc. simpl.
    rewrite fold_left_app.
    destruct (infoOf c) as [fileInfo | e] eqn:Hinfo.
    + specialize (Hc (Join p name) m).
      pose proof (walk_collect_error c (Join p name) m) as Herr.
      destruct (walk collectBySize (Join p name) c m) as [m' [e' |]];
        simpl in Hc, Herr.
      * destruct Herr as [Herr | Herr]; [discriminate |]. injection Herr as ->.
        rewrite orb_true_r. discriminate.
      * rewrite <- Hc by reflexivity. apply IHl, Hl.
    + destruct c; try discriminate. injection Hinfo as <-. discriminate.
  - discriminate.
Qed.

Lemma firstPass_fold fs p filesBySize :
  firstPass fs p = Ok filesBySize ->
  filesBySize = fold_left collectFile (walkedFiles fs p) ∅.
Proof.
  unfold firstPass, Walk, walkedFiles.
  destruct (resolve fs p) as [n | e] eqn:Hres.
  - destruct (infoOf n) as [i | e] eqn:Hinfo.
    + pose proof (walk_collect_ok n p ∅) as Hok.
      pose proof (walk_collect_error n p ∅) as Herr.
      destruct (walk collectBySize p n ∅) as [m [e |]]; simpl in *.
      * destruct Herr as [Herr | Herr]; [discriminate |]. injection Herr as ->.
        discriminate.
      * intros [= <-]. apply Hok. reflexivity.
    + destruct n; try discriminate. injection Hinfo as <-. discriminate.
  - simpl. destruct (resolve_error _ _ _ Hres) as [-> | [-> | ->]]; discriminate.
Qed.

Lemma collect_fold_lookup l : forall (m : gmap Z (list path)) size,
  default [] (fold_left collectFile l m !! size)
  = default [] (m !! size)
      ++ map fst (filter (fun f : path * FileInfo => Size (snd f) = size) l).
Proof.
  induction l as [| f l IH]; intros m size; simpl.
  - rewrite app_nil_r. reflexivity.
  - rewrite IH, filter_cons. unfold collectFile at 1.
    destruct (decide (Size (snd f) = size)) as [<- | Hne].
    + rewrite lookup_insert_eq. simpl. rewrite <- app_assoc. reflexivity.
    + rewrite lookup_insert_ne by exact Hne. reflexivity.
Qed.

Lemma collect_fold_key l : forall (m : gmap Z (list path)) size files,
  fold_left collectFile l m !! size = Some files ->
  m !! size = None -> files <> [].
Proof.
  induction l as [| f l IH]; intros m size files; simpl.
  - congruence.
  - intros Hlook Hnone. destruct (decide (Size (snd f) = size)) as [Heq | Hne].
    + pose proof (collect_fold_lookup l (collectFile m f) size) as Hl.
      rewrite Hlook in Hl. simpl in Hl. unfold collectFile in Hl at 1.
      rewrite Heq, lookup_insert_eq in Hl. simpl in Hl.
      intros ->. destruct (default [] (m !! size)); discriminate.
    + apply (IH (collectFile m f) size files Hlook).
      unfold collectFile. rewrite lookup_insert_ne by exact Hne. exact Hnone.
Qed.

(** X9. When the first pass is not stopped by an error, the bucket of
    every size holds exactly the paths of the entries that are not
    directories, that the walk reached and that have this size, in the
    order in which the walk reached them; no bucket is empty. *)
Theorem buckets_in_discovery_order fs p filesBySize :
  firstPass fs p = Ok filesBySize ->
  forall size,
    default [] (filesBySize !! size)
    = map fst (filter (fun f : path * FileInfo => Size (snd f) = size)
                 (walkedFiles fs p))
    /\ filesBySize !! size <> Some [].
Proof.
  intros H size. apply firstPass_fold in H. subst filesBySize. split.
  - rewrite collect_fold_lookup, lookup_empty. reflexivity.
  - intros Hlook. eapply collect_fold_key; [exact Hlook | apply lookup_empty | reflexivity].
Qed.

Lemma buckets_in_discovery_order_witness :
  default [] (duplicatesBuckets !! 3) = [["a.txt"]; ["b.txt"]; ["c.txt"]]%string
  /\ duplicatesBuckets !! 4 <> Some [].
Proof.
  destruct (buckets_in_discovery_order duplicatesTree [] duplicatesBuckets
              duplicatesTree_firstPass 3) as [H3 _].
  destruct (buckets_in_discovery_order duplicatesTree [] duplicatesBuckets
              duplicatesTree_firstPass 4) as [_ H4].
  split; [etransitivity; [exact H3 | reflexivity] | exact H4].
Defined.

(** The display loop, entry by entry. *)
Lemma displayGroup_groupOf fs r e :
  displayGroup fs r e =
    if bool_decide (1 < length (snd e))%nat then
      match groupOf fs e with
      | Some g =>
          mkReport (groups r ++ [g]) (add64 (duplicateCount r) 1)
            (add64 (totalWasted r) (wastedSpace g))
      | None => mkReport (groups r) (add64 (duplicateCount r) 1) (totalWasted r)
      end
    else r.
Proof.
  destruct e as [hash files]. unfold displayGroup, groupOf. simpl.
  case_bool_decide; [| reflexivity].
  destruct files as [| file0 rest]; [reflexivity |].
  destruct (Stat fs file0); reflexivity.
Qed.

Lemma display_fold fs l : forall r,
  let r' := fold_left (displayGroup fs) l r in
  groups r' = groups r ++ omap (groupOf fs) l
  /\ wrap64 (totalWasted r')
     = wrap64 (totalWasted r + sumZ (map wastedSpace (omap (groupOf fs) l)))
  /\ wrap64 (duplicateCount r')
     = wrap64 (duplicateCount r
               + Z.of_nat (length (filter (fun e => (1 < length (snd e))%nat) l))).
Proof.
  induction l as [| e l IH]; intros r; simpl.
  - rewrite app_nil_r, !Z.add_0_r. auto.
  - destruct (IH (displayGroup fs r e)) as (Hg & Hw & Hc). simpl in Hg, Hw, Hc.
    rewrite Hg, Hw, Hc, displayGroup_groupOf, filter_cons.
    destruct (decide (1 < length (snd e))%nat) as [Hlen | Hlen].
    + rewrite bool_decide_true by exact Hlen.
      destruct (groupOf fs e) as [g |]; simpl.
      * rewrite <- app_assoc. split; [reflexivity |]. unfold add64. split.
        -- rewrite wrap64_add_l. f_equal. unfold sumZ. simpl.
           rewrite <- Z.add_assoc. reflexivity.
        -- rewrite wrap64_add_l. f_equal. lia.
      * split; [reflexivity |]. split; [reflexivity |].
        unfold add64. rewrite wrap64_add_l. f_equal. lia.
    + rewrite bool_decide_false by exact Hlen.
      assert (Hg0 : groupOf fs e = None).
      { unfold groupOf. rewrite bool_decide_false by exact Hlen. reflexivity. }
      rewrite Hg0. auto.
Qed.

Lemma display_range_inRange fs l : forall r,
  inRange (totalWasted r) -> inRange (duplicateCount r) ->
  inRange (totalWasted (fold_left (displayGroup fs) l r))
  /\ inRange (duplicateCount (fold_left (displayGroup fs) l r)).
Proof.
  induction l as [| e l IH]; intros r Hw Hc; simpl; [auto |].
  apply IH; rewrite displayGroup_groupOf;
    repeat case_match; simpl; try assumption; apply wrap64_range.
Qed.

Lemma display_groups_eq groupOrder fs (groupsByHash : gmap string (list path)) :
  groups (display groupOrder fs groupsByHash)
  = omap (groupOf fs) (range groupOrder groupsByHash).
Proof.
  unfold display.
  destruct (display_fold fs (range groupOrder groupsByHash) (mkReport [] 0 0))
    as (Hg & _). exact Hg.
Qed.

(** X10. The report of [findDuplicateFiles] accounts for wasted space as
    follows: the wasted space of a printed group is the size [os.Stat]
    gives for its first file times the number of its other files, in
    64-bit arithmetic; the total is the 64-bit sum of the wasted space of
    the printed groups; and the count of groups is the number of digests
    shared by more than one file, which also counts a group that is not
    printed because [os.Stat] failed on its first file. *)
Theorem duplicates_wasted_space md5 sizeOrder groupOrder fs p r :
  findDuplicateFiles md5 sizeOrder groupOrder fs p = Ok r ->
  exists filesBySize,
    firstPass fs p = Ok filesBySize
    /\ (forall g, g ∈ groups r ->
          exists file0 info,
            head (groupFiles g) = Some file0 /\ Stat fs file0 = Ok info
            /\ wastedSpace g
               = mul64 (Size info) (wrap64 (Z.of_nat (length (groupFiles g)) - 1)))
    /\ totalWasted r = wrap64 (sumZ (map wastedSpace (groups r)))
    /\ duplicateCount r
       = wrap64 (Z.of_nat (length (sharedDigests
                   (duplicateGroups (secondPass md5 sizeOrder fs filesBySize)))))
    /\ (length (groups r)
        <= length (sharedDigests
                     (duplicateGroups (secondPass md5 sizeOrder fs filesBySize))))%nat.
Proof.
  intros H. destruct (findDuplicateFiles_report _ _ _ _ _ _ H) as (m & Hm & ->).
  exists m. split; [exact Hm |].
  set (dg := duplicateGroups (secondPass md5 sizeOrder fs m)).
  unfold display.
  destruct (display_fold fs (range groupOrder dg) (mkReport [] 0 0)) as (Hg & Hw & Hc).
  destruct (display_range_inRange fs (range groupOrder dg) (mkReport [] 0 0))
    as [Hrw Hrc]; try (simpl; unfold inRange, minInt64, maxInt64, half; lia).
  simpl in Hg, Hw, Hc. rewrite Z.add_0_l in Hw, Hc.
  rewrite (wrap64_small _ Hrw) in Hw. rewrite (wrap64_small _ Hrc) in Hc.
  assert (Hcount : length (filter (fun e : string * list path => (1 < length (snd e))%nat)
                             (range groupOrder dg))
                   = length (sharedDigests dg)).
  { unfold sharedDigests. apply Permutation_length.
    apply filter_Permutation, range_perm. }
  split; [| split; [| split]].
  - intros g Hin. rewrite Hg, list_elem_of_omap in Hin.
    destruct Hin as ([hash files] & _ & Hgo). unfold groupOf in Hgo. simpl in Hgo.
    case_bool_decide; [| discriminate].
    destruct files as [| file0 rest]; [discriminate |].
    destruct (Stat fs file0) as [info |] eqn:Hstat; [| discriminate].
    injection Hgo as <-. simpl. eauto.
  - rewrite Hw, Hg. reflexivity.
  - rewrite Hc, Hcount. reflexivity.
  - rewrite Hg, <- Hcount. clear.
    induction (range groupOrder dg) as [| e l IH]; simpl; [lia |].
    rewrite filter_cons. unfold groupOf at 1.
    destruct (decide (1 < length (snd e))%nat) as [Hlen | Hlen].
    + rewrite bool_decide_true by exact Hlen.
      unfold omap in IH. repeat case_match; simpl; lia.
    + rewrite bool_decide_false by exact Hlen. exact IH.
Qed.

Lemma duplicates_wasted_space_witness :
  totalWasted (mkReport [mkGroup "xyz" [["a.txt"]; ["b.txt"]]%string 3] 1 3)
  = wrap64 (sumZ (map wastedSpace [mkGroup "xyz" [["a.txt"]; ["b.txt"]]%string 3])).
Proof.
  destruct (duplicates_wasted_space contentDigest forwardOrder forwardOrder
              duplicatesTree [] _ duplicatesTree_run) as (m & _ & _ & Hw & _).
  exact Hw.
Defined.

Lemma groupOf_hash fs e g : groupOf fs e = Some g -> groupHash g = fst e /\ groupFiles g = snd e.
Proof.
  unfold groupOf. case_bool_decide; [| discriminate].
  destruct (snd e) as [| file0 rest] eqn:Hfiles; [discriminate |].
  destruct (Stat fs file0); [| discriminate].
  intros [= <-]. simpl. auto.
Qed.

Lemma groupOf_NoDup fs (l : list (string * list path)) :
  NoDup (map fst l) -> NoDup (map groupHash (omap (groupOf fs) l)).
Proof.
  induction l as [| e l IH]; simpl; [constructor |].
  intros Hnd. apply NoDup_cons in Hnd as [Hnot Hnd].
  destruct (groupOf fs e) as [g |] eqn:Hg; [| apply IH, Hnd].
  simpl. apply NoDup_cons. split; [| apply IH, Hnd].
  intros Hin. apply Hnot. apply groupOf_hash in Hg as [Hh _]. rewrite <- Hh.
  apply list_elem_of_fmap in Hin as (g' & -> & Hg').
  apply list_elem_of_omap in Hg' as (e' & He' & Hgo).
  apply groupOf_hash in Hgo as [-> _]. apply list_elem_of_fmap. eauto.
Qed.

Lemma NoDup_fmap_eq {A B} (f : A -> B) (l : list A) (x y : A) :
  NoDup (map f l) -> x ∈ l -> y ∈ l -> f x = f y -> x = y.
Proof.
  induction l as [| a l IH]; simpl; intros Hnd Hx Hy Hf; [inversion Hx |].
  apply NoDup_cons in Hnd as [Hnot Hnd].
  apply elem_of_cons in Hx as [-> | Hx]; apply elem_of_cons in Hy as [-> | Hy].
  - reflexivity.
  - exfalso. apply Hnot. rewrite Hf. apply list_elem_of_fmap. eauto.
  - exfalso. apply Hnot. rewrite <- Hf. apply list_elem_of_fmap. eauto.
  - auto.
Qed.

(** X11. In the report of [findDuplicateFiles] every file of a printed
    group could be read and has the digest under which the group is
    printed; no two printed groups have the same digest, and no file
    appears in two of them. *)
Theorem duplicate_groups_partition md5 sizeOrder groupOrder fs p r :
  findDuplicateFiles md5 sizeOrder groupOrder fs p = Ok r ->
  (forall g f, g ∈ groups r -> f ∈ groupFiles g ->
     calculateMD5 md5 fs f = Ok (groupHash g))
  /\ NoDup (map groupHash (groups r))
  /\ (forall g1 g2 f, g1 ∈ groups r -> g2 ∈ groups r ->
        f ∈ groupFiles g1 -> f ∈ groupFiles g2 -> g1 = g2).
Proof.
  intros H. destruct (findDuplicateFiles_report _ _ _ _ _ _ H) as (m & Hm & ->).
  destruct (secondPass_sound md5 sizeOrder fs m) as [_ Hg].
  assert (Hdigest : forall g f,
            g ∈ groups (display groupOrder fs
                          (duplicateGroups (secondPass md5 sizeOrder fs m))) ->
            f ∈ groupFiles g -> calculateMD5 md5 fs f = Ok (groupHash g)).
  { intros g f Hin Hf. apply display_groups in Hin as [Hlook _].
    exact (proj1 (Hg _ _ f Hlook Hf)). }
  assert (Hnd : NoDup (map groupHash
                  (groups (display groupOrder fs
                             (duplicateGroups (secondPass md5 sizeOrder fs m)))))).
  { rewrite display_groups_eq. apply groupOf_NoDup.
    rewrite (range_perm groupOrder _). apply NoDup_fst_map_to_list. }
  split; [exact Hdigest |]. split; [exact Hnd |].
  intros g1 g2 f H1 H2 Hf1 Hf2.
  apply (NoDup_fmap_eq groupHash _ g1 g2 Hnd H1 H2).
  pose proof (Hdigest g1 f H1 Hf1) as E1. pose proof (Hdigest g2 f H2 Hf2) as E2.
  congruence.
Qed.

Lemma duplicate_groups_partition_witness :
  calculateMD5 contentDigest duplicatesTree ["b.txt"%string] = Ok "xyz"%string
  /\ NoDup (map groupHash [mkGroup "xyz" [["a.txt"]; ["b.txt"]]%string 3]).
Proof.
  destruct (duplicate_groups_partition contentDigest forwardOrder forwardOrder
              duplicatesTree [] _ duplicatesTree_run) as (Hd & Hnd & _).
  split; [| exact Hnd].
  apply (Hd (mkGroup "xyz" [["a.txt"]; ["b.txt"]]%string 3)); [left | right; left].
Defined.

Lemma fold_left_hit {A S : Type} (P : S -> Prop) (f : S -> A -> S) (b : A) l :
  (forall s a, P s -> P (f s a)) -> (forall s, P (f s b)) -> b ∈ l ->
  forall s, P (fold_left f l s).
Proof.
  intros Hkeep Hhit. induction l as [| a l IH]; intros Hin s; [inversion Hin |].
  simpl. apply elem_of_cons in Hin as [<- | Hin]; [| apply IH, Hin].
  apply (fold_left_invariant P (fun _ => True)); auto.
  apply Forall_forall. auto.
Qed.

Lemma two_elements {A} (l : list A) x y : x ∈ l -> y ∈ l -> x <> y -> (1 < length l)%nat.
Proof.
  destruct l as [| a [| b l]]; simpl; intros Hx Hy Hne; [inversion Hx | | lia].
  apply list_elem_of_singleton in Hx. apply list_elem_of_singleton in Hy. congruence.
Qed.

Lemma calculateMD5_Stat md5 fs f h :
  calculateMD5 md5 fs f = Ok h -> exists info, Stat fs f = Ok info.
Proof.
  unfold calculateMD5, ReadFile, Stat, Lstat.
  destruct (resolve fs f) as [[sz mt [d |] | | ] |]; try discriminate.
  intros _. simpl. eauto.
Qed.

Section HashComplete.

Variable md5 : list Byte.byte -> string.
Variable fs : node.

Lemma hashFile_keeps st f' f h :
  (exists g, duplicateGroups st !! h = Some g /\ f ∈ g) ->
  exists g, duplicateGroups (hashFile md5 fs st f') !! h = Some g /\ f ∈ g.
Proof.
  intros (g & Hg & Hf). unfold hashFile.
  destruct (calculateMD5 md5 fs f') as [h' |]; simpl; [| eauto].
  destruct (decide (h' = h)) as [-> | Hne].
  - rewrite lookup_insert_eq, Hg. simpl. eexists. split; [reflexivity |].
    apply elem_of_app. auto.
  - rewrite lookup_insert_ne by exact Hne. eauto.
Qed.

Lemma hashFile_adds st f h :
  calculateMD5 md5 fs f = Ok h ->
  exists g, duplicateGroups (hashFile md5 fs st f) !! h = Some g /\ f ∈ g.
Proof.
  intros Hh. unfold hashFile. rewrite Hh. simpl. rewrite lookup_insert_eq.
  eexists. split; [reflexivity |]. apply elem_of_app. right. left.
Qed.

Lemma hashBucket_keeps st b f h :
  (exists g, duplicateGroups st !! h = Some g /\ f ∈ g) ->
  exists g, duplicateGroups (hashBucket md5 fs st b) !! h = Some g /\ f ∈ g.
Proof.
  intros H. destruct b as [size files]. unfold hashBucket.
  destruct (_ && _); [| exact H].
  apply (fold_left_invariant
           (fun st => exists g, duplicateGroups st !! h = Some g /\ f ∈ g)
           (fun _ => True)); [| apply Forall_forall; auto | exact H].
  intros s a _. apply hashFile_keeps.
Qed.

Lemma hashBucket_adds st size files f h :
  (1 < length files)%nat -> 0 < size -> f ∈ files ->
  calculateMD5 md5 fs f = Ok h ->
  exists g, duplicateGroups (hashBucket md5 fs st (size, files)) !! h = Some g /\ f ∈ g.
Proof.
  intros Hlen Hpos Hin Hh. unfold hashBucket.
  rewrite bool_decide_true by exact Hlen.
  destruct (Z.ltb_spec 0 size); [| lia]. simpl.
  apply (fold_left_hit
           (fun st => exists g, duplicateGroups st !! h = Some g /\ f ∈ g)
           (hashFile md5 fs) f); [| | exact Hin].
  - intros s a. apply hashFile_keeps.
  - intros s. apply hashFile_adds, Hh.
Qed.

Lemma secondPass_complete sizeOrder (filesBySize : gmap Z (list path)) size files f h :
  filesBySize !! size = Some files ->
  (1 < length files)%nat -> 0 < size -> f ∈ files ->
  calculateMD5 md5 fs f = Ok h ->
  exists g,
    duplicateGroups (secondPass md5 sizeOrder fs filesBySize) !! h = Some g /\ f ∈ g.
Proof.
  intros Hb Hlen Hpos Hin Hh. unfold secondPass.
  apply (fold_left_hit
           (fun st => exists g, duplicateGroups st !! h = Some g /\ f ∈ g)
           (hashBucket md5 fs) (size, files)).
  - intros s b. apply hashBucket_keeps.
  - intros s. apply hashBucket_adds; assumption.
  - rewrite (range_perm sizeOrder filesBySize). apply elem_of_map_to_list. exact Hb.
Qed.

End HashComplete.

(** X12. [findDuplicateFiles] finds the duplicates: when it returns a
    report, any two different files that the walk reached, that have the
    same size, greater than 0, and the same digest are printed together in
    one group, the group of that digest. *)
Theorem duplicates_are_reported md5 sizeOrder groupOrder fs p r f1 info1 f2 info2 hash :
  findDuplicateFiles md5 sizeOrder groupOrder fs p = Ok r ->
  (f1, info1) ∈ walkedFiles fs p -> (f2, info2) ∈ walkedFiles fs p ->
  f1 <> f2 -> Size info1 = Size info2 -> 0 < Size info1 ->
  calculateMD5 md5 fs f1 = Ok hash -> calculateMD5 md5 fs f2 = Ok hash ->
  exists g,
    g ∈ groups r /\ groupHash g = hash
    /\ f1 ∈ groupFiles g /\ f2 ∈ groupFiles g.
Proof.
  intros H Hw1 Hw2 Hne Hsize Hpos Hh1 Hh2.
  destruct (findDuplicateFiles_report _ _ _ _ _ _ H) as (m & Hm & ->).
  pose proof (firstPass_fold _ _ _ Hm) as Hfold.
  pose proof (collect_fold_lookup (walkedFiles fs p) ∅ (Size info1)) as Hbucket.
  rewrite <- Hfold, lookup_empty in Hbucket. simpl in Hbucket.
  assert (Hin : forall f info, (f, info) ∈ walkedFiles fs p -> Size info = Size info1 ->
                  f ∈ default [] (m !! Size info1)).
  { intros f info Hw Hs. rewrite Hbucket. apply list_elem_of_fmap.
    exists (f, info). split; [reflexivity |]. apply list_elem_of_filter. auto. }
  pose proof (Hin f1 info1 Hw1 eq_refl) as Hb1.
  pose proof (Hin f2 info2 Hw2 (eq_sym Hsize)) as Hb2.
  destruct (m !! Size info1) as [files |] eqn:Hfiles; [| inversion Hb1].
  simpl in Hb1, Hb2.
  pose proof (two_elements files f1 f2 Hb1 Hb2 Hne) as Hlen.
  destruct (secondPass_complete md5 fs sizeOrder m _ files f1 hash Hfiles Hlen Hpos Hb1 Hh1)
    as (g1 & Hg1 & Hf1).
  destruct (secondPass_complete md5 fs sizeOrder m _ files f2 hash Hfiles Hlen Hpos Hb2 Hh2)
    as (g2 & Hg2 & Hf2).
  rewrite Hg1 in Hg2. injection Hg2 as <-.
  pose proof (two_elements g1 f1 f2 Hf1 Hf2 Hne) as Hlen1.
  destruct (secondPass_sound md5 sizeOrder fs m) as [_ Hsound].
  destruct g1 as [| file0 rest] eqn:Hg; [inversion Hf1 |].
  destruct (Hsound hash (file0 :: rest) file0 Hg1 ltac:(left)) as [Hh0 _].
  destruct (calculateMD5_Stat _ _ _ _ Hh0) as [info0 Hstat].
  exists (mkGroup hash (file0 :: rest)
            (mul64 (Size info0) (wrap64 (Z.of_nat (length (file0 :: rest)) - 1)))).
  split; [| simpl; auto].
  rewrite display_groups_eq. apply list_elem_of_omap.
  exists (hash, file0 :: rest). split.
  - rewrite (range_perm groupOrder _). apply elem_of_map_to_list. exact Hg1.
  - unfold groupOf. cbn [fst snd]. rewrite bool_decide_true by exact Hlen1.
    rewrite Hstat. reflexivity.
Qed.

Lemma duplicates_are_reported_witness :
  exists g,
    g ∈ groups (mkReport [mkGroup "xyz" [["a.txt"]; ["b.txt"]]%string 3] 1 3)
    /\ groupHash g = "xyz"%string
    /\ ["a.txt"%string] ∈ groupFiles g /\ ["b.txt"%string] ∈ groupFiles g.
Proof.
  apply (duplicates_are_reported contentDigest forwardOrder forwardOrder
           duplicatesTree [] _ ["a.txt"%string] (mkInfo 3 0 false)
           ["b.txt"%string] (mkInfo 3 0 false) "xyz" duplicatesTree_run).
  - left.
  - right. left.
  - discriminate.
  - reflexivity.
  - reflexivity.
  - reflexivity.
  - reflexivity.
Defined.

(* ===================================================================== *)
(** * More properties of [analyzeDiskUsage] *)
(* ===================================================================== *)

Section Tally.

Context `{Countable K}.
Variable key : path * FileInfo -> K.

(** Both maps of [analyzeDiskUsage] are filled in the same way, each
    under its own key. *)
Local Abbreviation tally :=
  (fun (m : gmap K Z) (f : path * FileInfo) =>
     <[key f := add64 (default 0 (m !! key f)) (Size (snd f))]> m).

Lemma tally_fold l : forall (m : gmap K Z) k,
  let m' := fold_left tally l m in
  (m' !! k = None <-> m !! k = None /\ forall f, f ∈ l -> key f <> k)
  /\ wrap64 (default 0 (m' !! k))
     = wrap64 (default 0 (m !! k)
               + sumZ (map (fun f => Size (snd f)) (filter (fun f => key f = k) l)))
  /\ ((forall v, m !! k = Some v -> inRange v) ->
      forall v, m' !! k = Some v -> inRange v).
Proof.
  induction l as [| f l IH]; intros m k; simpl.
  - split; [| split].
    + split; [intros Hn; split; [exact Hn | intros f Hf; inversion Hf] | tauto].
    + rewrite Z.add_0_r. reflexivity.
    + auto.
  - destruct (IH (tally m f) k) as (Hnone & Hsum & Hrange). simpl in Hnone, Hsum, Hrange.
    split; [| split].
    + rewrite Hnone. destruct (decide (key f = k)) as [Heq | Hne].
      * rewrite Heq, lookup_insert_eq. split; [intros [? _]; discriminate |].
        intros [_ Hall]. exfalso. apply (Hall f); [left | exact Heq].
      * rewrite lookup_insert_ne by exact Hne. split.
        -- intros [Hm Hall]. split; [exact Hm |].
           intros g Hg. apply elem_of_cons in Hg as [-> | Hg]; auto.
        -- intros [Hm Hall]. split; [exact Hm |]. intros g Hg. apply Hall. right. exact Hg.
    + rewrite Hsum, filter_cons. destruct (decide (key f = k)) as [Heq | Hne].
      * rewrite Heq, lookup_insert_eq. simpl. unfold add64.
        rewrite wrap64_add_l. f_equal. unfold sumZ. simpl. lia.
      * rewrite lookup_insert_ne by exact Hne. reflexivity.
    + intros Hm. apply Hrange. intros v. destruct (decide (key f = k)) as [Heq | Hne].
      * rewrite Heq, lookup_insert_eq. intros [= <-]. apply wrap64_range.
      * rewrite lookup_insert_ne by exact Hne. apply Hm.
Qed.

Lemma tally_fold_empty l k v :
  fold_left tally l ∅ !! k = Some v <->
  (exists f, f ∈ l /\ key f = k)
  /\ v = wrap64 (sumZ (map (fun f => Size (snd f)) (filter (fun f => key f = k) l))).
Proof.
  destruct (tally_fold l ∅ k) as (Hnone & Hsum & Hrange). simpl in *.
  rewrite lookup_empty in Hnone, Hsum. simpl in Hsum. rewrite Z.add_0_l in Hsum.
  split.
  - intros Hv. split.
    + destruct (decide (Exists (fun f => key f = k) l)) as [Hex | Hno].
      * apply Exists_exists in Hex. exact Hex.
      * exfalso. assert (Hn : fold_left tally l ∅ !! k = None); [| congruence].
        apply Hnone. split; [reflexivity |].
        intros f Hf Hk. apply Hno. apply Exists_exists. eauto.
    + rewrite <- Hsum, Hv. simpl. symmetry. apply wrap64_small.
      apply (Hrange ltac:(intros v'; rewrite lookup_empty; discriminate) v Hv).
  - intros [(f & Hf & Hk) ->].
    destruct (fold_left tally l ∅ !! k) as [v |] eqn:Hv.
    + f_equal. rewrite <- Hsum. simpl. symmetry. apply wrap64_small.
      apply (Hrange ltac:(intros v'; rewrite lookup_empty; discriminate) v).
      reflexivity.
    + exfalso. destruct (proj1 Hnone eq_refl) as [_ Hall]. exact (Hall f Hf Hk).
Qed.

End Tally.

Lemma usageState_maps l : forall st,
  typeStats (fold_left addFile l st)
  = fold_left (fun m f =>
                 <[typeKey f := add64 (default 0 (m !! typeKey f)) (Size (snd f))]> m)
      l (typeStats st)
  /\ dirStats (fold_left addFile l st)
     = fold_left (fun m f =>
                    <[Dir_of (fst f) :=
                        add64 (default 0 (m !! Dir_of (fst f))) (Size (snd f))]> m)
         l (dirStats st).
Proof.
  induction l as [| f l IH]; intros st; simpl; [auto |].
  destruct (IH (addFile st f)) as [-> ->]. split; reflexivity.
Qed.

Lemma sorted_range_elem `{Countable K} (o : MapOrder K Z) (m : gmap K Z) k v :
  (k, v) ∈ sortSlice bySizeDesc (range o m) <-> m !! k = Some v.
Proof. rewrite sortSlice_perm, range_perm. apply elem_of_map_to_list. Qed.

(** X13. Each row of the type table of [analyzeDiskUsage] is a lower-cased
    extension (or the sentinel for none) that some counted file has, with
    the 64-bit sum of the sizes of the counted files that have it; each row
    of the directory table is the immediate parent directory of some
    counted file, with the 64-bit sum of the sizes of the files directly in
    it, files of its subdirectories not included. *)
Theorem usage_rows_are_group_sums typeOrder dirOrder fs p r :
  analyzeDiskUsage typeOrder dirOrder fs p = Ok r ->
  (forall ext total,
      (ext, total) ∈ typeStatsList r <->
      (exists f, f ∈ countedFiles fs p /\ typeKey f = ext)
      /\ total = wrap64 (sumZ (map (fun f => Size (snd f))
                                 (filter (fun f => typeKey f = ext) (countedFiles fs p)))))
  /\ (forall dir total,
        (dir, total) ∈ dirStatsList r <->
        (exists f, f ∈ countedFiles fs p /\ Dir_of (fst f) = dir)
        /\ total = wrap64 (sumZ (map (fun f => Size (snd f))
                                   (filter (fun f => Dir_of (fst f) = dir)
                                      (countedFiles fs p))))).
Proof.
  rewrite analyzeDiskUsage_eq. cbv zeta. intros [= <-]. simpl.
  unfold usageState.
  destruct (usageState_maps (countedFiles fs p) (mkUsage ∅ ∅ 0)) as [Ht Hd].
  simpl in Ht, Hd. split.
  - intros ext total. rewrite sorted_range_elem, Ht. apply tally_fold_empty.
  - intros dir total. rewrite sorted_range_elem, Hd.
    apply (tally_fold_empty (fun f : path * FileInfo => Dir_of (fst f))).
Qed.

Lemma usage_rows_are_group_sums_witness :
  exists r,
    analyzeDiskUsage forwardOrder forwardOrder exampleTree [] = Ok r
    /\ ([], 17) ∈ dirStatsList r /\ (["sub"%string], 9) ∈ dirStatsList r.
Proof.
  eexists. split; [rewrite analyzeDiskUsage_eq; reflexivity |].
  cbv zeta.
  destruct (usage_rows_are_group_sums forwardOrder forwardOrder exampleTree [] _
              (analyzeDiskUsage_eq forwardOrder forwardOrder exampleTree []))
    as [_ Hd].
  assert (Hc : countedFiles exampleTree [] =
            [(["a.txt"%string], mkInfo 5 0 false);
             (["b.csv"%string], mkInfo 5 (95 * day) false);
             (["old.tmp"%string], mkInfo 7 0 false);
             (["empty.dat"%string], mkInfo 0 0 false);
             (["sub"; "x.log"]%string, mkInfo 9 0 false)]) by reflexivity.
  split; apply Hd; rewrite Hc.
  - split; [exists (["a.txt"%string], mkInfo 5 0 false); split; [left | reflexivity] |].
    reflexivity.
  - split; [exists (["sub"; "x.log"]%string, mkInfo 9 0 false); split;
            [do 4 right; left | reflexivity] |].
    reflexivity.
Defined.

(** X14. The directory rows [analyzeDiskUsage] displays are at most ten,
    they are the first rows of the table sorted by size, all of them when
    the table has at most ten, and no row left out is larger than a row
    displayed. *)
Theorem usage_shows_largest_ten typeOrder dirOrder fs p r :
  analyzeDiskUsage typeOrder dirOrder fs p = Ok r ->
  (length (shownDirs r) <= 10)%nat
  /\ dirStatsList r = shownDirs r ++ drop 10 (dirStatsList r)
  /\ ((length (dirStatsList r) <= 10)%nat -> shownDirs r = dirStatsList r)
  /\ (forall shown hidden,
        shown ∈ shownDirs r -> hidden ∈ drop 10 (dirStatsList r) ->
        snd hidden <= snd shown).
Proof.
  rewrite analyzeDiskUsage_eq. cbv zeta. intros [= <-]. simpl.
  set (l := sortSlice bySizeDesc (range dirOrder (dirStats (usageState fs p)))).
  split; [rewrite length_take; lia |].
  split; [symmetry; apply take_drop |].
  split; [intros Hlen; apply take_ge; exact Hlen |].
  intros shown hidden Hs Hh.
  pose proof (sortSlice_descending (range dirOrder (dirStats (usageState fs p)))) as Hd.
  fold l in Hd. unfold descending in Hd. rewrite <- (take_drop 10 l) in Hd.
  exact (StronglySorted_app_1_elem_of _ _ _ _ _ Hd Hs Hh).
Qed.

Lemma usage_shows_largest_ten_witness :
  exists r,
    analyzeDiskUsage forwardOrder forwardOrder exampleTree [] = Ok r
    /\ shownDirs r = dirStatsList r.
Proof.
  eexists. split; [rewrite analyzeDiskUsage_eq; reflexivity |]. cbv zeta.
  destruct (usage_shows_largest_ten forwardOrder forwardOrder exampleTree [] _
              (analyzeDiskUsage_eq forwardOrder forwardOrder exampleTree []))
    as (_ & _ & Hall & _).
  apply Hall. vm_compute. lia.
Defined.

(** X15. [analyzeDiskUsage] counts nothing and returns no error when its
    root is a file (the root itself is left out, whatever its size), a
    directory that cannot be listed, or a directory without entries: the
    report has two empty tables and the total 0. *)
Theorem usage_of_uncounted_root typeOrder dirOrder fs p n :
  resolve fs p = Ok n ->
  match n with
  | File _ _ _ | Dir _ _ false _ | Dir _ _ true [] | Locked _ => True
  | Dir _ _ true (_ :: _) => False
  end ->
  analyzeDiskUsage typeOrder dirOrder fs p = Ok (mkUsageReport [] [] [] 0).
Proof.
  intros Hres Hn. rewrite analyzeDiskUsage_eq. cbv zeta.
  assert (Hc : countedFiles fs p = []).
  { unfold countedFiles, walkedFiles. rewrite Hres.
    destruct n as [sz mt d | sz mt [|] [| e es] | b]; simpl; try reflexivity;
      try contradiction.
    rewrite filter_cons. simpl. destruct (decide (p <> p)); [congruence | reflexivity]. }
  unfold usageState. rewrite Hc. simpl. rewrite !range_empty. reflexivity.
Qed.

Lemma usage_of_uncounted_root_witness :
  analyzeDiskUsage forwardOrder forwardOrder exampleTree ["a.txt"%string]
    = Ok (mkUsageReport [] [] [] 0)
  /\ analyzeDiskUsage forwardOrder forwardOrder exampleTree ["private"%string]
    = Ok (mkUsageReport [] [] [] 0).
Proof.
  split.
  - apply (usage_of_uncounted_root _ _ _ _ (File 5 0 (blank 5))); [reflexivity | exact I].
  - apply (usage_of_uncounted_root _ _ _ _ (Dir 4096 0 false [])); [reflexivity | exact I].
Defined.

(* ===================================================================== *)
(** * More properties of [provideCleanupAdvice] *)
(* ===================================================================== *)

(** X16. With an [int] of 64 bits, for an age threshold of 0 to 106751
    days and a size threshold of 0 to 8796093022207 MB the two products of
    [provideCleanupAdvice] do not overflow, and the classifier compares
    with the exact thresholds: Temporary or Log by the name, else Stale
    when the age of the file is more than the threshold in days times 24
    hours and the file is not empty, else Large when it has more bytes than
    the threshold in MB times 1024 * 1024, else nothing.  The age is
    [now.Sub(info.ModTime())], which is the difference of the two times
    when that fits a [Duration] and the nearest end of its range when it
    does not. *)
Theorem cleanup_thresholds_exact now age size name info :
  0 <= age <= 106751 -> 0 <= size <= 8796093022207 ->
  ageThresholdDuration age = age * 24 * Time.Hour
  /\ sizeThresholdBytes size = size * 1024 * 1024
  /\ cleanupReason now age size name info =
       (let fileAge := Z.max minInt64 (Z.min maxInt64 (now - ModTime info)) in
        if isTempFile name then Some Temporary
        else if isLogFile name then Some LogFile
        else if (age * 24 * Time.Hour <? fileAge) && (0 <? Size info)
          then Some (Stale fileAge)
        else if size * 1024 * 1024 <? Size info then Some (Large (Size info))
        else None).
Proof.
  intros Hage Hsize.
  assert (Ha : ageThresholdDuration age = age * 24 * Time.Hour).
  { unfold ageThresholdDuration, mul64.
    rewrite (wrap64_small (age * 24)), wrap64_small; [reflexivity | |];
      unfold inRange, minInt64, maxInt64, half, Time.Hour; lia. }
  assert (Hs : sizeThresholdBytes size = size * 1024 * 1024).
  { unfold sizeThresholdBytes, mul64.
    rewrite (wrap64_small (size * 1024)), wrap64_small; [reflexivity | |];
      unfold inRange, minInt64, maxInt64, half; lia. }
  assert (Hsub : Time.Sub now (ModTime info)
                 = Z.max minInt64 (Z.min maxInt64 (now - ModTime info))).
  { unfold Time.Sub.
    assert (minInt64 < maxInt64) by (unfold minInt64, maxInt64, half; lia).
    destruct (Z.ltb_spec (now - ModTime info) minInt64); [lia |].
    destruct (Z.ltb_spec maxInt64 (now - ModTime info)); lia. }
  split; [exact Ha |]. split; [exact Hs |].
  unfold cleanupReason. rewrite Ha, Hs, Hsub. reflexivity.
Qed.

Lemma cleanup_thresholds_exact_witness :
  ageThresholdDuration 106751 = 106751 * 24 * Time.Hour
  /\ sizeThresholdBytes 8796093022207 = 8796093022207 * 1024 * 1024
  /\ cleanupReason exampleNow 106751 8796093022207 "data.csv" (mkInfo 5 0 false) = None.
Proof.
  destruct (cleanup_thresholds_exact exampleNow 106751 8796093022207 "data.csv"
              (mkInfo 5 0 false)) as (Ha & Hs & Hr); [lia | lia |].
  split; [exact Ha |]. split; [exact Hs |].
  etransitivity; [exact Hr | reflexivity].
Defined.

(** One day more and the age threshold wraps around to a negative
    duration, so that every file that is not empty counts as stale. *)
Example ageThreshold_overflow :
  ageThresholdDuration 106752 < 0
  /\ cleanupReason exampleNow 106752 100 "data.csv" (mkInfo 5 (99 * day) false)
     = Some (Stale day).
Proof. split; vm_compute; reflexivity. Qed.

Lemma resolve_app p : forall fs n q,
  resolve fs p = Ok n -> resolve fs (p ++ q) = resolve n q.
Proof.
  induction p as [| x p IH]; intros fs n q; simpl.
  - intros [= ->]. reflexivity.
  - destruct fs as [| sz mt r es |]; try discriminate.
    destruct (lookupEntry x es) as [c |]; [apply IH | discriminate].
Qed.

Lemma unlink_cons sz mt r es x c q name :
  lookupEntry x es = Some c ->
  unlink (Dir sz mt r es) (x :: (q ++ [name])) =
    match unlink c (q ++ [name]) with
    | Ok c' => Ok (Dir sz mt r (replaceEntry x c' es))
    | Err e => Err e
    end.
Proof.
  intros Hc. cbn [unlink]. rewrite Hc.
  destruct (q ++ [name]) eqn:Hq; [destruct q; discriminate | reflexivity].
Qed.

Lemma unlink_child p : forall fs sz mt r es name fsz fmt d,
  resolve fs p = Ok (Dir sz mt r es) ->
  lookupEntry name es = Some (File fsz fmt d) ->
  exists fs',
    unlink fs (p ++ [name]) = Ok fs'
    /\ resolve fs' p = Ok (Dir sz mt r (removeEntry name es)).
Proof.
  induction p as [| x p IH]; intros fs sz mt r es name fsz fmt d Hres Hname.
  - simpl in Hres. injection Hres as ->. simpl. rewrite Hname. eauto.
  - simpl in Hres. destruct fs as [| sz0 mt0 r0 es0 |]; try discriminate.
    destruct (lookupEntry x es0) as [c |] eqn:Hc; [| discriminate].
    destruct (IH c sz mt r es name fsz fmt d Hres Hname) as (c' & Hrm & Hres').
    exists (Dir sz0 mt0 r0 (replaceEntry x c' es0)).
    change ((x :: p) ++ [name]) with (x :: (p ++ [name])).
    rewrite (unlink_cons _ _ _ _ _ _ _ _ Hc), Hrm. split; [reflexivity |].
    rewrite resolve_cons, (lookupEntry_replaceEntry_eq _ _ c' _ Hc). exact Hres'.
Qed.

Lemma unlink_missing p : forall fs sz mt r es name,
  resolve fs p = Ok (Dir sz mt r es) -> lookupEntry name es = None ->
  exists e, unlink fs (p ++ [name]) = Err e.
Proof.
  induction p as [| x p IH]; intros fs sz mt r es name Hres Hname.
  - simpl in Hres. injection Hres as ->. simpl. rewrite Hname. eauto.
  - simpl in Hres. destruct fs as [| sz0 mt0 r0 es0 |]; try discriminate.
    destruct (lookupEntry x es0) as [c |] eqn:Hc; [| discriminate].
    destruct (IH c sz mt r es name Hres Hname) as (e & Hrm).
    change ((x :: p) ++ [name]) with (x :: (p ++ [name])).
    rewrite (unlink_cons _ _ _ _ _ _ _ _ Hc), Hrm. eauto.
Qed.

Lemma removeEntry_names name es x :
  x ∈ map fst (removeEntry name es) -> x ∈ map fst es.
Proof.
  induction es as [| [n c] es IH]; simpl; [auto |].
  destruct (decide (n = name)); simpl.
  - intros Hx. right. exact Hx.
  - intros Hx. apply elem_of_cons in Hx as [-> | Hx]; [left | right; auto].
Qed.

Lemma NoDup_removeEntry name es :
  NoDup (map fst es) -> NoDup (map fst (removeEntry name es)).
Proof.
  induction es as [| [n c] es IH]; simpl; [auto |].
  intros Hnd. apply NoDup_cons in Hnd as [Hn Hnd].
  destruct (decide (n = name)); [exact Hnd |]. simpl.
  apply NoDup_cons. split; [| apply IH, Hnd].
  intros Hin. apply Hn. eapply removeEntry_names, Hin.
Qed.

Lemma lookupEntry_NoDup_In name c es :
  NoDup (map fst es) -> In (name, c) es -> lookupEntry name es = Some c.
Proof.
  induction es as [| [n c0] es IH]; simpl; [contradiction |].
  intros Hnd Hin. apply NoDup_cons in Hnd as [Hn Hnd].
  destruct (decide (n = name)) as [-> | Hne].
  - destruct Hin as [[= ->] | Hin]; [reflexivity |].
    exfalso. apply Hn. apply list_elem_of_fmap. exists (name, c).
    split; [reflexivity | apply list_elem_of_In, Hin].
  - destruct Hin as [[= -> ->] | Hin]; [contradiction | auto].
Qed.

(** Removing children of one directory by name, one after the other:
    the names the system lets go are gone, the others are as they were. *)
Lemma removeAll_children protected p names : forall fs sz mt r es,
  resolve fs p = Ok (Dir sz mt r es) -> NoDup (map fst es) ->
  (forall n, n ∈ names ->
     lookupEntry n es = None \/ exists fsz fmt d, lookupEntry n es = Some (File fsz fmt d)) ->
  exists es',
    resolve (removeAll protected fs (map (fun n => p ++ [n]) names)) p
      = Ok (Dir sz mt r es')
    /\ (forall n, n ∈ names -> protected (p ++ [n]) = None -> lookupEntry n es' = None)
    /\ (forall n, n ∉ names \/ protected (p ++ [n]) <> None ->
          lookupEntry n es' = lookupEntry n es).
Proof.
  induction names as [| name names IH]; intros fs sz mt r es Hres Hnd Hfiles.
  - exists es. split; [exact Hres |]. split; [intros n Hn; inversion Hn | reflexivity].
  - unfold removeAll in *. cbn [map fold_left].
    assert (Hstep : exists fs1 es1,
               match Remove protected fs (p ++ [name]) with
               | Ok fs' => fs' | Err _ => fs end = fs1
               /\ resolve fs1 p = Ok (Dir sz mt r es1) /\ NoDup (map fst es1)
               /\ (protected (p ++ [name]) = None -> lookupEntry name es1 = None)
               /\ forall n, n <> name \/ protected (p ++ [name]) <> None ->
                    lookupEntry n es1 = lookupEntry n es).
    { unfold Remove. destruct (protected (p ++ [name])) as [e |] eqn:Hprot.
      { exists fs, es. split; [reflexivity |]. split; [exact Hres |].
        split; [exact Hnd |]. split; [discriminate | reflexivity]. }
      destruct (Hfiles name ltac:(left)) as [Hnone | (fsz & fmt & d & Hfile)].
      - destruct (unlink_missing p fs sz mt r es name Hres Hnone) as [e ->].
        exists fs, es. auto.
      - destruct (unlink_child p fs sz mt r es name fsz fmt d Hres Hfile)
          as (fs1 & -> & Hres1).
        exists fs1, (removeEntry name es). split; [reflexivity |].
        split; [exact Hres1 |]. split; [apply NoDup_removeEntry, Hnd |].
        split; [intros _; apply lookupEntry_removeEntry_eq, Hnd |].
        intros n [Hn | Hn]; [| contradiction].
        apply lookupEntry_removeEntry_ne. congruence. }
    destruct Hstep as (fs1 & es1 & -> & Hres1 & Hnd1 & Hgone & Hother).
    destruct (IH fs1 sz mt r es1 Hres1 Hnd1) as (es' & Hres' & Hgone' & Hother').
    { intros n Hn. destruct (decide (n = name)) as [-> | Hne].
      - destruct (protected (p ++ [name])) as [e |] eqn:Hprot.
        + rewrite Hother by (right; discriminate). apply Hfiles. left.
        + left. apply Hgone. reflexivity.
      - rewrite (Hother n (or_introl Hne)). apply Hfiles. right. exact Hn. }
    exists es'. split; [exact Hres' |]. split.
    + intros n Hn Hprot. destruct (decide (n ∈ names)) as [Hin | Hout]; [auto |].
      rewrite (Hother' n (or_introl Hout)).
      apply elem_of_cons in Hn as [-> | Hn]; [auto | contradiction].
    + intros n Hn. rewrite Hother'.
      * apply Hother. destruct (decide (n = name)) as [-> | Hne]; [| left; exact Hne].
        right. destruct Hn as [Hn | Hn]; [| exact Hn].
        exfalso. apply Hn. left.
      * destruct Hn as [Hn | Hn]; [| right; exact Hn].
        left. intros Hin. apply Hn. right. exact Hin.
Qed.

(** X17. When the names in the directory are distinct and the answer at
    the prompt is [y] or [yes], [provideCleanupAdvice] calls [os.Remove] on
    every file it recommended: a file the system lets go no longer exists
    afterwards, a file whose removal the system refuses is still what it
    was (the failure is printed and the loop goes on to the next file),
    and every other name of the directory resolves to what it did
    before. *)
Theorem cleanup_removes_permitted_candidates
  protected now age size fs response p st sz mt es :
  resolve fs p = Ok (Dir sz mt true es) -> NoDup (map fst es) ->
  snd (provideCleanupAdvice protected now age size fs response p) = Ok st ->
  confirmed response = true ->
  (forall f, f ∈ recommendedFiles st -> protected f = None ->
     resolve (fst (provideCleanupAdvice protected now age size fs response p)) f
     = Err ErrNotExist)
  /\ (forall f, f ∈ recommendedFiles st -> protected f <> None ->
        resolve (fst (provideCleanupAdvice protected now age size fs response p)) f
        = resolve fs f)
  /\ (forall name, p ++ [name] ∉ recommendedFiles st ->
        resolve (fst (provideCleanupAdvice protected now age size fs response p))
          (p ++ [name])
        = resolve fs (p ++ [name])).
Proof.
  intros Hres Hnd Hadv Hyes.
  destruct (advise_rows _ _ _ _ _ _ _ _ Hadv) as (files & Hrd & Hrows & Hrec & _).
  assert (Hfiles : files = map dirEntry es).
  { unfold ReadDir in Hrd. rewrite Hres in Hrd. congruence. }
  set (names := map cName (rows st)).
  assert (Hpaths : recommendedFiles st = map (fun n => p ++ [n]) names).
  { rewrite Hrec. unfold names. rewrite map_map. apply map_ext_in.
    intros c Hc. apply list_elem_of_In in Hc.
    rewrite Hrows, list_elem_of_omap in Hc. destruct Hc as (file & _ & Hc).
    apply candidateOf_Some in Hc. destruct Hc as (info & reason & _ & _ & _ & ->).
    reflexivity. }
  assert (Hnames : forall n, n ∈ names ->
            lookupEntry n es = None
            \/ exists fsz fmt d, lookupEntry n es = Some (File fsz fmt d)).
  { intros n Hn. right. unfold names in Hn.
    apply list_elem_of_fmap in Hn as (c & -> & Hc).
    rewrite Hrows, list_elem_of_omap in Hc. destruct Hc as (file & Hin & Hc).
    apply candidateOf_Some in Hc. destruct Hc as (info & reason & Hd & Hi & _ & ->).
    rewrite Hfiles in Hin. apply list_elem_of_fmap in Hin as ([name c] & -> & Hin).
    destruct (dirEntry_file _ _ _ Hd Hi) as [d ->]. simpl.
    exists (Size info), (ModTime info), d.
    apply lookupEntry_NoDup_In; [exact Hnd | apply list_elem_of_In, Hin]. }
  assert (Hfs : fst (provideCleanupAdvice protected now age size fs response p)
                = removeAll protected fs (recommendedFiles st)).
  { assert (Hst : st = fold_left (adviseEntry now age size p) files (mkAdvice [] 0 [])).
    { destruct (advise_report _ _ _ _ _ _ _ _ Hadv) as (files' & Hrd' & ->). congruence. }
    unfold provideCleanupAdvice. rewrite Hrd, <- Hst.
    case_bool_decide as Hlen; simpl.
    - apply length_zero_iff_nil in Hlen. rewrite Hlen. reflexivity.
    - rewrite Hyes. reflexivity. }
  rewrite Hfs, Hpaths.
  destruct (removeAll_children protected p names fs sz mt true es Hres Hnd Hnames)
    as (es' & Hres' & Hgone & Hother).
  split; [| split].
  - intros f Hf Hprot. apply list_elem_of_fmap in Hf as (n & -> & Hn).
    rewrite (resolve_app _ _ _ [n] Hres'). simpl. rewrite (Hgone n Hn Hprot). reflexivity.
  - intros f Hf Hprot. apply list_elem_of_fmap in Hf as (n & -> & Hn).
    rewrite (resolve_app _ _ _ [n] Hres'), (resolve_app _ _ _ [n] Hres). simpl.
    rewrite Hother; [reflexivity | right; exact Hprot].
  - intros name Hname.
    rewrite (resolve_app _ _ _ [name] Hres'), (resolve_app _ _ _ [name] Hres). simpl.
    rewrite Hother; [reflexivity |]. left.
    intros Hin. apply Hname. apply list_elem_of_fmap. eauto.
Qed.

Lemma cleanup_removes_permitted_candidates_witness :
  let fs' := fst (provideCleanupAdvice (protecting ["a.txt"%string]) exampleNow 90 100
                    exampleTree "y" []) in
  resolve fs' ["old.tmp"%string] = Err ErrNotExist
  /\ resolve fs' ["a.txt"%string] = Ok (File 5 0 (blank 5))
  /\ resolve fs' ["b.csv"%string] = resolve exampleTree ["b.csv"%string].
Proof.
  destruct (cleanup_removes_permitted_candidates (protecting ["a.txt"%string])
              exampleNow 90 100 exampleTree "y" []
              exampleAdvice 4096 0
              [("a.txt"%string, File 5 0 (blank 5));
               ("b.csv"%string, File 5 (95 * day) (blank 5));
               ("old.tmp"%string, File 7 0 (blank 7));
               ("empty.dat"%string, File 0 0 (blank 0));
               ("sub"%string, Dir 4096 0 true [("x.log"%string, File 9 0 (blank 9))]);
               ("private"%string, Dir 4096 0 false [])])
    as (Hgone & Hrefused & Hkept).
  - reflexivity.
  - simpl. apply (bool_decide_unpack _). vm_compute. exact I.
  - reflexivity.
  - reflexivity.
  - split; [| split].
    + apply Hgone; [right; left | reflexivity].
    + etransitivity; [apply Hrefused; [left | discriminate] | reflexivity].
    + apply (Hkept "b.csv"%string). simpl. intros Hin.
      repeat (apply elem_of_cons in Hin as [Hin | Hin]; [discriminate |]).
      inversion Hin.
Defined.

(* ===================================================================== *)
(** * The label of an event in the monitoring loops *)
(* ===================================================================== *)

Lemma land_flag op k :
  0 <= k -> (Z.land op (2 ^ k) =? 2 ^ k) = Z.testbit op k.
Proof.
  intros Hk.
  assert (Hland : Z.land op (2 ^ k) = if Z.testbit op k then 2 ^ k else 0).
  { apply Z.bits_inj'. intros m Hm.
    rewrite Z.land_spec, Z.pow2_bits_eqb by exact Hk.
    destruct (Z.eqb_spec k m) as [<- | Hne].
    - rewrite andb_true_r. destruct (Z.testbit op k) eqn:Hbit.
      + rewrite Z.pow2_bits_eqb, Z.eqb_refl by exact Hk. reflexivity.
      + rewrite Z.bits_0. reflexivity.
    - rewrite andb_false_r. destruct (Z.testbit op k).
      + rewrite Z.pow2_bits_eqb by exact Hk.
        symmetry. apply Z.eqb_neq. exact Hne.
      + rewrite Z.bits_0. reflexivity. }
  rewrite Hland. destruct (Z.testbit op k).
  - apply Z.eqb_refl.
  - apply Z.eqb_neq. pose proof (Z.pow_pos_nonneg 2 k ltac:(lia) Hk). lia.
Qed.

(** X18. When the five operations of [fsnotify] are single bits, the
    monitoring loops print one label for an event, also when the event
    carries several operations: CREATED when the create bit is set,
    whatever else is; MODIFIED when the write bit is set and the create bit
    is not; then DELETED, RENAMED and CHMOD in this order of precedence.
    The label is empty exactly when none of the five bits is set, and
    the label of an event that carries the operations of two events is the
    label of one of the two. *)
Theorem event_label_precedence f kc kw kd kr kh op :
  0 <= kc -> 0 <= kw -> 0 <= kd -> 0 <= kr -> 0 <= kh ->
  f = Fsnotify.mkOps (2 ^ kc) (2 ^ kw) (2 ^ kd) (2 ^ kr) (2 ^ kh) ->
  (eventType f op = "CREATED" <-> Z.testbit op kc = true)
  /\ (eventType f op = "MODIFIED" <->
        Z.testbit op kc = false /\ Z.testbit op kw = true)
  /\ (eventType f op = "DELETED" <->
        Z.testbit op kc = false /\ Z.testbit op kw = false
        /\ Z.testbit op kd = true)
  /\ (eventType f op = "RENAMED" <->
        Z.testbit op kc = false /\ Z.testbit op kw = false
        /\ Z.testbit op kd = false /\ Z.testbit op kr = true)
  /\ (eventType f op = "CHMOD" <->
        Z.testbit op kc = false /\ Z.testbit op kw = false
        /\ Z.testbit op kd = false /\ Z.testbit op kr = false
        /\ Z.testbit op kh = true)
  /\ (eventType f op = EmptyString <->
        Z.testbit op kc = false /\ Z.testbit op kw = false
        /\ Z.testbit op kd = false /\ Z.testbit op kr = false
        /\ Z.testbit op kh = false)
  /\ (forall op', eventType f (Z.lor op op') = eventType f op
                  \/ eventType f (Z.lor op op') = eventType f op').
Proof.
  intros Hc Hw Hd Hr Hh ->.
  assert (Hlabel : forall o,
            eventType (Fsnotify.mkOps (2 ^ kc) (2 ^ kw) (2 ^ kd) (2 ^ kr) (2 ^ kh)) o
            = if Z.testbit o kc then "CREATED"
              else if Z.testbit o kw then "MODIFIED"
              else if Z.testbit o kd then "DELETED"
              else if Z.testbit o kr then "RENAMED"
              else if Z.testbit o kh then "CHMOD"
              else EmptyString).
  { intros o. unfold eventType. cbn [Fsnotify.Create Fsnotify.Write Fsnotify.Remove
                                      Fsnotify.Rename Fsnotify.Chmod].
    rewrite !land_flag by assumption. reflexivity. }
  rewrite (Hlabel op).
  repeat split;
    try (destruct (Z.testbit op kc), (Z.testbit op kw), (Z.testbit op kd),
           (Z.testbit op kr), (Z.testbit op kh);
         first [discriminate | reflexivity | intros; intuition discriminate]).
  intros op'. rewrite !Hlabel, !Z.lor_spec.
  destruct (Z.testbit op kc), (Z.testbit op kw), (Z.testbit op kd),
    (Z.testbit op kr), (Z.testbit op kh),
    (Z.testbit op' kc), (Z.testbit op' kw), (Z.testbit op' kd),
    (Z.testbit op' kr), (Z.testbit op' kh); simpl; auto.
Qed.

Lemma event_label_precedence_witness :
  eventType fsnotify1 (Z.lor 2 16) = "MODIFIED"%string
  /\ (eventType fsnotify1 32 = EmptyString <->
        Z.testbit 32 0 = false /\ Z.testbit 32 1 = false /\ Z.testbit 32 2 = false
        /\ Z.testbit 32 3 = false /\ Z.testbit 32 4 = false).
Proof.
  split.
  - destruct (event_label_precedence fsnotify1 0 1 2 3 4 (Z.lor 2 16))
      as (_ & Hm & _); try lia; [reflexivity |].
    apply Hm. split; reflexivity.
  - destruct (event_label_precedence fsnotify1 0 1 2 3 4 32)
      as (_ & _ & _ & _ & _ & He & _); try lia; [reflexivity |].
    exact He.
Defined.

(* ===================================================================== *)
(** * One digest map for all the size buckets *)
(* ===================================================================== *)

(** Two files of the same digest end up in the same printed group, from
    whichever buckets they come: there is one map [duplicateGroups] for
    all the buckets. *)
Lemma shared_digest_joins_buckets md5 sizeOrder groupOrder fs p r filesBySize
  size1 files1 f1 size2 files2 f2 hash :
  findDuplicateFiles md5 sizeOrder groupOrder fs p = Ok r ->
  firstPass fs p = Ok filesBySize ->
  filesBySize !! size1 = Some files1 -> (1 < length files1)%nat -> 0 < size1 ->
  f1 ∈ files1 ->
  filesBySize !! size2 = Some files2 -> (1 < length files2)%nat -> 0 < size2 ->
  f2 ∈ files2 ->
  f1 <> f2 ->
  calculateMD5 md5 fs f1 = Ok hash -> calculateMD5 md5 fs f2 = Ok hash ->
  exists g,
    g ∈ groups r /\ groupHash g = hash /\ f1 ∈ groupFiles g /\ f2 ∈ groupFiles g.
Proof.
  intros H Hm Hb1 Hl1 Hp1 Hf1 Hb2 Hl2 Hp2 Hf2 Hne Hh1 Hh2.
  destruct (findDuplicateFiles_report _ _ _ _ _ _ H) as (m & Hm' & ->).
  rewrite Hm in Hm'. injection Hm' as <-.
  destruct (secondPass_complete md5 fs sizeOrder filesBySize _ files1 f1 hash
              Hb1 Hl1 Hp1 Hf1 Hh1) as (g1 & Hg1 & Hin1).
  destruct (secondPass_complete md5 fs sizeOrder filesBySize _ files2 f2 hash
              Hb2 Hl2 Hp2 Hf2 Hh2) as (g2 & Hg2 & Hin2).
  rewrite Hg1 in Hg2. injection Hg2 as <-.
  pose proof (two_elements g1 f1 f2 Hin1 Hin2 Hne) as Hlen.
  destruct (secondPass_sound md5 sizeOrder fs filesBySize) as [_ Hsound].
  destruct g1 as [| file0 rest] eqn:Hg; [inversion Hin1 |].
  destruct (Hsound hash (file0 :: rest) file0 Hg1 ltac:(left)) as [Hh0 _].
  destruct (calculateMD5_Stat _ _ _ _ Hh0) as [info0 Hstat].
  exists (mkGroup hash (file0 :: rest)
            (mul64 (Size info0) (wrap64 (Z.of_nat (length (file0 :: rest)) - 1)))).
  split; [| simpl; auto].
  rewrite display_groups_eq. apply list_elem_of_omap.
  exists (hash, file0 :: rest). split.
  - rewrite (range_perm groupOrder _). apply elem_of_map_to_list. exact Hg1.
  - unfold groupOf. cbn [fst snd]. rewrite bool_decide_true by exact Hlen.
    rewrite Hstat. reflexivity.
Qed.

Example mixedSizes_firstPass :
  firstPass mixedSizes []
  = Ok (<[6 := [["a.txt"]; ["b.txt"]]%string]> {[5 := [["l1"]; ["l2"]]%string]}).
Proof. vm_compute. reflexivity. Qed.

Example mixedSizes_run :
  findDuplicateFiles contentDigest backwardOrder forwardOrder mixedSizes []
  = Ok (mkReport
          [mkGroup "dirmon" [["a.txt"]; ["b.txt"]; ["l1"]; ["l2"]]%string 18] 1 18).
Proof. vm_compute. reflexivity. Qed.

(** C8.  The groups are not confined to a size bucket.  On a directory
    with two copies of a file of six bytes and two entries of size 5 from
    which the same six bytes are read, the first pass makes a bucket for
    the size 6 and one for the size 5, both are hashed, and the four paths
    come out as one printed group, whatever the digest function is and in
    whatever order the maps are enumerated: a group with members of two
    sizes, from two buckets.  The code takes the opposite for granted: it
    computes the wasted space of a group from the size of its first file,
    under the comment that all files in the group have the same size. *)
Theorem duplicate_group_mixes_size_buckets md5 sizeOrder groupOrder :
  firstPass mixedSizes []
  = Ok (<[6 := [["a.txt"]; ["b.txt"]]%string]> {[5 := [["l1"]; ["l2"]]%string]})
  /\ Lstat mixedSizes ["a.txt"%string] = Ok (mkInfo 6 0 false)
  /\ Lstat mixedSizes ["l1"%string] = Ok (mkInfo 5 0 false)
  /\ exists r g,
       findDuplicateFiles md5 sizeOrder groupOrder mixedSizes [] = Ok r
       /\ g ∈ groups r
       /\ ["a.txt"%string] ∈ groupFiles g
       /\ ["l1"%string] ∈ groupFiles g.
Proof.
  split; [exact mixedSizes_firstPass |].
  split; [reflexivity |]. split; [reflexivity |].
  assert (Hrun : exists r,
             findDuplicateFiles md5 sizeOrder groupOrder mixedSizes [] = Ok r).
  { unfold findDuplicateFiles. rewrite mixedSizes_firstPass. eauto. }
  destruct Hrun as [r Hr]. exists r.
  destruct (shared_digest_joins_buckets md5 sizeOrder groupOrder mixedSizes [] r _
              6 [["a.txt"]; ["b.txt"]]%string ["a.txt"%string]
              5 [["l1"]; ["l2"]]%string ["l1"%string]
              (md5 ["d"; "i"; "r"; "m"; "o"; "n"]%byte)
              Hr mixedSizes_firstPass)
    as (g & Hg & _ & Ha & Hl);
    try reflexivity; try (simpl; lia); try discriminate; try (left; fail).
  exists g. auto.
Qed.
